(** * GraphQL query complexity: the evaluator and the block-string normalizer

    A shallow embedding of [complexity.go] (the scoring pass over a parsed
    executable document) and of [blockString] from the [internal/common]
    package, with the properties of the design document proved about them.

    Conventions.
    - A Go [int] is a [Z] kept in the signed 64-bit range; every arithmetic
      result is stored through a normalisation function, [wrap64] for the
      program as compiled for a 64-bit target.
    - A Go [string] is a sequence of bytes: [String.string].
    - A Go [map[string]T] is a [gmap string T]; a nil map reads as [∅].
    - A slice that the code compares with [nil] is an [option (list _)].
    - Recursion through fragment spreads is not bounded by the document, so
      the scorer carries a fuel argument that is spent on every call. *)

From Stdlib Require Import ZArith String Ascii List Lia.
From Stdlib Require Import Floats.SpecFloat.
From stdpp Require Import base option list gmap strings.

Set Warnings "-register-all".

Local Open Scope string_scope.
Local Open Scope list_scope.
Local Open Scope Z_scope.

(** ** Go integers *)

Definition maxInt : Z := 2 ^ 63 - 1.
Definition minInt : Z := - 2 ^ 63.
Definition maxUint64 : Z := 2 ^ 64 - 1.

(** Two's-complement reduction of a mathematical integer to an [int]. *)
Definition wrap64 (z : Z) : Z := (z + 2 ^ 63) mod 2 ^ 64 - 2 ^ 63.

Definition inInt (z : Z) : Prop := minInt <= z <= maxInt.

(** ** Outcomes of the evaluator *)

Record Location := { Line : Z; Column : Z }.

(** The two kinds of Go [error] that reach the caller: the parser's
    [*errors.QueryError], and the [fmt.Errorf] string of the evaluator. *)
Inductive error :=
| QueryError (Message : string) (Locations : list Location)
| ErrorString (Message : string).

(** [OutOfFuel] stands for a call chain deeper than the fuel given. *)
Inductive outcome (A : Type) :=
| Ret (a : A)
| Err (e : error)
| OutOfFuel.
Arguments Ret {A} a.
Arguments Err {A} e.
Arguments OutOfFuel {A}.

Definition bind {A B} (m : outcome A) (k : A -> outcome B) : outcome B :=
  match m with
  | Ret a => k a
  | Err e => Err e
  | OutOfFuel => OutOfFuel
  end.

Notation "'let*' x ':=' m 'in' k" := (bind m (fun x => k))
  (at level 10, x name, m at level 200, k at level 200,
   format "'[v' 'let*'  x  ':='  m  'in' '/' k ']'").

(** ** The syntax tree (package [types] of graphql-go, as the evaluator
    reads it; locations, aliases, directives and type conditions are never
    consulted by the scorer and are left out) *)

(** [text/scanner] token classes a literal can carry. *)
Inductive TokenType := TInt | TFloat | TString | TIdent.

Inductive Value :=
| VarValue (Name : string)
| PrimitiveValue (Type_ : TokenType) (Text : string)
| NullValue
| ListValue (Values : list Value)
| ObjectValue (Fields : list (string * Value)).

Record Argument := { ArgName : string; ArgValue : Value }.
Definition ArgumentList := list Argument.

Inductive Selection :=
| Field (Name : string) (Arguments : ArgumentList)
        (SelectionSet : option (list Selection))
| FragmentSpread (Name : string)
| InlineFragment (Selections : list Selection).

(** Ranging over a nil slice visits nothing. *)
Definition elems {A} (s : option (list A)) : list A :=
  match s with
  | Some l => l
  | None => []
  end.

Record FragmentDefinition :=
  { FragName : string; FragSelections : list Selection }.

Inductive OperationType := Query | Mutation | Subscription.

Record Operation :=
  { OpType : OperationType; OpSelections : list Selection }.

Record ExecutableDefinition :=
  { Operations : list Operation; Fragments : list FragmentDefinition }.

(** ** Runtime values of the variables mapping ([interface{}]) *)

Inductive GoValue :=
| JsonNumber (s : string)
| Float64 (f : spec_float)
| Float32 (f : spec_float)
| GoInt (z : Z)
| GoString (s : string)
| GoBool (b : bool)
| GoNil.

(** ** [strconv]: base-10 integer parsing (Go standard library) *)

Inductive NumError := ErrSyntax | ErrRange.

Definition byteOf (c : ascii) : Z := Z.of_N (N_of_ascii c).

Definition digitOf (c : ascii) : option Z :=
  let b := byteOf c in
  if (48 <=? b) && (b <=? 57) then Some (b - 48) else None.

Definition isSign (c : ascii) : bool :=
  (byteOf c =? 43) || (byteOf c =? 45).

Definition isMinus (c : ascii) : bool := byteOf c =? 45.

(** The digit loop of [ParseUint(s, 10, 64)]: a byte that is no digit is a
    syntax error at the moment it is read; an accumulator that cannot take
    another digit is a range error at that moment. *)
Fixpoint parseUintLoop (s : string) (n : Z) : Z * option NumError :=
  match s with
  | EmptyString => (n, None)
  | String c rest =>
      match digitOf c with
      | None => (0, Some ErrSyntax)
      | Some d =>
          if n >=? maxUint64 / 10 + 1 then (maxUint64, Some ErrRange)
          else
            let n1 := n * 10 + d in
            if n1 >? maxUint64 then (maxUint64, Some ErrRange)
            else parseUintLoop rest n1
      end
  end.

Definition ParseUint (s : string) : Z * option NumError :=
  match s with
  | EmptyString => (0, Some ErrSyntax)
  | _ => parseUintLoop s 0
  end.

(** [ParseInt(s, 10, 64)]. *)
Definition ParseInt (s : string) : Z * option NumError :=
  match s with
  | EmptyString => (0, Some ErrSyntax)
  | String c rest =>
      let neg := isMinus c in
      let body := if isSign c then rest else s in
      match ParseUint body with
      | (_, Some ErrSyntax) => (0, Some ErrSyntax)
      | (un, _) =>
          if negb neg && (un >=? 2 ^ 63) then (maxInt, Some ErrRange)
          else if neg && (un >? 2 ^ 63) then (minInt, Some ErrRange)
          else (if neg then - un else un, None)
      end
  end.

(** The short-string loop of [Atoi]. *)
Fixpoint atoiFast (s : string) (n : Z) : Z * option NumError :=
  match s with
  | EmptyString => (n, None)
  | String c rest =>
      match digitOf c with
      | None => (0, Some ErrSyntax)
      | Some d => atoiFast rest (n * 10 + d)
      end
  end.

(** [strconv.Atoi] on a 64-bit target: strings of 1 to 18 bytes take the
    short loop, all others go through [ParseInt]. *)
Definition Atoi (s : string) : Z * option NumError :=
  let sLen := Z.of_nat (String.length s) in
  if (0 <? sLen) && (sLen <? 19) then
    match s with
    | EmptyString => (0, Some ErrSyntax)
    | String c rest =>
        let body := if isSign c then rest else s in
        match body with
        | EmptyString => (0, Some ErrSyntax)
        | _ =>
            match atoiFast body 0 with
            | (n, None) => (if isMinus c then - n else n, None)
            | r => r
            end
        end
    end
  else ParseInt s.

(** [json.Number.Int64] is [ParseInt] on the number's text. *)
Definition Int64 (s : string) : Z * option NumError := ParseInt s.

(** ** Conversion [int(f)] of a floating-point value

    Go truncates toward zero.  For a value that does not fit (and for NaN
    and the infinities) the language leaves the result to the
    implementation; the amd64 conversion instruction yields [minInt]. *)
Definition floatToInt (f : spec_float) : Z :=
  match f with
  | S754_zero _ => 0
  | S754_finite s m e =>
      let mag := if 0 <=? e then Z.pos m * 2 ^ e else Z.pos m / 2 ^ (- e) in
      let v := if s then - mag else mag in
      if (minInt <=? v) && (v <=? maxInt) then v else minInt
  | S754_infinity _ | S754_nan => minInt
  end.

(** ** complexity.go *)

Definition connectionComplexity : Z := 2.
Definition objectComplexity : Z := 1.
Definition mutationComplexity : Z := 10.

Record queryState := {
  variables : gmap string GoValue;
  fieldOverrides : gmap string Z;
  fragUsed : gmap string (list Selection)
}.

Definition isPagination (name : string) : bool :=
  String.eqb name "first" || String.eqb name "last".

(** [isConnection]: some argument is named [first] or [last]. *)
Fixpoint isConnection (args : ArgumentList) : bool :=
  match args with
  | [] => false
  | a :: rest => if isPagination (ArgName a) then true else isConnection rest
  end.

(** [isOverride]: the comma-ok lookup. *)
Definition isOverride (fieldName : string) (overrides : gmap string Z) : bool :=
  match overrides !! fieldName with
  | Some _ => true
  | None => false
  end.

(** The type switch on the variable's runtime value; [itemCount] keeps its
    zero value in every case that does not assign it. *)
Definition variableCount (v : GoValue) : Z :=
  match v with
  | JsonNumber s =>
      match Int64 s with
      | (value, None) => value
      | (_, Some _) => 0
      end
  | Float64 f => floatToInt f
  | Float32 f => floatToInt f
  | _ => 0
  end.

(** [getConnectionNodeCount]. The error text is built from [a.Name.Name],
    the name of the argument. *)
Fixpoint getConnectionNodeCount (args : ArgumentList)
    (vars : gmap string GoValue) : outcome Z :=
  match args with
  | [] => Ret 0
  | a :: rest =>
      if isPagination (ArgName a) then
        match ArgValue a with
        | PrimitiveValue _ text => Ret (fst (Atoi text))
        | VarValue name =>
            match vars !! name with
            | None =>
                Err (ErrorString ("Variable " +:+ ArgName a +:+ " not defined"))
            | Some variableValue => Ret (variableCount variableValue)
            end
        | _ => Ret 0
        end
      else getConnectionNodeCount rest vars
  end.

(** In-order traversal of a slice with an accumulator that a failing
    iteration abandons ([return 0, err]). *)
Fixpoint forRange {A} (body : Z -> A -> outcome Z) (xs : list A)
    (complexity : Z) : outcome Z :=
  match xs with
  | [] => Ret complexity
  | x :: rest =>
      let* complexity' := body complexity x in
      forRange body rest complexity'
  end.

Section Scorer.

(** How the mathematical result of an [int] operation is stored. *)
Variable norm : Z -> Z.

(** One iteration of the loop of [calculateSelectionComplexity]; [rec] is
    the recursive call. *)
Definition scoreSelection (rec : list Selection -> outcome Z)
    (state : queryState) (complexity : Z) (sel : Selection) : outcome Z :=
  match sel with
  | Field fieldName args selectionSet =>
      if isOverride fieldName (fieldOverrides state) then
        let overrideVal := default 0 (fieldOverrides state !! fieldName) in
        Ret (norm (complexity + overrideVal))
      else if String.eqb fieldName "pageInfo" then
        Ret complexity
      else if String.eqb fieldName "edges" then
        let* c := rec (elems selectionSet) in
        Ret (norm (complexity + c))
      else if isConnection args then
        let* c := rec (elems selectionSet) in
        let* itemCount := getConnectionNodeCount args (variables state) in
        Ret (norm (complexity
                   + norm (norm (itemCount * c) + connectionComplexity)))
      else
        match selectionSet with
        | Some sels =>
            let* c := rec sels in
            Ret (norm (complexity + norm (c + objectComplexity)))
        | None => Ret complexity
        end
  | FragmentSpread fieldName =>
      match fragUsed state !! fieldName with
      | Some fragVal =>
          let* c := rec fragVal in
          Ret (norm (complexity + c))
      | None => Ret complexity
      end
  | InlineFragment sels =>
      let* c := rec sels in
      Ret (norm (complexity + c))
  end.

Fixpoint calculateSelectionComplexity (fuel : nat) (sels : list Selection)
    (state : queryState) : outcome Z :=
  match fuel with
  | O => OutOfFuel
  | S fuel' =>
      forRange
        (scoreSelection
           (fun s => calculateSelectionComplexity fuel' s state) state)
        sels 0
  end.

(** The inner loop of [calculateMutationComplexity], over the children of
    a payload field. *)
Definition scorePayloadChild (fuel : nat) (state : queryState)
    (complexity : Z) (x : Selection) : outcome Z :=
  match x with
  | Field _ _ selectionSet =>
      let* c := calculateSelectionComplexity fuel (elems selectionSet) state in
      Ret (norm (complexity + c))
  | FragmentSpread name =>
      match fragUsed state !! name with
      | Some fragVal =>
          let* c := calculateSelectionComplexity fuel fragVal state in
          Ret (norm (complexity + c))
      | None => Ret complexity
      end
  | InlineFragment _ => Ret complexity
  end.

(** The outer loop of [calculateMutationComplexity]. *)
Definition scorePayload (fuel : nat) (state : queryState)
    (complexity : Z) (sel : Selection) : outcome Z :=
  match sel with
  | Field _ _ selectionSet =>
      forRange (scorePayloadChild fuel state) (elems selectionSet) complexity
  | _ => Ret complexity
  end.

Definition calculateMutationComplexity (fuel : nat) (sels : list Selection)
    (state : queryState) : outcome Z :=
  forRange (scorePayload fuel state) sels mutationComplexity.

(** The registry loop of [GetQueryComplexity]: a later definition
    overwrites an earlier one of the same name. *)
Definition buildFragUsed (frags : list FragmentDefinition)
    : gmap string (list Selection) :=
  fold_left (fun m f => <[FragName f := FragSelections f]> m) frags ∅.

Definition scoreOperation (fuel : nat) (state : queryState)
    (complexity : Z) (op : Operation) : outcome Z :=
  match OpType op with
  | Query =>
      let* c := calculateSelectionComplexity fuel (OpSelections op) state in
      Ret (norm (complexity + c))
  | Mutation =>
      let* c := calculateMutationComplexity fuel (OpSelections op) state in
      Ret (norm (complexity + c))
  | Subscription => Ret complexity
  end.

(** [query.Parse], of package [internal/query], is taken as given. *)
Variable Parse : string -> error + ExecutableDefinition.

Definition GetQueryComplexity (fuel : nat) (queryString : string)
    (vars : gmap string GoValue) (overrides : gmap string Z) : outcome Z :=
  match Parse queryString with
  | inl err => Err err
  | inr executableDefinition =>
      let state :=
        {| variables := vars;
           fieldOverrides := overrides;
           fragUsed := buildFragUsed (Fragments executableDefinition) |} in
      forRange (scoreOperation fuel state)
               (Operations executableDefinition) 0
  end.

End Scorer.

(** What the program returns: some call depth suffices and the call yields
    the value (resp. the error). *)
Definition returns (sels : list Selection) (state : queryState) (c : Z) : Prop :=
  exists fuel, calculateSelectionComplexity wrap64 fuel sels state = Ret c.

Definition fails (sels : list Selection) (state : queryState) (e : error) : Prop :=
  exists fuel, calculateSelectionComplexity wrap64 fuel sels state = Err e.

(** The same program over unbounded integers, used to say that a run of
    the compiled program did not overflow. *)
Definition exact (z : Z) : Z := z.

(** ** Selection contexts: a position at any nesting depth *)

Inductive context :=
| Here (pre post : list Selection)
| UnderField (pre : list Selection) (name : string) (args : ArgumentList)
             (inner : context) (post : list Selection)
| UnderInline (pre : list Selection) (inner : context) (post : list Selection).

Fixpoint plug (C : context) (hole : list Selection) : list Selection :=
  match C with
  | Here pre post => pre ++ hole ++ post
  | UnderField pre name args inner post =>
      pre ++ Field name args (Some (plug inner hole)) :: post
  | UnderInline pre inner post =>
      pre ++ InlineFragment (plug inner hole) :: post
  end.

(** ** Item counts that are not negative, over a whole tree *)

Definition countNonneg (vars : gmap string GoValue) (args : ArgumentList) : bool :=
  match getConnectionNodeCount args vars with
  | Ret n => 0 <=? n
  | _ => true
  end.

Fixpoint countsNonneg (vars : gmap string GoValue) (sel : Selection) : bool :=
  match sel with
  | Field _ args selectionSet =>
      countNonneg vars args
      && match selectionSet with
         | Some sels => forallb (countsNonneg vars) sels
         | None => true
         end
  | FragmentSpread _ => true
  | InlineFragment sels => forallb (countsNonneg vars) sels
  end.

Definition documentCountsNonneg (vars : gmap string GoValue)
    (d : ExecutableDefinition) : bool :=
  forallb (fun op => forallb (countsNonneg vars) (OpSelections op)) (Operations d)
  && forallb (fun f => forallb (countsNonneg vars) (FragSelections f)) (Fragments d).

(** ** The mutation rule as the design document words it

    A base of 10, plus, for each top-level field, the sum over its
    immediate children of the score of a child field's selection set or of
    a registered fragment's selections; everything else adds nothing. *)

Fixpoint sumOutcomes (ms : list (outcome Z)) : outcome Z :=
  match ms with
  | [] => Ret 0
  | m :: rest =>
      let* x := m in
      let* s := sumOutcomes rest in
      Ret (x + s)
  end.

Definition childScore (fuel : nat) (state : queryState) (child : Selection)
    : outcome Z :=
  match child with
  | Field _ _ selectionSet =>
      calculateSelectionComplexity wrap64 fuel (elems selectionSet) state
  | FragmentSpread name =>
      match fragUsed state !! name with
      | Some sels => calculateSelectionComplexity wrap64 fuel sels state
      | None => Ret 0
      end
  | InlineFragment _ => Ret 0
  end.

Definition payloadScore (fuel : nat) (state : queryState) (sel : Selection)
    : outcome Z :=
  match sel with
  | Field _ _ selectionSet =>
      sumOutcomes (map (childScore fuel state) (elems selectionSet))
  | _ => Ret 0
  end.

Definition scoreMutation (fuel : nat) (state : queryState)
    (sels : list Selection) : outcome Z :=
  let* s := sumOutcomes (map (payloadScore fuel state) sels) in
  Ret (wrap64 (10 + s)).

(** The registry as the design document words it: the selections of the
    last definition that bears the name. *)
Definition lastFragment (name : string) (frags : list FragmentDefinition)
    : option (list Selection) :=
  match filter (fun f => FragName f = name) frags with
  | [] => None
  | f :: fs => Some (FragSelections (List.last fs f))
  end.

(** ** blockstring.go *)

Definition newline : ascii := ascii_of_nat 10.

(** [strings.Split(raw, "\n")]. *)
Fixpoint Split (raw : string) : list string :=
  match raw with
  | EmptyString => [EmptyString]
  | String c rest =>
      if Ascii.eqb c newline then EmptyString :: Split rest
      else
        match Split rest with
        | l :: ls => String c l :: ls
        | [] => [String c EmptyString]
        end
  end.

(** [strings.Join(lines, "\n")]. *)
Fixpoint Join (lines : list string) : string :=
  match lines with
  | [] => EmptyString
  | [l] => l
  | l :: rest => l +:+ String newline (Join rest)
  end.

Definition isSpaceOrTab (c : ascii) : bool :=
  Ascii.eqb c (ascii_of_nat 9) || Ascii.eqb c (ascii_of_nat 32).

Fixpoint leadingWhitespace (s : string) : nat :=
  match s with
  | EmptyString => O
  | String c rest =>
      if isSpaceOrTab c then S (leadingWhitespace rest) else O
  end.

Definition isBlank (s : string) : bool :=
  Nat.eqb (String.length s) 0
  || Nat.eqb (leadingWhitespace s) (String.length s).

(** The slice expression [l[n:]] for [n <= len(l)]. *)
Fixpoint sliceFrom (n : nat) (l : string) : string :=
  match n, l with
  | O, _ => l
  | S k, String _ rest => sliceFrom k rest
  | S _, EmptyString => EmptyString
  end.

(** The loop of [blockStringIndentation] over [lines[1:]]; [commonIndent]
    is the nilable pointer. *)
Fixpoint indentationLoop (lines : list string) (commonIndent : option nat) : nat :=
  match lines with
  | [] =>
      match commonIndent with
      | None => O
      | Some c => c
      end
  | l :: rest =>
      let indent := leadingWhitespace l in
      if Nat.eqb indent (String.length l) then indentationLoop rest commonIndent
      else if Nat.eqb indent 0 then O
      else
        match commonIndent with
        | None => indentationLoop rest (Some indent)
        | Some c =>
            if Nat.ltb indent c then indentationLoop rest (Some indent)
            else indentationLoop rest commonIndent
        end
  end.

Definition blockStringIndentation (lines : list string) : nat :=
  indentationLoop (drop 1 lines) None.

(** The dedenting loop: [todo] iterations left, the next at index [i]; each
    overwrites [lines[i]]. *)
Fixpoint dedentLoop (ind todo i : nat) (lines : list string) : list string :=
  match todo with
  | O => lines
  | S todo' =>
      match lines !! i with
      | None => lines
      | Some l =>
          let l' :=
            if Nat.ltb (String.length l) ind then EmptyString
            else sliceFrom ind l in
          dedentLoop ind todo' (S i) (<[i := l']> lines)
      end
  end.

(** The first trimming loop: [trimStart]. *)
Fixpoint countLeadingBlank (lines : list string) : nat :=
  match lines with
  | [] => O
  | l :: rest => if isBlank l then S (countLeadingBlank rest) else O
  end.

(** The second trimming loop, from index [i] downwards while [i > 0]:
    [trimEnd]. *)
Fixpoint countTrailingBlank (lines : list string) (i : nat) : nat :=
  match i with
  | O => O
  | S j =>
      match lines !! i with
      | Some l => if isBlank l then S (countTrailingBlank lines j) else O
      | None => O
      end
  end.

Definition blockString (raw : string) : string :=
  let lines := Split raw in
  let ind := blockStringIndentation lines in
  let lines :=
    if Nat.ltb 0 ind then dedentLoop ind (length lines - 1) 1 lines
    else lines in
  let trimStart := countLeadingBlank lines in
  let lines := drop trimStart lines in
  let trimEnd := countTrailingBlank lines (length lines - 1) in
  let lines := take (length lines - trimEnd) lines in
  Join lines.

(** ** The normalizer as the design document words it *)

Definition chars (s : string) : list ascii := list_ascii_of_string s.

Fixpoint dropWhile {A} (p : A -> bool) (l : list A) : list A :=
  match l with
  | [] => []
  | x :: rest => if p x then dropWhile p rest else l
  end.

Fixpoint takeWhile {A} (p : A -> bool) (l : list A) : list A :=
  match l with
  | [] => []
  | x :: rest => if p x then x :: takeWhile p rest else []
  end.

Definition entirelyWhitespace (s : string) : bool :=
  forallb isSpaceOrTab (chars s).

Definition leadingCount (s : string) : nat :=
  length (takeWhile isSpaceOrTab (chars s)).

(** The minimum leading-whitespace count among all lines except the first,
    ignoring lines that are entirely whitespace; with no line to take the
    minimum over, nothing is stripped. *)
Definition commonIndent (lines : list string) : nat :=
  match map leadingCount
          (filter (fun l => entirelyWhitespace l = false) (tail lines)) with
  | [] => O
  | n :: ns => fold_right Nat.min n ns
  end.

Definition stripLeading (n : nat) (l : string) : string :=
  string_of_list_ascii (drop n (chars l)).

Definition stripBlankEnds (lines : list string) : list string :=
  rev (dropWhile entirelyWhitespace (rev (dropWhile entirelyWhitespace lines))).

Definition blockStringValue (raw : string) : string :=
  let lines := Split raw in
  let n := commonIndent lines in
  let dedented :=
    match lines with
    | [] => []
    | first :: others => first :: map (stripLeading n) others
    end in
  Join (stripBlankEnds dedented).

(** ** Auxiliary notions for the proofs *)

(** A loop body is additive when an iteration adds to the accumulator a
    value that does not depend on it. *)
Definition additive {A} (f : Z -> A -> outcome Z) : Prop :=
  forall acc x,
    inInt acc ->
    f acc x = bind (f 0 x) (fun d => Ret (wrap64 (acc + d))).

(** [below m m']: [m'] is [m] run with at least as much fuel. *)
Definition below {A} (m m' : outcome A) : Prop := m = OutOfFuel \/ m = m'.

(** A runtime value that the type switch does not convert. *)
Definition notConverted (v : GoValue) : Prop :=
  match v with
  | JsonNumber s => snd (Int64 s) <> None
  | Float64 _ | Float32 _ => False
  | _ => True
  end.

(** [wrapped m] stores the value of [m] in an [int]. *)
Definition wrapped (m : outcome Z) : outcome Z :=
  bind m (fun a => Ret (wrap64 a)).

(** ** Sample documents *)

(** A parser that knows one document. *)
Definition parseOnly (text : string) (d : ExecutableDefinition)
    : string -> error + ExecutableDefinition :=
  fun s =>
    if String.eqb s text then inr d
    else inl (QueryError "syntax error" []).

Definition firstLiteral (text : string) : ArgumentList :=
  [ {| ArgName := "first"; ArgValue := PrimitiveValue TInt text |} ].

Definition firstVariable (name : string) : ArgumentList :=
  [ {| ArgName := "first"; ArgValue := VarValue name |} ].

Definition nodeId : Selection :=
  Field "edges" [] (Some [Field "node" [] (Some [Field "id" [] None])]).

Definition queryOf (sels : list Selection) : ExecutableDefinition :=
  {| Operations := [ {| OpType := Query; OpSelections := sels |} ];
     Fragments := [] |}.

Definition undefinedVariableText : string :=
  "query Q($n: Int){ groups(first: $n){ edges{ node{ id } } } }".

Definition undefinedVariableDoc : ExecutableDefinition :=
  queryOf [Field "groups"
             [ {| ArgName := "first"; ArgValue := VarValue "n" |} ]
             (Some [nodeId])].

Definition negativeCountText : string :=
  "{ groups(first: -5){ edges{ node{ id } } } }".

Definition negativeCountDoc : ExecutableDefinition :=
  queryOf [Field "groups"
             [ {| ArgName := "first"; ArgValue := PrimitiveValue TInt "-5" |} ]
             (Some [nodeId])].

Definition overflowText : string :=
  "{ groups(first: 9223372036854775807){ edges{ node{ id } } } }".

Definition overflowDoc : ExecutableDefinition :=
  queryOf [Field "groups" (firstLiteral "9223372036854775807") (Some [nodeId])].

Definition fiveGroupsText : string :=
  "query{ groups(first:5){ edges{ node{ id } } } }".

Definition fiveGroupsDoc : ExecutableDefinition :=
  queryOf [Field "groups"
             [ {| ArgName := "first"; ArgValue := PrimitiveValue TInt "5" |} ]
             (Some [nodeId])].

Definition emptyState : queryState :=
  {| variables := ∅; fieldOverrides := ∅; fragUsed := ∅ |}.

Definition overrideState : queryState :=
  {| variables := ∅; fieldOverrides := {[ "groups" := 4 ]}; fragUsed := ∅ |}.

Definition fragmentState : queryState :=
  {| variables := ∅; fieldOverrides := ∅;
     fragUsed := {[ "connection" := [nodeId] ]} |}.

(** ** Further notions for the properties of the evaluator *)

(** The only error the evaluator itself builds. *)
Definition undefinedVariable (argName : string) : error :=
  ErrorString ("Variable " +:+ argName +:+ " not defined").

(** The two messages it can carry. *)
Definition namesPagination (e : error) : Prop :=
  e = undefinedVariable "first" \/ e = undefinedVariable "last".

(** Selections whose whole effect is to score a list of selections that
    they stand for. *)
Inductive unwraps (state : queryState) : Selection -> list Selection -> Prop :=
| unwraps_inline sels :
    unwraps state (InlineFragment sels) sels
| unwraps_edges args ss :
    fieldOverrides state !! "edges" = None ->
    unwraps state (Field "edges" args ss) (elems ss)
| unwraps_spread name sels :
    fragUsed state !! name = Some sels ->
    unwraps state (FragmentSpread name) sels.

(** Nesting depth of selections, fragment spreads not followed. *)
Fixpoint selectionDepth (sel : Selection) : nat :=
  match sel with
  | Field _ _ selectionSet =>
      S (match selectionSet with
         | Some sels =>
             fold_right (fun s n => Nat.max (selectionDepth s) n) O sels
         | None => O
         end)
  | FragmentSpread _ => O
  | InlineFragment sels =>
      S (fold_right (fun s n => Nat.max (selectionDepth s) n) O sels)
  end.

Definition depth (sels : list Selection) : nat :=
  fold_right (fun s n => Nat.max (selectionDepth s) n) O sels.

Definition documentDepth (d : ExecutableDefinition) : nat :=
  fold_right (fun op n => Nat.max (depth (OpSelections op)) n) O (Operations d).

(** A literal written with the decimal digits [ds], most significant
    first, and the number it denotes. *)
Definition digitChar (d : nat) : ascii := ascii_of_nat (48 + d).

Fixpoint digitString (ds : list nat) : string :=
  match ds with
  | [] => EmptyString
  | d :: rest => String (digitChar d) (digitString rest)
  end.

Fixpoint horner (n : Z) (ds : list nat) : Z :=
  match ds with
  | [] => n
  | d :: rest => horner (n * 10 + Z.of_nat d) rest
  end.

Definition decimalValue (ds : list nat) : Z := horner 0 ds.

Definition allDigits (ds : list nat) : Prop :=
  Forall (fun d => (d < 10)%nat) ds.


(** A parser that knows the documents of a table. *)
Fixpoint parseTable (table : list (string * ExecutableDefinition))
    (s : string) : error + ExecutableDefinition :=
  match table with
  | [] => inl (QueryError "syntax error" [])
  | (text, d) :: rest => if String.eqb s text then inr d else parseTable rest s
  end.

Definition fiveGroupsOp : Operation :=
  {| OpType := Query;
     OpSelections := [Field "groups" (firstLiteral "5") (Some [nodeId])] |}.

Definition watchOp : Operation :=
  {| OpType := Subscription;
     OpSelections := [Field "groups" (firstVariable "n") (Some [nodeId])] |}.

Definition touchOp : Operation :=
  {| OpType := Mutation;
     OpSelections :=
       [Field "touch" [] (Some [Field "group" [] (Some [Field "parent" [] (Some [Field "id" [] None])])])] |}.

Definition sampleTable : list (string * ExecutableDefinition) :=
  [ ("query{ groups(first:5){ edges{ node{ id } } } }",
      {| Operations := [fiveGroupsOp]; Fragments := [] |});
    ("query{ groups(first:5){ edges{ node{ id } } } } subscription S($n: Int){ groups(first:$n){ edges{ node{ id } } } }",
      {| Operations := [fiveGroupsOp; watchOp]; Fragments := [] |});
    ("mutation{ touch{ group{ parent{ id } } } }",
      {| Operations := [touchOp]; Fragments := [] |});
    ("query{ groups(first:5){ edges{ node{ id } } } } mutation{ touch{ group{ parent{ id } } } }",
      {| Operations := [fiveGroupsOp; touchOp]; Fragments := [] |}) ].

Definition loopState : queryState :=
  {| variables := ∅; fieldOverrides := ∅;
     fragUsed := {[ "loop" := [Field "id" [] None; FragmentSpread "loop"] ]} |}.


(** ** Further notions for the properties of the normalizer *)

(** The characters that are neither blanks nor line ends. *)
Definition visible (c : ascii) : bool :=
  negb (isSpaceOrTab c || Ascii.eqb c newline).

Definition visibleChars (s : string) : list ascii :=
  List.filter visible (chars s).

Definition hasNewline (s : string) : bool :=
  existsb (fun c => Ascii.eqb c newline) (chars s).

(** ** types.go: [ResolveType] *)

(** [types.Type]: the two wrappers, an unresolved name, and any other
    (already resolved) type. *)
Inductive Type_ :=
| TList (OfType : Type_)
| TNonNull (OfType : Type_)
| TypeName (Name : string) (Loc : Location)
| Resolved (Name : string).

(** [*errors.QueryError] as [ResolveType] fills it. *)
Record RuleError := {
  Message : string;
  Rule : string;
  Locations : list Location
}.

Section Resolve.

(** The [%q] verb of [fmt] ([strconv.Quote]), taken as given. *)
Variable Quote : string -> string.

Fixpoint ResolveType (t : Type_) (resolver : string -> option Type_)
    : RuleError + Type_ :=
  match t with
  | TList ofType =>
      match ResolveType ofType resolver with
      | inl err => inl err
      | inr ofType' => inr (TList ofType')
      end
  | TNonNull ofType =>
      match ResolveType ofType resolver with
      | inl err => inl err
      | inr ofType' => inr (TNonNull ofType')
      end
  | TypeName name loc =>
      match resolver name with
      | None =>
          inl {| Message := "unknown type " +:+ Quote name;
                 Rule := "KnownTypeNames";
                 Locations := [loc] |}
      | Some refT => inr refT
      end
  | _ => inr t
  end.

End Resolve.

(** The type under all the wrappers, and a type with that one replaced. *)
Fixpoint innermost (t : Type_) : Type_ :=
  match t with
  | TList ofType => innermost ofType
  | TNonNull ofType => innermost ofType
  | _ => t
  end.

Fixpoint replaceInnermost (t b : Type_) : Type_ :=
  match t with
  | TList ofType => TList (replaceInnermost ofType b)
  | TNonNull ofType => TNonNull (replaceInnermost ofType b)
  | _ => b
  end.


(** The lines of a body after the dedenting step of [blockString]. *)
Definition dedentedLines (raw : string) : list string :=
  match Split raw with
  | [] => []
  | first :: others =>
      first :: map (stripLeading (blockStringIndentation (Split raw))) others
  end.

(** A resolver that knows the type [Int] only. *)
Definition intResolver (name : string) : option Type_ :=
  if String.eqb name "Int" then Some (Resolved "Int") else None.


(** ** lexer.go and the parsers of literal.go, values.go, directive.go and
    types.go *)

(** The syntax tree with source locations, as the parsers build it
    (package [types] of graphql-go). *)
Module types.

Record Ident := { Name : string; Loc : Location }.

Inductive Value :=
| VarValue (Name : string) (Loc : Location)
| PrimitiveValue (Type_ : Z) (Text : string) (Loc : Location)
| NullValue (Loc : Location)
| ListValue (Values : list Value) (Loc : Location)
| ObjectValue (Fields : list (Ident * Value)) (Loc : Location).

Record Argument := { ArgName : Ident; ArgValue : Value }.

Record Directive := { DirName : Ident; DirArguments : list Argument }.

End types.

(** Token classes of [text/scanner] and the characters the parsers test. *)
Definition scanEOF : Z := -1.
Definition scanIdent : Z := -2.
Definition scanInt : Z := -3.
Definition scanFloat : Z := -4.
Definition scanString : Z := -6.

Definition chBang : Z := 33.
Definition chQuote : Z := 34.
Definition chHash : Z := 35.
Definition chDollar : Z := 36.
Definition chLParen : Z := 40.
Definition chRParen : Z := 41.
Definition chComma : Z := 44.
Definition chMinus : Z := 45.
Definition chColon : Z := 58.
Definition chAt : Z := 64.
Definition chLBracket : Z := 91.
Definition chRBracket : Z := 93.
Definition chLBrace : Z := 123.
Definition chRBrace : Z := 125.

(** [text/scanner.Scanner] and the standard formatting functions, taken as
    given.  [Scan] and [NextChar] either hand a message to the scanner's
    error callback (which panics with a syntax error) or return a rune;
    both move the scanner.  [Quote] is the [%q] verb, [TokenString] is
    [scanner.TokenString], [EncodeRune] is what [WriteRune] appends, and
    [Unquote] is [strconv.Unquote] (its error on the left). *)
Class TextScanner (Scanner : Type) := {
  Scan : Scanner -> (string * Scanner) + (Z * Scanner);
  NextChar : Scanner -> (string * Scanner) + (Z * Scanner);
  PeekChar : Scanner -> Z;
  TokenText : Scanner -> string;
  Position : Scanner -> Location;
  Quote : string -> string;
  TokenString : Z -> string;
  EncodeRune : Z -> string;
  Unquote : string -> string + string
}.

Record Lexer (Scanner : Type) := {
  sc : Scanner;
  next : Z;
  comment : string;
  useStringDescriptions : bool
}.
Arguments sc {Scanner} _.
Arguments next {Scanner} _.
Arguments comment {Scanner} _.
Arguments useStringDescriptions {Scanner} _.

(** How a lexer operation ends: normally, by the panic of [SyntaxError]
    (the lexer is kept, [CatchSyntaxError] reads its location), by another
    panic, or by running out of fuel. *)
Inductive result (L A : Type) :=
| Done (a : A) (l : L)
| SyntaxError (message : string) (l : L)
| Panic (message : string)
| NoFuel.
Arguments Done {L A} a l.
Arguments SyntaxError {L A} message l.
Arguments Panic {L A} message.
Arguments NoFuel {L A}.

Definition andThen {L A B} (m : result L A) (k : A -> L -> result L B)
    : result L B :=
  match m with
  | Done a l => k a l
  | SyntaxError message l => SyntaxError message l
  | Panic message => Panic message
  | NoFuel => NoFuel
  end.

Section Lexing.

Context {Scanner : Type} {scanner : TextScanner Scanner}.

Definition withScanner (l : Lexer Scanner) (s : Scanner) : Lexer Scanner :=
  {| sc := s; next := next l; comment := comment l;
     useStringDescriptions := useStringDescriptions l |}.

Definition withNext (l : Lexer Scanner) (r : Z) : Lexer Scanner :=
  {| sc := sc l; next := r; comment := comment l;
     useStringDescriptions := useStringDescriptions l |}.

Definition withComment (l : Lexer Scanner) (c : string) : Lexer Scanner :=
  {| sc := sc l; next := next l; comment := c;
     useStringDescriptions := useStringDescriptions l |}.

Definition Peek (l : Lexer Scanner) : Z := next l.

Definition Location_ (l : Lexer Scanner) : Location := Position (sc l).

(** [l.sc.Next()] with its result handed to [k]. *)
Definition scNext {A} (l : Lexer Scanner)
    (k : Z -> Lexer Scanner -> result (Lexer Scanner) A)
    : result (Lexer Scanner) A :=
  match NextChar (sc l) with
  | inl (message, s) => SyntaxError message (withScanner l s)
  | inr (r, s) => k r (withScanner l s)
  end.

(** The loop of [consumeComment]. *)
Fixpoint commentLoop (fuel : nat) (l : Lexer Scanner)
    : result (Lexer Scanner) unit :=
  match fuel with
  | O => NoFuel
  | S fuel' =>
      scNext l (fun r l' =>
        if (r =? 13) || (r =? 10) || (r =? scanEOF) then Done tt l'
        else commentLoop fuel' (withComment l' (comment l' +:+ EncodeRune r)))
  end.

Definition consumeComment (fuel : nat) (l : Lexer Scanner)
    : result (Lexer Scanner) unit :=
  if negb (next l =? chHash) then Panic "consumeComment used in wrong context"
  else
    andThen
      (if PeekChar (sc l) =? 32 then scNext l (fun _ l' => Done tt l')
       else Done tt l)
      (fun _ l1 =>
         let l2 :=
           if Nat.ltb 0 (String.length (comment l1))
           then withComment l1 (comment l1 +:+ String newline EmptyString)
           else l1 in
         commentLoop fuel l2).

(** The loop of [ConsumeWhitespace]. *)
Fixpoint whitespaceLoop (fuel : nat) (l : Lexer Scanner)
    : result (Lexer Scanner) unit :=
  match fuel with
  | O => NoFuel
  | S fuel' =>
      match Scan (sc l) with
      | inl (message, s) => SyntaxError message (withScanner l s)
      | inr (r, s) =>
          let l' := withNext (withScanner l s) r in
          if r =? chComma then whitespaceLoop fuel' l'
          else if r =? chHash then
            andThen (consumeComment fuel' l') (fun _ l'' => whitespaceLoop fuel' l'')
          else Done tt l'
      end
  end.

Definition ConsumeWhitespace (fuel : nat) (l : Lexer Scanner)
    : result (Lexer Scanner) unit :=
  whitespaceLoop fuel (withComment l EmptyString).

Definition ConsumeToken (fuel : nat) (expected : Z) (l : Lexer Scanner)
    : result (Lexer Scanner) unit :=
  if negb (next l =? expected) then
    SyntaxError
      ("unexpected " +:+ Quote (TokenText (sc l)) +:+ ", expecting "
         +:+ TokenString expected) l
  else ConsumeWhitespace fuel l.

Definition ConsumeIdent (fuel : nat) (l : Lexer Scanner)
    : result (Lexer Scanner) string :=
  let name := TokenText (sc l) in
  andThen (ConsumeToken fuel scanIdent l) (fun _ l' => Done name l').

Definition ConsumeIdentWithLoc (fuel : nat) (l : Lexer Scanner)
    : result (Lexer Scanner) types.Ident :=
  let loc := Location_ l in
  let name := TokenText (sc l) in
  andThen (ConsumeToken fuel scanIdent l)
    (fun _ l' => Done {| types.Name := name; types.Loc := loc |} l').

Definition ConsumeKeyword (fuel : nat) (keyword : string) (l : Lexer Scanner)
    : result (Lexer Scanner) unit :=
  if negb (next l =? scanIdent) || negb (String.eqb (TokenText (sc l)) keyword)
  then
    SyntaxError
      ("unexpected " +:+ Quote (TokenText (sc l)) +:+ ", expecting "
         +:+ Quote keyword) l
  else ConsumeWhitespace fuel l.

(** [ConsumeLiteral]: the class and the text of the current token, whatever
    it is; the location is filled in by the caller. *)
Definition ConsumeLiteral (fuel : nat) (l : Lexer Scanner)
    : result (Lexer Scanner) (Z * string) :=
  let lit := (next l, TokenText (sc l)) in
  andThen (ConsumeWhitespace fuel l) (fun _ l' => Done lit l').

(** [CatchSyntaxError] around a computation that ended as [r]: a syntax
    error is recovered and returned as a query error with the location of
    the lexer at that moment, any other panic is raised again, and a normal
    end returns no error. *)
Definition CatchSyntaxError {A} (r : result (Lexer Scanner) A)
    : result (Lexer Scanner) (option error) :=
  match r with
  | Done _ l => Done None l
  | SyntaxError message l =>
      Done (Some (QueryError ("syntax error: " +:+ message) [Location_ l])) l
  | Panic message => Panic message
  | NoFuel => NoFuel
  end.

(** The loop of the list case of [ParseLiteral]; [rec] is the recursive
    call. *)
Fixpoint listLoop (rec : Lexer Scanner -> result (Lexer Scanner) types.Value)
    (n : nat) (l : Lexer Scanner) (values : list types.Value)
    : result (Lexer Scanner) (list types.Value) :=
  match n with
  | O => NoFuel
  | S n' =>
      if negb (Peek l =? chRBracket) then
        andThen (rec l) (fun v l' => listLoop rec n' l' (values ++ [v]))
      else Done values l
  end.

(** The loop of the object case of [ParseLiteral]. *)
Fixpoint fieldLoop (rec : Lexer Scanner -> result (Lexer Scanner) types.Value)
    (fuel n : nat) (l : Lexer Scanner)
    (fields : list (types.Ident * types.Value))
    : result (Lexer Scanner) (list (types.Ident * types.Value)) :=
  match n with
  | O => NoFuel
  | S n' =>
      if negb (Peek l =? chRBrace) then
        andThen (ConsumeIdentWithLoc fuel l) (fun name l1 =>
        andThen (ConsumeToken fuel chColon l1) (fun _ l2 =>
        andThen (rec l2) (fun value l3 =>
        fieldLoop rec fuel n' l3 (fields ++ [(name, value)]))))
      else Done fields l
  end.

(** [ParseLiteral]. *)
Fixpoint ParseLiteral (fuel : nat) (l : Lexer Scanner) (constOnly : bool)
    : result (Lexer Scanner) types.Value :=
  match fuel with
  | O => NoFuel
  | S fuel' =>
      let loc := Location_ l in
      let peek := Peek l in
      if peek =? chDollar then
        if constOnly then SyntaxError "variable not allowed" l
        else
          andThen (ConsumeToken fuel' chDollar l) (fun _ l1 =>
          andThen (ConsumeIdent fuel' l1) (fun name l2 =>
          Done (types.VarValue name loc) l2))
      else if (peek =? scanInt) || (peek =? scanFloat)
              || (peek =? scanString) || (peek =? scanIdent) then
        andThen (ConsumeLiteral fuel' l) (fun lit l1 =>
          if (fst lit =? scanIdent) && String.eqb (snd lit) "null"
          then Done (types.NullValue loc) l1
          else Done (types.PrimitiveValue (fst lit) (snd lit) loc) l1)
      else if peek =? chMinus then
        andThen (ConsumeToken fuel' chMinus l) (fun _ l1 =>
        andThen (ConsumeLiteral fuel' l1) (fun lit l2 =>
        Done (types.PrimitiveValue (fst lit) ("-" +:+ snd lit) loc) l2))
      else if peek =? chLBracket then
        andThen (ConsumeToken fuel' chLBracket l) (fun _ l1 =>
        andThen
          (listLoop (fun l => ParseLiteral fuel' l constOnly) fuel' l1 [])
          (fun values l2 =>
        andThen (ConsumeToken fuel' chRBracket l2) (fun _ l3 =>
        Done (types.ListValue values loc) l3)))
      else if peek =? chLBrace then
        andThen (ConsumeToken fuel' chLBrace l) (fun _ l1 =>
        andThen
          (fieldLoop (fun l => ParseLiteral fuel' l constOnly) fuel' fuel' l1 [])
          (fun fields l2 =>
        andThen (ConsumeToken fuel' chRBrace l2) (fun _ l3 =>
        Done (types.ObjectValue fields loc) l3)))
      else SyntaxError "invalid value" l
  end.

(** The loop of [ParseArgumentList]. *)
Fixpoint argumentLoop (fuel n : nat) (l : Lexer Scanner)
    (args : list types.Argument)
    : result (Lexer Scanner) (list types.Argument) :=
  match n with
  | O => NoFuel
  | S n' =>
      if negb (Peek l =? chRParen) then
        andThen (ConsumeIdentWithLoc fuel l) (fun name l1 =>
        andThen (ConsumeToken fuel chColon l1) (fun _ l2 =>
        andThen (ParseLiteral fuel l2 false) (fun value l3 =>
        argumentLoop fuel n' l3
          (args ++ [ {| types.ArgName := name; types.ArgValue := value |} ]))))
      else Done args l
  end.

Definition ParseArgumentList (fuel : nat) (l : Lexer Scanner)
    : result (Lexer Scanner) (list types.Argument) :=
  andThen (ConsumeToken fuel chLParen l) (fun _ l1 =>
  andThen (argumentLoop fuel fuel l1 []) (fun args l2 =>
  andThen (ConsumeToken fuel chRParen l2) (fun _ l3 =>
  Done args l3))).

(** [ParseDirectives]; the column of a directive's name is moved back onto
    the [@]. *)
Fixpoint directiveLoop (fuel n : nat) (l : Lexer Scanner)
    (directives : list types.Directive)
    : result (Lexer Scanner) (list types.Directive) :=
  match n with
  | O => NoFuel
  | S n' =>
      if Peek l =? chAt then
        andThen (ConsumeToken fuel chAt l) (fun _ l1 =>
        andThen (ConsumeIdentWithLoc fuel l1) (fun name l2 =>
        let name' :=
          {| types.Name := types.Name name;
             types.Loc := {| Line := Line (types.Loc name);
                             Column := wrap64 (Column (types.Loc name) - 1) |} |} in
        andThen
          (if Peek l2 =? chLParen then ParseArgumentList fuel l2
           else Done [] l2)
          (fun arguments l3 =>
        directiveLoop fuel n' l3
          (directives
             ++ [ {| types.DirName := name'; types.DirArguments := arguments |} ]))))
      else Done directives l
  end.

Definition ParseDirectives (fuel : nat) (l : Lexer Scanner)
    : result (Lexer Scanner) (list types.Directive) :=
  directiveLoop fuel fuel l [].

(** [parseNullType], with [ParseType] as [rec]. *)
Definition parseNullType
    (rec : Lexer Scanner -> result (Lexer Scanner) Type_)
    (fuel : nat) (l : Lexer Scanner) : result (Lexer Scanner) Type_ :=
  if Peek l =? chLBracket then
    andThen (ConsumeToken fuel chLBracket l) (fun _ l1 =>
    andThen (rec l1) (fun ofType l2 =>
    andThen (ConsumeToken fuel chRBracket l2) (fun _ l3 =>
    Done (TList ofType) l3)))
  else
    andThen (ConsumeIdentWithLoc fuel l) (fun ident l1 =>
    Done (TypeName (types.Name ident) (types.Loc ident)) l1).

Fixpoint ParseType (fuel : nat) (l : Lexer Scanner)
    : result (Lexer Scanner) Type_ :=
  match fuel with
  | O => NoFuel
  | S fuel' =>
      andThen (parseNullType (ParseType fuel') fuel' l) (fun t l1 =>
        if Peek l1 =? chBang then
          andThen (ConsumeToken fuel' chBang l1) (fun _ l2 =>
          Done (TNonNull t) l2)
        else Done t l1)
  end.

End Lexing.


(** [types.InputValueDefinition]. *)
Record InputValueDefinition := {
  IvName : types.Ident;
  IvType : Type_;
  IvDefault : option types.Value;
  IvDesc : string;
  IvDirectives : list types.Directive;
  IvLoc : Location;
  IvTypeLoc : Location
}.

(** The slice expression [val[:len(val)-n]]. *)
Definition dropEnd (n : nat) (val : string) : string :=
  String.substring 0 (String.length val - n) val.

Section Descriptions.

Context {Scanner : Type} {scanner : TextScanner Scanner}.

(** The loop of [consumeTripleQuoteComment]; [buf] is the buffer. *)
Fixpoint tripleQuoteLoop (fuel : nat) (l : Lexer Scanner) (buf : string)
    (numQuotes : nat) : result (Lexer Scanner) (string * nat) :=
  match fuel with
  | O => NoFuel
  | S fuel' =>
      scNext l (fun r l0 =>
        let l' := withNext l0 r in
        let numQuotes' := if r =? chQuote then S numQuotes else O in
        let buf' := buf +:+ EncodeRune r in
        if Nat.eqb numQuotes' 3 || (r =? scanEOF) then Done (buf', numQuotes') l'
        else tripleQuoteLoop fuel' l' buf' numQuotes')
  end.

Definition consumeTripleQuoteComment (fuel : nat) (l : Lexer Scanner)
    : result (Lexer Scanner) string :=
  scNext l (fun r l0 =>
    let l1 := withNext l0 r in
    if negb (r =? chQuote) then
      Panic "consumeTripleQuoteComment used in wrong context: no third quote?"
    else
      andThen (tripleQuoteLoop fuel l1 EmptyString O) (fun res l2 =>
        Done (blockString (dropEnd (snd res) (fst res))) l2)).

(** [consumeStringComment]; the panic carries the error of [Unquote]. *)
Definition consumeStringComment (l : Lexer Scanner)
    : result (Lexer Scanner) string :=
  match Unquote (TokenText (sc l)) with
  | inl err => Panic err
  | inr val => Done val l
  end.

Definition consumeDescription (fuel : nat) (l : Lexer Scanner)
    : result (Lexer Scanner) string :=
  if negb (next l =? scanString) then Done EmptyString l
  else
    andThen
      (if PeekChar (sc l) =? chQuote then consumeTripleQuoteComment fuel l
       else consumeStringComment l)
      (fun desc l1 =>
         andThen (ConsumeWhitespace fuel l1) (fun _ l2 => Done desc l2)).

Definition DescComment (fuel : nat) (l : Lexer Scanner)
    : result (Lexer Scanner) string :=
  let comment := comment l in
  andThen (consumeDescription fuel l) (fun desc l1 =>
    if useStringDescriptions l1 then Done desc l1 else Done comment l1).

(** [ParseInputValue]. *)
Definition ParseInputValue (fuel : nat) (l : Lexer Scanner)
    : result (Lexer Scanner) InputValueDefinition :=
  let loc := Location_ l in
  andThen (DescComment fuel l) (fun desc l1 =>
  andThen (ConsumeIdentWithLoc fuel l1) (fun name l2 =>
  andThen (ConsumeToken fuel chColon l2) (fun _ l3 =>
  let typeLoc := Location_ l3 in
  andThen (ParseType fuel l3) (fun type l4 =>
  andThen
    (if Peek l4 =? 61 then
       andThen (ConsumeToken fuel 61 l4) (fun _ l5 =>
       andThen (ParseLiteral fuel l5 true) (fun v l6 => Done (Some v) l6))
     else Done None l4)
    (fun default l7 =>
  andThen (ParseDirectives fuel l7) (fun directives l8 =>
  Done {| IvName := name; IvType := type; IvDefault := default;
          IvDesc := desc; IvDirectives := directives;
          IvLoc := loc; IvTypeLoc := typeLoc |} l8)))))).

End Descriptions.

(** ** Token streams: what the scanner is about to return *)

Record Token := { kind : Z; text : string; pos : Location }.

(** Tokens that [ConsumeWhitespace] stops at. *)
Definition significant (k : Z) : Prop := k <> chComma /\ k <> chHash.

Section Streams.

Context {Scanner : Type} {scanner : TextScanner Scanner}.

(** [produces s toks]: the coming calls of [Scan] return the tokens
    [toks], in this order. *)
Inductive produces : Scanner -> list Token -> Prop :=
| produces_nil s : produces s []
| produces_cons s s' tok toks :
    Scan s = inr (kind tok, s') ->
    significant (kind tok) ->
    TokenText s' = text tok ->
    Position s' = pos tok ->
    produces s' toks ->
    produces s (tok :: toks).

(** The lexer stands on the first token of [toks], the others follow. *)
Definition lexerOn (l : Lexer Scanner) (toks : list Token) : Prop :=
  match toks with
  | [] => False
  | tok :: rest =>
      next l = kind tok
      /\ TokenText (sc l) = text tok
      /\ Position (sc l) = pos tok
      /\ produces (sc l) rest
  end.

(** [reads s rs s']: the coming calls of [Next] return the runes [rs] and
    leave the scanner in [s']. *)
Inductive reads : Scanner -> list Z -> Scanner -> Prop :=
| reads_nil s : reads s [] s
| reads_cons s s' s'' r rs :
    NextChar s = inr (r, s') ->
    reads s' rs s'' ->
    reads s (r :: rs) s''.

End Streams.

(** What [WriteRune] appends for a sequence of runes. *)
Fixpoint encodeAll {Scanner} {scanner : TextScanner Scanner} (rs : list Z)
    : string :=
  match rs with
  | [] => EmptyString
  | r :: rest => EncodeRune r +:+ encodeAll rest
  end.

(** The first tokens a value can begin with. *)
Definition startsValue (k : Z) : Prop :=
  k = chDollar \/ k = scanInt \/ k = scanFloat \/ k = scanString
  \/ k = scanIdent \/ k = chMinus \/ k = chLBracket \/ k = chLBrace.

Definition literalClass (k : Z) : Prop :=
  k = scanInt \/ k = scanFloat \/ k = scanString \/ k = scanIdent.

(** [spells constOnly v toks]: the tokens [toks] are a way of writing the
    value [v]; a variable is a way of writing only where [constOnly] is
    off.  After a minus sign any one token is taken. *)
Inductive spells (constOnly : bool) : types.Value -> list Token -> Prop :=
| spells_variable dollar name :
    constOnly = false ->
    kind dollar = chDollar ->
    kind name = scanIdent ->
    spells constOnly (types.VarValue (text name) (pos dollar)) [dollar; name]
| spells_primitive lit :
    literalClass (kind lit) ->
    ~ (kind lit = scanIdent /\ text lit = "null") ->
    spells constOnly (types.PrimitiveValue (kind lit) (text lit) (pos lit)) [lit]
| spells_null lit :
    kind lit = scanIdent ->
    text lit = "null" ->
    spells constOnly (types.NullValue (pos lit)) [lit]
| spells_negative minus lit :
    kind minus = chMinus ->
    spells constOnly
      (types.PrimitiveValue (kind lit) ("-" +:+ text lit) (pos minus))
      [minus; lit]
| spells_list open close values toks :
    kind open = chLBracket ->
    kind close = chRBracket ->
    spellsAll constOnly values toks ->
    spells constOnly (types.ListValue values (pos open))
      (open :: toks ++ [close])
| spells_object open close fields toks :
    kind open = chLBrace ->
    kind close = chRBrace ->
    spellsFields constOnly fields toks ->
    spells constOnly (types.ObjectValue fields (pos open))
      (open :: toks ++ [close])
with spellsAll (constOnly : bool) : list types.Value -> list Token -> Prop :=
| spellsAll_nil : spellsAll constOnly [] []
| spellsAll_cons v vs toks toks' :
    spells constOnly v toks ->
    spellsAll constOnly vs toks' ->
    spellsAll constOnly (v :: vs) (toks ++ toks')
with spellsFields (constOnly : bool)
    : list (types.Ident * types.Value) -> list Token -> Prop :=
| spellsFields_nil : spellsFields constOnly [] []
| spellsFields_cons name colon v fields toks toks' :
    kind name = scanIdent ->
    kind colon = chColon ->
    spells constOnly v toks ->
    spellsFields constOnly fields toks' ->
    spellsFields constOnly
      (({| types.Name := text name; types.Loc := pos name |}, v) :: fields)
      (name :: colon :: toks ++ toks').

(** The tokens of an argument list between its parentheses. *)
Inductive spellsArguments : list types.Argument -> list Token -> Prop :=
| spellsArguments_nil : spellsArguments [] []
| spellsArguments_cons name colon v args toks toks' :
    kind name = scanIdent ->
    kind colon = chColon ->
    spells false v toks ->
    spellsArguments args toks' ->
    spellsArguments
      ({| types.ArgName := {| types.Name := text name; types.Loc := pos name |};
          types.ArgValue := v |} :: args)
      (name :: colon :: toks ++ toks').

(** The tokens of a type: a name, a bracketed type, and either of them
    followed by one exclamation mark. *)
Inductive spellsType : Type_ -> list Token -> Prop :=
| spellsType_nullable t toks :
    spellsNullable t toks -> spellsType t toks
| spellsType_nonNull t toks bang :
    spellsNullable t toks ->
    kind bang = chBang ->
    spellsType (TNonNull t) (toks ++ [bang])
with spellsNullable : Type_ -> list Token -> Prop :=
| spellsNullable_name name :
    kind name = scanIdent ->
    spellsNullable (TypeName (text name) (pos name)) [name]
| spellsNullable_list open close t toks :
    kind open = chLBracket ->
    kind close = chRBracket ->
    spellsType t toks ->
    spellsNullable (TList t) (open :: toks ++ [close]).

(** Values that hold a variable somewhere. *)
Fixpoint hasVariable (v : types.Value) : bool :=
  match v with
  | types.VarValue _ _ => true
  | types.ListValue values _ => existsb hasVariable values
  | types.ObjectValue fields _ =>
      existsb (fun f => hasVariable (snd f)) fields
  | _ => false
  end.

(** Types as [ParseType] builds them: a name at the bottom, and never a
    non-null type directly inside a non-null type. *)
Fixpoint parsedShape (t : Type_) : bool :=
  match t with
  | TypeName _ _ => true
  | TList ofType => parsedShape ofType
  | TNonNull ofType =>
      match ofType with
      | TNonNull _ => false
      | _ => parsedShape ofType
      end
  | Resolved _ => false
  end.

Section ReadingBack.

Context {Scanner : Type} {scanner : TextScanner Scanner}.

(** What is asked of the recursive call inside the loops. *)
Definition readsBack (constOnly : bool) (bound : nat)
    (rec : Lexer Scanner -> result (Lexer Scanner) types.Value) : Prop :=
  forall v toks l more,
    spells constOnly v toks ->
    (length toks < bound)%nat ->
    lexerOn l (toks ++ more) -> more <> [] ->
    exists l', rec l = Done v l' /\ lexerOn l' more.

End ReadingBack.

(** ** A scanner over a prepared token list

    The tokens and the runes it will return are queued in advance; the
    scanner remembers the last token returned. *)

Record QueueScanner := {
  coming : list Token;
  runes : list Z;
  current : Token
}.

Definition queueScan (s : QueueScanner)
    : (string * QueueScanner) + (Z * QueueScanner) :=
  match coming s with
  | [] => inr (scanEOF, s)
  | tok :: rest =>
      inr (kind tok, {| coming := rest; runes := runes s; current := tok |})
  end.

Definition queueNext (s : QueueScanner)
    : (string * QueueScanner) + (Z * QueueScanner) :=
  match runes s with
  | [] => inr (scanEOF, s)
  | r :: rest =>
      inr (r, {| coming := coming s; runes := rest; current := current s |})
  end.

Definition queuePeek (s : QueueScanner) : Z :=
  match runes s with
  | [] => scanEOF
  | r :: _ => r
  end.

Definition oneChar (r : Z) : string :=
  if r <? 0 then "?" else String (ascii_of_N (Z.to_N r)) EmptyString.

#[export] Instance queueScanner : TextScanner QueueScanner := {|
  Scan := queueScan;
  NextChar := queueNext;
  PeekChar := queuePeek;
  TokenText := fun s => text (current s);
  Position := fun s => pos (current s);
  Quote := fun s => s;
  TokenString := fun r => oneChar r;
  EncodeRune := oneChar;
  Unquote := fun s => inr s
|}.

(** A lexer standing on [tok], with [rest] and [rs] still to come. *)
Definition lexerAt (tok : Token) (rest : list Token) (rs : list Z)
    : Lexer QueueScanner :=
  {| sc := {| coming := rest; runes := rs; current := tok |};
     next := kind tok;
     comment := EmptyString;
     useStringDescriptions := false |}.

Definition token (k : Z) (t : string) (column : Z) : Token :=
  {| kind := k; text := t; pos := {| Line := 1; Column := column |} |}.

Definition endOfInput (column : Z) : Token :=
  token scanEOF EmptyString column.

(** The tokens of [[1 {a: $x}]], and the value they spell. *)
Definition sampleValueTokens : list Token :=
  [ token chLBracket "[" 1; token scanInt "1" 2; token chLBrace "{" 4;
    token scanIdent "a" 5; token chColon ":" 6; token chDollar "$" 8;
    token scanIdent "x" 9; token chRBrace "}" 10; token chRBracket "]" 11 ].

Definition at_ (column : Z) : Location := {| Line := 1; Column := column |}.

Definition sampleValue : types.Value :=
  types.ListValue
    [ types.PrimitiveValue scanInt "1" (at_ 2);
      types.ObjectValue
        [ ({| types.Name := "a"; types.Loc := at_ 5 |},
           types.VarValue "x" (at_ 8)) ]
        (at_ 4) ]
    (at_ 1).

(** The tokens of [[1 {a: -2}]]. *)
Definition constantValueTokens : list Token :=
  [ token scanInt "1" 2; token chLBrace "{" 4; token scanIdent "a" 5;
    token chColon ":" 6; token chMinus "-" 8; token scanInt "2" 9;
    token chRBrace "}" 10; token chRBracket "]" 11; endOfInput 12 ].

Definition constantValue : types.Value :=
  types.ListValue
    [ types.PrimitiveValue scanInt "1" (at_ 2);
      types.ObjectValue
        [ ({| types.Name := "a"; types.Loc := at_ 5 |},
           types.PrimitiveValue scanInt "-2" (at_ 8)) ]
        (at_ 4) ]
    (at_ 1).

(** The tokens of [[Int!]!], and the type they spell. *)
Definition sampleTypeTokens : list Token :=
  [ token chLBracket "[" 1; token scanIdent "Int" 2; token chBang "!" 5;
    token chRBracket "]" 6; token chBang "!" 7 ].

Definition sampleType : Type_ :=
  TNonNull (TList (TNonNull (TypeName "Int" (at_ 2)))).

(** The tokens of a run of directives; the location kept for a directive
    is that of its name, one column back. *)
Inductive spellsDirectives : list types.Directive -> list Token -> Prop :=
| spellsDirectives_nil : spellsDirectives [] []
| spellsDirectives_plain sign name directives toks' :
    kind sign = chAt ->
    kind name = scanIdent ->
    spellsDirectives directives toks' ->
    spellsDirectives
      ({| types.DirName :=
            {| types.Name := text name;
               types.Loc := {| Line := Line (pos name);
                               Column := wrap64 (Column (pos name) - 1) |} |};
          types.DirArguments := [] |} :: directives)
      (sign :: name :: toks')
| spellsDirectives_arguments sign name open close args directives toks toks' :
    kind sign = chAt ->
    kind name = scanIdent ->
    kind open = chLParen ->
    kind close = chRParen ->
    spellsArguments args toks ->
    spellsDirectives directives toks' ->
    spellsDirectives
      ({| types.DirName :=
            {| types.Name := text name;
               types.Loc := {| Line := Line (pos name);
                               Column := wrap64 (Column (pos name) - 1) |} |};
          types.DirArguments := args |} :: directives)
      (sign :: name :: open :: toks ++ close :: toks').

(** The tokens of [(first: 10 after: $cursor)] and of
    [@include(if: $flag) @live]. *)
Definition sampleArgumentTokens : list Token :=
  [ token scanIdent "first" 2; token chColon ":" 7; token scanInt "10" 9;
    token scanIdent "after" 12; token chColon ":" 17; token chDollar "$" 19;
    token scanIdent "cursor" 20 ].

Definition sampleArguments : list types.Argument :=
  [ {| types.ArgName := {| types.Name := "first"; types.Loc := at_ 2 |};
       types.ArgValue := types.PrimitiveValue scanInt "10" (at_ 9) |};
    {| types.ArgName := {| types.Name := "after"; types.Loc := at_ 12 |};
       types.ArgValue := types.VarValue "cursor" (at_ 19) |} ].

Definition sampleDirectiveTokens : list Token :=
  [ token chAt "@" 1; token scanIdent "include" 2; token chLParen "(" 9;
    token scanIdent "if" 10; token chColon ":" 12; token chDollar "$" 14;
    token scanIdent "flag" 15; token chRParen ")" 19;
    token chAt "@" 21; token scanIdent "live" 22 ].

Definition sampleDirectives : list types.Directive :=
  [ {| types.DirName := {| types.Name := "include"; types.Loc := at_ 1 |};
       types.DirArguments :=
         [ {| types.ArgName := {| types.Name := "if"; types.Loc := at_ 10 |};
              types.ArgValue := types.VarValue "flag" (at_ 14) |} ] |};
    {| types.DirName := {| types.Name := "live"; types.Loc := at_ 21 |};
       types.DirArguments := [] |} ].

(** ** Commas and comments between tokens *)

(** The runes at which a comment ends. *)
Definition endsComment (r : Z) : bool :=
  (r =? 13) || (r =? 10) || (r =? scanEOF).

Section Skipping.

Context {Scanner : Type} {scanner : TextScanner Scanner}.

(** The scanner behind a comment marker, once the one space that may
    follow the marker has been passed. *)
Definition afterSpace (s s' : Scanner) : Prop :=
  (PeekChar s = 32 /\ exists r, NextChar s = inr (r, s'))
  \/ (PeekChar s <> 32 /\ s' = s).

(** [skips s lines s']: from [s] to [s'] the scanner returns commas and
    comment markers only; [lines] are the runes of the comments, without
    the marker, the space after it and the rune that ends the comment. *)
Inductive skips : Scanner -> list (list Z) -> Scanner -> Prop :=
| skips_nil s : skips s [] s
| skips_comma s s1 lines s' :
    Scan s = inr (chComma, s1) ->
    skips s1 lines s' ->
    skips s lines s'
| skips_comment s s1 s2 s3 body stop lines s' :
    Scan s = inr (chHash, s1) ->
    afterSpace s1 s2 ->
    reads s2 (body ++ [stop]) s3 ->
    forallb (fun r => negb (endsComment r)) body = true ->
    endsComment stop = true ->
    skips s3 lines s' ->
    skips s (body :: lines) s'.

End Skipping.

(** The text kept for a run of comment lines: the lines joined by line
    feeds, the empty lines before the first non-empty one left out. *)
Definition commentText (lines : list string) : string :=
  Join (dropWhile (fun line => Nat.eqb (String.length line) 0) lines).

(** After [#], [,], [# a], [#b] and the name [id]. *)
Definition commentedLexer : Lexer QueueScanner :=
  {| sc := {| coming := [ token chHash "#" 1; token chComma "," 1;
                          token chHash "#" 1; token chHash "#" 1;
                          token scanIdent "id" 1 ];
              runes := [10; 32; 97; 10; 98; 10];
              current := token scanIdent "query" 1 |};
     next := scanIdent;
     comment := "stale";
     useStringDescriptions := false |}.

(** Three double quotes in a row somewhere in the runes. *)
Fixpoint hasTripleQuote (rs : list Z) : bool :=
  match rs with
  | [] => false
  | a :: rest =>
      match rest with
      | b :: c :: _ => (a =? chQuote) && (b =? chQuote) && (c =? chQuote)
      | _ => false
      end
      || hasTripleQuote rest
  end.

(** A lexer on the empty string token that opens a block string, with the
    runes [rs] still unread. *)
Definition blockLexer (rs : list Z) : Lexer QueueScanner :=
  {| sc := {| coming := [token scanIdent "type" 3]; runes := rs;
              current := token scanString EmptyString 1 |};
     next := scanString;
     comment := EmptyString;
     useStringDescriptions := true |}.

(** The tokens of [first: Int = 10], on the first of them. *)
Definition inputValueLexer : Lexer QueueScanner :=
  lexerAt (token scanIdent "first" 1)
    [ token chColon ":" 6; token scanIdent "Int" 8; token 61 "=" 12;
      token scanInt "10" 14; endOfInput 16 ] [].

(** The location of the first variable written in a value. *)
Fixpoint variableLoc (v : types.Value) : option Location :=
  match v with
  | types.VarValue _ loc => Some loc
  | types.ListValue values _ =>
      fold_right
        (fun v rest =>
           match variableLoc v with Some loc => Some loc | None => rest end)
        None values
  | types.ObjectValue fields _ =>
      fold_right
        (fun f rest =>
           match variableLoc (snd f) with Some loc => Some loc | None => rest end)
        None fields
  | _ => None
  end.

Scheme spells_mutual := Minimality for spells Sort Prop
  with spellsAll_mutual := Minimality for spellsAll Sort Prop
  with spellsFields_mutual := Minimality for spellsFields Sort Prop.

(** A lexer of the old mode on a description string, with a comment kept
    from before and the name [type] after the string. *)
Definition describedLexer : Lexer QueueScanner :=
  {| sc := {| coming := [token chComma "," 8; token scanIdent "type" 10];
              runes := [];
              current := token scanString "hello" 1 |};
     next := scanString;
     comment := "kept";
     useStringDescriptions := false |}.

(** ** Sample documents with a mutation, with fragments, and with counts
    beyond the int range *)

Definition mutationOf (sels : list Selection) : ExecutableDefinition :=
  {| Operations := [ {| OpType := Mutation; OpSelections := sels |} ];
     Fragments := [] |}.

Definition overriddenPayloadSelections : list Selection :=
  [Field "createX" []
     (Some [Field "group" []
              (Some [Field "a" [] (Some [Field "b" [] None])])])].

Definition overriddenPayloadText : string :=
  "mutation{ createX{ group{ a{ b } } } }".

Definition overriddenPayloadDoc : ExecutableDefinition :=
  mutationOf overriddenPayloadSelections.

Definition overriddenQueryText : string :=
  "query{ createX{ group{ a{ b } } } }".

Definition overriddenQueryDoc : ExecutableDefinition :=
  queryOf overriddenPayloadSelections.

Definition payloadOverrides : gmap string Z :=
  <[ "createX" := 5 ]> {[ "group" := 7 ]}.

Definition payloadVariableText : string :=
  "mutation M($n: Int){ createX{ group{ items(first: $n){ id } } } }".

Definition payloadVariableDoc : ExecutableDefinition :=
  mutationOf
    [Field "createX" []
       (Some [Field "group" []
                (Some [Field "items" (firstVariable "n")
                         (Some [Field "id" [] None])])])].

Definition groupWithId : Selection :=
  Field "group" [] (Some [Field "id" [] None]).

Definition groupWithIdText : string := "{ group{ id } }".

Definition groupWithIdDoc : ExecutableDefinition := queryOf [groupWithId].

Definition groupAloneText : string := "{ group }".

Definition groupAloneDoc : ExecutableDefinition :=
  queryOf [Field "group" [] None].

Definition payloadGroupText : string := "mutation{ createX{ group{ id } } }".

Definition payloadGroupDoc : ExecutableDefinition :=
  mutationOf [Field "createX" [] (Some [groupWithId])].

Definition payloadFragment : FragmentDefinition :=
  {| FragName := "payload";
     FragSelections := [Field "createX" [] (Some [groupWithId])] |}.

Definition spreadUnderMutationText : string :=
  "mutation{ ...payload } fragment payload on Mutation{ createX{ group{ id } } }".

Definition spreadUnderMutationDoc : ExecutableDefinition :=
  {| Operations :=
       [ {| OpType := Mutation; OpSelections := [FragmentSpread "payload"] |} ];
     Fragments := [payloadFragment] |}.

Definition spreadUnderQueryText : string :=
  "query{ ...payload } fragment payload on Mutation{ createX{ group{ id } } }".

Definition spreadUnderQueryDoc : ExecutableDefinition :=
  {| Operations :=
       [ {| OpType := Query; OpSelections := [FragmentSpread "payload"] |} ];
     Fragments := [payloadFragment] |}.

Definition twiceDefinedText : string :=
  "query Q{ ...connection ...missing } mutation M{ createX{ ...connection ...missing } } fragment connection on Groups{ id } fragment connection on Groups{ edges{ node{ id } } }".

Definition twiceDefinedDoc : ExecutableDefinition :=
  {| Operations :=
       [ {| OpType := Query;
            OpSelections :=
              [FragmentSpread "connection"; FragmentSpread "missing"] |};
         {| OpType := Mutation;
            OpSelections :=
              [Field "createX" []
                 (Some [FragmentSpread "connection";
                        FragmentSpread "missing"])] |} ];
     Fragments :=
       [ {| FragName := "connection";
            FragSelections := [Field "id" [] None] |};
         {| FragName := "connection"; FragSelections := [nodeId] |} ] |}.

Definition twiceDefinedState : queryState :=
  {| variables := ∅; fieldOverrides := ∅;
     fragUsed := buildFragUsed (Fragments twiceDefinedDoc) |}.

Definition hugeLiteral : string := "99999999999999999999".

Definition hugeLiteralText : string :=
  "{ groups(first: 99999999999999999999){ edges{ node{ id } } } }".

Definition hugeLiteralDoc : ExecutableDefinition :=
  queryOf [Field "groups" (firstLiteral hugeLiteral) (Some [nodeId])].

(** * Properties *)

(** ** Arithmetic of [wrap64] *)

Lemma wrap64_mod z : wrap64 z mod 2 ^ 64 = z mod 2 ^ 64.
Proof.
  unfold wrap64.
  rewrite Zminus_mod, Zmod_mod, <- Zminus_mod.
  f_equal. lia.
Qed.

Lemma wrap64_congr a b : a mod 2 ^ 64 = b mod 2 ^ 64 -> wrap64 a = wrap64 b.
Proof.
  intros H. unfold wrap64.
  rewrite (Zplus_mod a), (Zplus_mod b), H. reflexivity.
Qed.

Lemma wrap64_range z : inInt (wrap64 z).
Proof.
  unfold inInt, wrap64, minInt, maxInt.
  pose proof (Z.mod_pos_bound (z + 2 ^ 63) (2 ^ 64) ltac:(lia)). lia.
Qed.

Lemma wrap64_small z : inInt z -> wrap64 z = z.
Proof.
  unfold inInt, wrap64, minInt, maxInt. intros H.
  rewrite Z.mod_small; lia.
Qed.

Lemma wrap64_idem z : wrap64 (wrap64 z) = wrap64 z.
Proof. apply wrap64_small, wrap64_range. Qed.

Lemma wrap64_add_l a b : wrap64 (wrap64 a + b) = wrap64 (a + b).
Proof.
  apply wrap64_congr.
  rewrite Zplus_mod, wrap64_mod, <- Zplus_mod. reflexivity.
Qed.

Lemma wrap64_add_r a b : wrap64 (a + wrap64 b) = wrap64 (a + b).
Proof. rewrite Z.add_comm, wrap64_add_l. f_equal. lia. Qed.

Lemma wrap64_mul_r a b : wrap64 (a * wrap64 b) = wrap64 (a * b).
Proof.
  apply wrap64_congr.
  rewrite Zmult_mod, wrap64_mod, <- Zmult_mod. reflexivity.
Qed.


Lemma wrap64_succ_ne r : inInt r -> wrap64 (r + 1) <> r.
Proof.
  intros Hr Heq.
  assert (H : (r + 1) mod 2 ^ 64 = r mod 2 ^ 64).
  { rewrite <- (wrap64_mod (r + 1)), Heq. reflexivity. }
  assert (H1 : ((r + 1) - r) mod 2 ^ 64 = 0).
  { rewrite Zminus_mod, H, Z.sub_diag. reflexivity. }
  replace (r + 1 - r) with 1 in H1 by lia.
  discriminate H1.
Qed.

(** ** The monad and the loop *)

Lemma bind_assoc {A B C} (m : outcome A) (f : A -> outcome B) (g : B -> outcome C) :
  bind (bind m f) g = bind m (fun a => bind (f a) g).
Proof. destruct m; reflexivity. Qed.

Lemma bind_ext {A B} (m : outcome A) (f g : A -> outcome B) :
  (forall a, f a = g a) -> bind m f = bind m g.
Proof. intros H. destruct m; simpl; auto. Qed.

Lemma bind_Ret_inv {A B} (m : outcome A) (k : A -> outcome B) b :
  bind m k = Ret b -> exists a, m = Ret a /\ k a = Ret b.
Proof. destruct m; simpl; intros H; try discriminate. eauto. Qed.

Lemma forRange_app {A} (body : Z -> A -> outcome Z) xs ys acc :
  forRange body (xs ++ ys) acc =
  bind (forRange body xs acc) (forRange body ys).
Proof.
  revert acc. induction xs as [|x xs IH]; intros acc; simpl; [reflexivity|].
  rewrite bind_assoc. apply bind_ext. intros a. apply IH.
Qed.



Lemma inInt_0 : inInt 0.
Proof. unfold inInt, minInt, maxInt. lia. Qed.

Lemma additive_range {A} (f : Z -> A -> outcome Z) acc x a :
  additive f -> inInt acc -> f acc x = Ret a -> inInt a.
Proof.
  intros Hf Hacc H. rewrite (Hf acc x Hacc) in H.
  apply bind_Ret_inv in H as (d & _ & H). injection H as <-.
  apply wrap64_range.
Qed.

Lemma forRange_range {A} (f : Z -> A -> outcome Z) xs acc s :
  additive f -> inInt acc -> forRange f xs acc = Ret s -> inInt s.
Proof.
  intros Hf. revert acc. induction xs as [|x xs IH]; intros acc Hacc H; simpl in H.
  - injection H as <-. exact Hacc.
  - apply bind_Ret_inv in H as (a & Ha & H).
    apply (IH a); [|exact H]. eapply additive_range; eauto.
Qed.

Lemma forRange_additive {A} (f : Z -> A -> outcome Z) xs acc :
  additive f -> inInt acc ->
  forRange f xs acc = bind (forRange f xs 0) (fun s => Ret (wrap64 (acc + s))).
Proof.
  intros Hf. revert acc. induction xs as [|x xs IH]; intros acc Hacc; simpl.
  - rewrite Z.add_0_r, wrap64_small; auto.
  - rewrite (Hf acc x Hacc), !bind_assoc.
    destruct (f 0 x) as [d| |] eqn:Hd; simpl; try reflexivity.
    assert (Hdr : inInt d) by exact (additive_range f 0 x d Hf inInt_0 Hd).
    rewrite (IH (wrap64 (acc + d)) (wrap64_range _)), (IH d Hdr), bind_assoc.
    apply bind_ext. intros s. simpl.
    rewrite wrap64_add_l, wrap64_add_r. do 2 f_equal. lia.
Qed.

(** Putting one more element anywhere into the slice adds that element's
    own contribution. *)
Lemma forRange_insert {A} (f : Z -> A -> outcome Z) pre x post r d :
  additive f ->
  f 0 x = Ret d ->
  forRange f (pre ++ post) 0 = Ret r ->
  forRange f (pre ++ x :: post) 0 = Ret (wrap64 (r + d)).
Proof.
  intros Hf Hd Hr.
  rewrite forRange_app in Hr. rewrite forRange_app.
  apply bind_Ret_inv in Hr as (a & Ha & Hr). rewrite Ha. simpl.
  assert (Har : inInt a) by (eapply forRange_range; eauto using inInt_0).
  rewrite (Hf a x Har), Hd. simpl.
  rewrite (forRange_additive f post a Hf Har) in Hr.
  rewrite (forRange_additive f post _ Hf (wrap64_range _)).
  destruct (forRange f post 0) as [s| |]; simpl in *; try discriminate.
  injection Hr as <-.
  rewrite wrap64_add_l, wrap64_add_l. do 2 f_equal. lia.
Qed.

(** An element that leaves the accumulator alone can be taken out. *)
Lemma forRange_skip {A} (f : Z -> A -> outcome Z) pre x post acc :
  (forall a, f a x = Ret a) ->
  forRange f (pre ++ x :: post) acc = forRange f (pre ++ post) acc.
Proof.
  intros Hx. rewrite !forRange_app. apply bind_ext. intros a.
  simpl. rewrite Hx. reflexivity.
Qed.

Ltac int_eq :=
  simpl; rewrite ?Z.add_0_l, ?Z.add_0_r, ?wrap64_idem;
  repeat rewrite wrap64_add_r; repeat rewrite wrap64_add_l;
  try reflexivity.

Lemma scoreSelection_additive rec state :
  additive (scoreSelection wrap64 rec state).
Proof.
  intros acc sel Hacc. unfold scoreSelection.
  destruct sel as [name args ss | name | sels].
  - destruct (isOverride name (fieldOverrides state)); [int_eq|].
    destruct (String.eqb name "pageInfo").
    { simpl. rewrite Z.add_0_r, wrap64_small; auto. }
    destruct (String.eqb name "edges").
    { rewrite bind_assoc. apply bind_ext. intros c. int_eq. }
    destruct (isConnection args).
    { rewrite bind_assoc. apply bind_ext. intros c.
      rewrite bind_assoc. apply bind_ext. intros n. int_eq. }
    destruct ss as [sels|].
    + rewrite bind_assoc. apply bind_ext. intros c. int_eq.
    + simpl. rewrite Z.add_0_r, wrap64_small; auto.
  - destruct (fragUsed state !! name) as [fragVal|].
    + rewrite bind_assoc. apply bind_ext. intros c. int_eq.
    + simpl. rewrite Z.add_0_r, wrap64_small; auto.
  - rewrite bind_assoc. apply bind_ext. intros c. int_eq.
Qed.

Lemma calculateSelectionComplexity_range fuel sels state c :
  calculateSelectionComplexity wrap64 fuel sels state = Ret c -> inInt c.
Proof.
  destruct fuel as [|fuel]; simpl; [discriminate|].
  apply forRange_range; auto using scoreSelection_additive, inInt_0.
Qed.

(** ** More fuel never changes an answer *)


Lemma below_refl {A} (m : outcome A) : below m m.
Proof. right. reflexivity. Qed.

Lemma below_bind {A B} (m m' : outcome A) (k k' : A -> outcome B) :
  below m m' -> (forall a, below (k a) (k' a)) -> below (bind m k) (bind m' k').
Proof.
  intros [-> | ->] Hk; [left; reflexivity|].
  destruct m'; simpl; [apply Hk | right; reflexivity | right; reflexivity].
Qed.

Lemma forRange_below {A} (f g : Z -> A -> outcome Z) xs acc :
  (forall a x, below (f a x) (g a x)) ->
  below (forRange f xs acc) (forRange g xs acc).
Proof.
  intros H. revert acc. induction xs as [|x xs IH]; intros acc; simpl.
  - apply below_refl.
  - apply below_bind; auto.
Qed.

Lemma scoreSelection_below norm rec rec' state acc sel :
  (forall s, below (rec s) (rec' s)) ->
  below (scoreSelection norm rec state acc sel)
        (scoreSelection norm rec' state acc sel).
Proof.
  intros H. unfold scoreSelection.
  destruct sel as [name args ss | name | sels].
  - destruct (isOverride name (fieldOverrides state)); [apply below_refl|].
    destruct (String.eqb name "pageInfo"); [apply below_refl|].
    destruct (String.eqb name "edges").
    { apply below_bind; auto. intros; apply below_refl. }
    destruct (isConnection args).
    { apply below_bind; auto. intros; apply below_refl. }
    destruct ss; [|apply below_refl].
    apply below_bind; auto. intros; apply below_refl.
  - destruct (fragUsed state !! name); [|apply below_refl].
    apply below_bind; auto. intros; apply below_refl.
  - apply below_bind; auto. intros; apply below_refl.
Qed.

Lemma calculateSelectionComplexity_S norm fuel sels state :
  below (calculateSelectionComplexity norm fuel sels state)
        (calculateSelectionComplexity norm (S fuel) sels state).
Proof.
  revert sels. induction fuel as [|fuel IH]; intros sels.
  - left. reflexivity.
  - cbn [calculateSelectionComplexity].
    apply forRange_below. intros a x.
    apply scoreSelection_below. intros s. apply IH.
Qed.

Lemma calculateSelectionComplexity_mono norm fuel fuel' sels state :
  (fuel <= fuel')%nat ->
  below (calculateSelectionComplexity norm fuel sels state)
        (calculateSelectionComplexity norm fuel' sels state).
Proof.
  induction 1 as [|fuel' _ IH]; [apply below_refl|].
  destruct IH as [IH | IH]; [left; exact IH|].
  rewrite IH. apply calculateSelectionComplexity_S.
Qed.

Lemma returns_more_fuel norm fuel fuel' sels state c :
  (fuel <= fuel')%nat ->
  calculateSelectionComplexity norm fuel sels state = Ret c ->
  calculateSelectionComplexity norm fuel' sels state = Ret c.
Proof.
  intros Hle H.
  destruct (calculateSelectionComplexity_mono norm fuel fuel' sels state Hle)
    as [H' | H']; congruence.
Qed.

Lemma fails_more_fuel norm fuel fuel' sels state e :
  (fuel <= fuel')%nat ->
  calculateSelectionComplexity norm fuel sels state = Err e ->
  calculateSelectionComplexity norm fuel' sels state = Err e.
Proof.
  intros Hle H.
  destruct (calculateSelectionComplexity_mono norm fuel fuel' sels state Hle)
    as [H' | H']; congruence.
Qed.

(** ** What one selection adds *)

Lemma returns_functional sels state a b :
  returns sels state a -> returns sels state b -> a = b.
Proof.
  intros [f1 H1] [f2 H2].
  apply (returns_more_fuel wrap64 f1 (Nat.max f1 f2)) in H1; [|lia].
  apply (returns_more_fuel wrap64 f2 (Nat.max f1 f2)) in H2; [|lia].
  congruence.
Qed.


Lemma returns_insert state pre sel post r d fuel :
  scoreSelection wrap64
    (fun s => calculateSelectionComplexity wrap64 fuel s state) state 0 sel
  = Ret d ->
  returns (pre ++ post) state r ->
  returns (pre ++ sel :: post) state (wrap64 (r + d)).
Proof.
  intros Hd [fuel2 Hr].
  set (F := Nat.max fuel fuel2).
  exists (S F). cbn [calculateSelectionComplexity].
  apply forRange_insert.
  - apply scoreSelection_additive.
  - destruct (scoreSelection_below wrap64
                (fun s => calculateSelectionComplexity wrap64 fuel s state)
                (fun s => calculateSelectionComplexity wrap64 F s state)
                state 0 sel) as [H | H].
    + intros s. apply calculateSelectionComplexity_mono. lia.
    + congruence.
    + congruence.
  - apply (returns_more_fuel wrap64 fuel2 (S F)) in Hr; [|lia]. exact Hr.
Qed.

Lemma calculateSelectionComplexity_skip fuel state pre sel post :
  (forall rec a, scoreSelection wrap64 rec state a sel = Ret a) ->
  calculateSelectionComplexity wrap64 fuel (pre ++ sel :: post) state
  = calculateSelectionComplexity wrap64 fuel (pre ++ post) state.
Proof.
  intros H. destruct fuel as [|fuel]; [reflexivity|].
  cbn [calculateSelectionComplexity]. apply forRange_skip. intros a. apply H.
Qed.

Lemma isOverride_None name (overrides : gmap string Z) :
  overrides !! name = None -> isOverride name overrides = false.
Proof. unfold isOverride. intros ->. reflexivity. Qed.

Lemma isOverride_Some name (overrides : gmap string Z) v :
  overrides !! name = Some v -> isOverride name overrides = true.
Proof. unfold isOverride. intros ->. reflexivity. Qed.

Lemma eqb_ne (a b : string) : a <> b -> String.eqb a b = false.
Proof. intros H. apply String.eqb_neq. exact H. Qed.

(** The branch taken for a field that is neither overridden nor one of the
    two reserved names. *)
Lemma scoreSelection_plain rec state acc name args ss :
  fieldOverrides state !! name = None ->
  name <> "pageInfo" -> name <> "edges" ->
  scoreSelection wrap64 rec state acc (Field name args ss) =
  if isConnection args then
    bind (rec (elems ss)) (fun c =>
    bind (getConnectionNodeCount args (variables state)) (fun itemCount =>
    Ret (wrap64 (acc + wrap64 (wrap64 (itemCount * c) + connectionComplexity)))))
  else
    match ss with
    | Some sels =>
        bind (rec sels) (fun c =>
          Ret (wrap64 (acc + wrap64 (c + objectComplexity))))
    | None => Ret acc
    end.
Proof.
  intros Ho Hp He. unfold scoreSelection.
  rewrite (isOverride_None _ _ Ho), (eqb_ne _ _ Hp), (eqb_ne _ _ He).
  reflexivity.
Qed.

(** C1: a field with no override, not named pageInfo or edges, that has a
    first or last argument, adds n * c + 2 to the score of the selections
    around it, where n is the resolved item count and c the score of its
    own selection set; with n = 0 it adds exactly 2 whatever c is.  The sum
    is taken in the int type. *)
Theorem C1_connection_contribution :
  forall state name args ss pre post c n r,
    fieldOverrides state !! name = None ->
    name <> "pageInfo" -> name <> "edges" ->
    isConnection args = true ->
    returns (elems ss) state c ->
    getConnectionNodeCount args (variables state) = Ret n ->
    returns (pre ++ post) state r ->
    returns (pre ++ Field name args ss :: post) state (wrap64 (r + (n * c + 2)))
    /\ (n = 0 ->
        returns (pre ++ Field name args ss :: post) state (wrap64 (r + 2))).
Proof.
  intros state name args ss pre post c n r Ho Hp He Hconn [fuel Hc] Hn Hr.
  assert (H : returns (pre ++ Field name args ss :: post) state
                (wrap64 (r + (n * c + 2)))).
  { replace (wrap64 (r + (n * c + 2)))
      with (wrap64 (r + wrap64 (0 + wrap64 (wrap64 (n * c) + connectionComplexity)))).
    - apply (returns_insert _ _ _ _ _ _ fuel); [|exact Hr].
      rewrite scoreSelection_plain by assumption.
      rewrite Hconn, Hc, Hn. reflexivity.
    - unfold connectionComplexity. int_eq.
      replace (r + (wrap64 (n * c) + 2)) with (wrap64 (n * c) + (r + 2)) by lia.
      rewrite wrap64_add_l. f_equal. lia. }
  split; [exact H|].
  intros ->. rewrite Z.mul_0_l in H. exact H.
Qed.

(** C3 (as amended): in a list that the selection scorer scores, a field
    whose name has an override adds exactly the override value and its
    selection set and arguments are not looked at: the result is the same
    whatever they are, and needs no deeper call.  Hence a connection field
    whose pagination variable is undefined fails without the override and
    succeeds with it. *)
Theorem C3_override_replaces_subtree :
  forall state name args ss v,
    fieldOverrides state !! name = Some v ->
    (forall pre post r,
        returns (pre ++ post) state r ->
        returns (pre ++ Field name args ss :: post) state (wrap64 (r + v)))
    /\ (forall fuel,
        calculateSelectionComplexity wrap64 (S fuel) [Field name args ss] state
        = Ret (wrap64 v))
    /\ (forall e c,
        let bare := {| variables := variables state;
                       fieldOverrides := delete name (fieldOverrides state);
                       fragUsed := fragUsed state |} in
        name <> "pageInfo" -> name <> "edges" ->
        isConnection args = true ->
        getConnectionNodeCount args (variables state) = Err e ->
        returns (elems ss) bare c ->
        fails [Field name args ss] bare e).
Proof.
  intros state name args ss v Ho.
  assert (Hstep : forall rec acc,
             scoreSelection wrap64 rec state acc (Field name args ss)
             = Ret (wrap64 (acc + v))).
  { intros rec acc. unfold scoreSelection.
    rewrite (isOverride_Some _ _ _ Ho), Ho. reflexivity. }
  split; [|split].
  - intros pre post r Hr.
    replace (wrap64 (r + v)) with (wrap64 (r + wrap64 (0 + v))) by int_eq.
    apply (returns_insert _ _ _ _ _ _ 0%nat); [|exact Hr]. apply Hstep.
  - intros fuel. cbn [calculateSelectionComplexity forRange].
    rewrite Hstep. reflexivity.
  - intros e c bare Hp He Hconn Hn [fuel Hc].
    exists (S fuel). cbn [calculateSelectionComplexity forRange].
    rewrite scoreSelection_plain; try assumption.
    + rewrite Hconn, Hc. subst bare. simpl. rewrite Hn. reflexivity.
    + subst bare. simpl. apply lookup_delete_eq.
Qed.

(** C10 (as amended): in a list that the selection scorer scores, a field
    with no override, not named pageInfo or edges, with no first or last
    argument, adds 1 plus the score of its selection set when the set is
    present, hence exactly 1 when the set is present and empty, and nothing
    when its selection set is absent; the last two results differ. *)
Theorem C10_empty_versus_absent_selection_set :
  forall state name args pre post r,
    fieldOverrides state !! name = None ->
    name <> "pageInfo" -> name <> "edges" ->
    isConnection args = false ->
    returns (pre ++ post) state r ->
    (forall sels c,
        returns sels state c ->
        returns (pre ++ Field name args (Some sels) :: post) state
          (wrap64 (r + (c + 1))))
    /\ returns (pre ++ Field name args (Some []) :: post) state (wrap64 (r + 1))
    /\ returns (pre ++ Field name args None :: post) state r
    /\ wrap64 (r + 1) <> r.
Proof.
  intros state name args pre post r Ho Hp He Hconn Hr.
  assert (Hpresent : forall sels c,
             returns sels state c ->
             returns (pre ++ Field name args (Some sels) :: post) state
               (wrap64 (r + (c + 1)))).
  { intros sels c [fuel Hc].
    replace (wrap64 (r + (c + 1)))
      with (wrap64 (r + wrap64 (0 + wrap64 (c + objectComplexity))))
      by (unfold objectComplexity; int_eq).
    apply (returns_insert _ _ _ _ _ _ fuel); [|exact Hr].
    rewrite scoreSelection_plain by assumption.
    rewrite Hconn, Hc. reflexivity. }
  split; [exact Hpresent | split; [|split]].
  - apply (Hpresent [] 0). exists 1%nat. reflexivity.
  - destruct Hr as [fuel Hr]. exists fuel.
    rewrite calculateSelectionComplexity_skip; [exact Hr|].
    intros rec a. rewrite scoreSelection_plain by assumption.
    rewrite Hconn. reflexivity.
  - apply wrap64_succ_ne. destruct Hr as [fuel Hr].
    eapply calculateSelectionComplexity_range. exact Hr.
Qed.

(** ** Positions at any depth *)

Lemma forRange_replace {A} (f : Z -> A -> outcome Z) pre x y post acc :
  (forall a, f a x = f a y) ->
  forRange f (pre ++ x :: post) acc = forRange f (pre ++ y :: post) acc.
Proof.
  intros H. rewrite !forRange_app. apply bind_ext. intros a.
  simpl. rewrite H. reflexivity.
Qed.

(** Two selection lists that score alike at every depth can be exchanged
    under any context. *)
Lemma plug_congruence norm state xs ys :
  (forall pre post fuel,
      calculateSelectionComplexity norm fuel (pre ++ xs ++ post) state
      = calculateSelectionComplexity norm fuel (pre ++ ys ++ post) state) ->
  forall C fuel,
    calculateSelectionComplexity norm fuel (plug C xs) state
    = calculateSelectionComplexity norm fuel (plug C ys) state.
Proof.
  intros Hhere C.
  induction C as [pre post | pre name args inner IH post | pre inner IH post];
    intros fuel; simpl.
  - apply Hhere.
  - destruct fuel as [|fuel]; [reflexivity|].
    cbn [calculateSelectionComplexity].
    apply forRange_replace. intros a.
    unfold scoreSelection. simpl elems. rewrite (IH fuel). reflexivity.
  - destruct fuel as [|fuel]; [reflexivity|].
    cbn [calculateSelectionComplexity].
    apply forRange_replace. intros a.
    unfold scoreSelection. rewrite (IH fuel). reflexivity.
Qed.

(** C8: with no override for it, a field named pageInfo adds nothing at
    whatever depth it stands, and its children are not visited: removing
    the field, with any arguments and any selection set, from any position
    of the tree leaves the outcome of the scorer unchanged. *)
Theorem C8_pageInfo_contributes_nothing :
  forall state C args ss fuel,
    fieldOverrides state !! "pageInfo" = None ->
    calculateSelectionComplexity wrap64 fuel
      (plug C [Field "pageInfo" args ss]) state
    = calculateSelectionComplexity wrap64 fuel (plug C []) state.
Proof.
  intros state C args ss fuel Ho. revert C fuel.
  assert (Hstep : forall rec a,
             scoreSelection wrap64 rec state a (Field "pageInfo" args ss)
             = Ret a).
  { intros rec a. unfold scoreSelection.
    rewrite (isOverride_None _ _ Ho). reflexivity. }
  apply plug_congruence.
  intros pre post fuel. simpl.
  apply calculateSelectionComplexity_skip. exact Hstep.
Qed.

(** ** The fragment registry *)

Lemma last_cons_default {A} (g d : A) gs :
  List.last (g :: gs) d = List.last gs g.
Proof.
  revert g d. induction gs as [|h gs IH]; intros g d; [reflexivity|].
  change (List.last (g :: h :: gs) d) with (List.last (h :: gs) d).
  rewrite IH. symmetry. apply IH.
Qed.

Lemma fold_insert_lookup (frags : list FragmentDefinition)
    (m : gmap string (list Selection)) name :
  fold_left (fun m f => <[FragName f := FragSelections f]> m) frags m !! name
  = match lastFragment name frags with
    | Some sels => Some sels
    | None => m !! name
    end.
Proof.
  revert m. induction frags as [|f frags IH]; intros m; [reflexivity|].
  simpl. rewrite IH. unfold lastFragment.
  rewrite filter_cons.
  destruct (decide (FragName f = name)) as [Heq | Hne].
  - destruct (filter (fun f0 => FragName f0 = name) frags) as [|g gs] eqn:Hf.
    + simpl. rewrite <- Heq. apply lookup_insert_eq.
    + rewrite last_cons_default. reflexivity.
  - destruct (filter (fun f0 => FragName f0 = name) frags) as [|g gs] eqn:Hf.
    + apply lookup_insert_ne. exact Hne.
    + reflexivity.
Qed.

Lemma buildFragUsed_lastFragment frags name :
  buildFragUsed frags !! name = lastFragment name frags.
Proof.
  unfold buildFragUsed. rewrite fold_insert_lookup.
  destruct (lastFragment name frags); [reflexivity|]. apply lookup_empty.
Qed.

Lemma spread_registered state name sels pre post c r :
  fragUsed state !! name = Some sels ->
  returns sels state c ->
  returns (pre ++ post) state r ->
  returns (pre ++ FragmentSpread name :: post) state (wrap64 (r + c)).
Proof.
  intros Hf [fuel Hc] Hr.
  replace (wrap64 (r + c)) with (wrap64 (r + wrap64 (0 + c))) by int_eq.
  apply (returns_insert _ _ _ _ _ _ fuel); [|exact Hr].
  unfold scoreSelection. rewrite Hf, Hc. reflexivity.
Qed.

Lemma spread_unregistered state name pre post fuel :
  fragUsed state !! name = None ->
  calculateSelectionComplexity wrap64 fuel
    (pre ++ FragmentSpread name :: post) state
  = calculateSelectionComplexity wrap64 fuel (pre ++ post) state.
Proof.
  intros Hf. apply calculateSelectionComplexity_skip. intros rec a.
  unfold scoreSelection. rewrite Hf. reflexivity.
Qed.

(** ** Mutations *)

Lemma forRange_sum {A} (f : Z -> A -> outcome Z) (g : A -> outcome Z) xs acc :
  (forall a x, inInt a -> f a x = bind (g x) (fun d => Ret (wrap64 (a + d)))) ->
  inInt acc ->
  forRange f xs acc
  = bind (sumOutcomes (map g xs)) (fun s => Ret (wrap64 (acc + s))).
Proof.
  intros Hf. revert acc. induction xs as [|x xs IH]; intros acc Hacc; simpl.
  - rewrite Z.add_0_r, wrap64_small; auto.
  - rewrite (Hf acc x Hacc), !bind_assoc.
    destruct (g x) as [d| |]; simpl; try reflexivity.
    rewrite (IH _ (wrap64_range _)), bind_assoc.
    apply bind_ext. intros s. simpl.
    rewrite wrap64_add_l. do 2 f_equal. lia.
Qed.

Lemma scorePayloadChild_childScore fuel state a x :
  inInt a ->
  scorePayloadChild wrap64 fuel state a x
  = bind (childScore fuel state x) (fun d => Ret (wrap64 (a + d))).
Proof.
  intros Ha. unfold scorePayloadChild, childScore.
  destruct x as [name args ss | name | sels].
  - reflexivity.
  - destruct (fragUsed state !! name); [reflexivity|].
    simpl. rewrite Z.add_0_r, wrap64_small; auto.
  - simpl. rewrite Z.add_0_r, wrap64_small; auto.
Qed.

Lemma scorePayload_payloadScore fuel state a sel :
  inInt a ->
  scorePayload wrap64 fuel state a sel
  = bind (payloadScore fuel state sel) (fun d => Ret (wrap64 (a + d))).
Proof.
  intros Ha. unfold scorePayload, payloadScore.
  destruct sel as [name args ss | name | sels].
  - apply forRange_sum; [|exact Ha].
    intros; apply scorePayloadChild_childScore; assumption.
  - simpl. rewrite Z.add_0_r, wrap64_small; auto.
  - simpl. rewrite Z.add_0_r, wrap64_small; auto.
Qed.

(** C2: the score of a mutation is 10 plus, over the top-level fields and
    over each one's immediate children, the score of a child field's
    selection set or of a registered fragment's selections; top-level
    selections that are no fields, inline-fragment children and unknown
    spreads add nothing, and no +1 is charged for the payload field or its
    children.  The first failure, in document order, is the outcome. *)
Theorem C2_mutation_score :
  forall fuel state sels,
    calculateMutationComplexity wrap64 fuel sels state
    = scoreMutation fuel state sels.
Proof.
  intros fuel state sels.
  unfold calculateMutationComplexity, scoreMutation, mutationComplexity.
  apply forRange_sum.
  - intros; apply scorePayload_payloadScore; assumption.
  - unfold inInt, minInt, maxInt. lia.
Qed.

(** ** Spreads among the children of a payload field *)

Lemma scorePayloadChild_additive fuel state :
  additive (scorePayloadChild wrap64 fuel state).
Proof.
  intros acc x Hacc.
  rewrite (scorePayloadChild_childScore fuel state acc x Hacc).
  rewrite (scorePayloadChild_childScore fuel state 0 x inInt_0).
  rewrite bind_assoc. apply bind_ext. intros d. int_eq.
Qed.

Lemma scorePayload_additive fuel state :
  additive (scorePayload wrap64 fuel state).
Proof.
  intros acc x Hacc.
  rewrite (scorePayload_payloadScore fuel state acc x Hacc).
  rewrite (scorePayload_payloadScore fuel state 0 x inInt_0).
  rewrite bind_assoc. apply bind_ext. intros d. int_eq.
Qed.

(** Exchanging one element of the slice for another that adds [c] more
    adds [c] to the result. *)
Lemma forRange_exchange {A} (f : Z -> A -> outcome Z) pre x y post acc total c :
  additive f ->
  inInt acc ->
  (forall d, f 0 x = Ret d -> f 0 y = Ret (wrap64 (d + c))) ->
  forRange f (pre ++ x :: post) acc = Ret total ->
  forRange f (pre ++ y :: post) acc = Ret (wrap64 (total + c)).
Proof.
  intros Hf Hacc Hxy H.
  rewrite forRange_app in H. rewrite forRange_app.
  apply bind_Ret_inv in H as (a1 & Ha1 & H). rewrite Ha1.
  assert (Hr1 : inInt a1) by (eapply forRange_range; eauto).
  cbn [forRange bind] in H |- *.
  apply bind_Ret_inv in H as (a2 & Ha2 & H).
  rewrite (Hf a1 x Hr1) in Ha2.
  apply bind_Ret_inv in Ha2 as (d & Hd & Ha2). injection Ha2 as <-.
  rewrite (Hf a1 y Hr1), (Hxy d Hd). cbn [bind].
  rewrite (forRange_additive f post _ Hf (wrap64_range _)) in H.
  rewrite (forRange_additive f post _ Hf (wrap64_range _)).
  destruct (forRange f post 0) as [s| |]; cbn [bind] in *; try discriminate.
  injection H as <-. f_equal.
  apply wrap64_congr.
  rewrite !(Zplus_mod _ s), !(Zplus_mod _ c), !wrap64_mod.
  rewrite <- !Zplus_mod.
  rewrite (Zplus_mod (a1 + wrap64 (d + c)) s), (Zplus_mod a1 (wrap64 (d + c))).
  rewrite wrap64_mod, <- (Zplus_mod a1 (d + c)), <- Zplus_mod.
  rewrite (Zplus_mod (wrap64 (a1 + d) + s) c), (Zplus_mod (wrap64 (a1 + d)) s).
  rewrite wrap64_mod, <- (Zplus_mod (a1 + d) s), <- Zplus_mod.
  f_equal. lia.
Qed.

Lemma payload_spread_registered state name sels pname pargs cpre cpost pre post
    fuel c total :
  fragUsed state !! name = Some sels ->
  calculateSelectionComplexity wrap64 fuel sels state = Ret c ->
  calculateMutationComplexity wrap64 fuel
    (pre ++ Field pname pargs (Some (cpre ++ cpost)) :: post) state
  = Ret total ->
  calculateMutationComplexity wrap64 fuel
    (pre ++ Field pname pargs (Some (cpre ++ FragmentSpread name :: cpost))
         :: post) state
  = Ret (wrap64 (total + c)).
Proof.
  intros Hf Hc. unfold calculateMutationComplexity.
  apply forRange_exchange.
  - apply scorePayload_additive.
  - unfold inInt, mutationComplexity, minInt, maxInt. lia.
  - intros d Hd. cbn [scorePayload elems] in *.
    replace (wrap64 (d + c)) with (wrap64 (d + wrap64 (0 + c))) by int_eq.
    apply forRange_insert; [apply scorePayloadChild_additive | | exact Hd].
    cbn [scorePayloadChild]. rewrite Hf, Hc. reflexivity.
Qed.

Lemma payload_spread_unregistered state name pname pargs cpre cpost pre post
    fuel :
  fragUsed state !! name = None ->
  calculateMutationComplexity wrap64 fuel
    (pre ++ Field pname pargs (Some (cpre ++ FragmentSpread name :: cpost))
         :: post) state
  = calculateMutationComplexity wrap64 fuel
      (pre ++ Field pname pargs (Some (cpre ++ cpost)) :: post) state.
Proof.
  intros Hf. unfold calculateMutationComplexity.
  apply forRange_replace. intros a. cbn [scorePayload elems].
  apply forRange_skip. intros b. cbn [scorePayloadChild]. rewrite Hf.
  reflexivity.
Qed.

(** C6 (as amended): the entry point scores the operations of a document
    with a registry built from the document's fragment definitions, and
    that registry maps a name to the selections of the last definition of
    that name.  In a list that the selection scorer scores, and among the
    immediate children of a payload field of a mutation, a spread of a
    registered name adds the score of the registered selections, and a
    spread of an unknown name adds nothing and raises no error (the
    outcome is that of the list without it). *)
Theorem C6_fragment_registry_and_spreads :
  forall Parse queryString d vars overrides,
    Parse queryString = inr d ->
    let state :=
      {| variables := vars;
         fieldOverrides := overrides;
         fragUsed := buildFragUsed (Fragments d) |} in
    (forall fuel,
        GetQueryComplexity wrap64 Parse fuel queryString vars overrides
        = forRange (scoreOperation wrap64 fuel state) (Operations d) 0)
    /\ (forall name, fragUsed state !! name = lastFragment name (Fragments d))
    /\ (forall name sels pre post c r,
           lastFragment name (Fragments d) = Some sels ->
           returns sels state c ->
           returns (pre ++ post) state r ->
           returns (pre ++ FragmentSpread name :: post) state (wrap64 (r + c)))
    /\ (forall name pre post fuel,
           lastFragment name (Fragments d) = None ->
           calculateSelectionComplexity wrap64 fuel
             (pre ++ FragmentSpread name :: post) state
           = calculateSelectionComplexity wrap64 fuel (pre ++ post) state)
    /\ (forall name sels pname pargs cpre cpost pre post fuel c total,
           lastFragment name (Fragments d) = Some sels ->
           calculateSelectionComplexity wrap64 fuel sels state = Ret c ->
           calculateMutationComplexity wrap64 fuel
             (pre ++ Field pname pargs (Some (cpre ++ cpost)) :: post) state
           = Ret total ->
           calculateMutationComplexity wrap64 fuel
             (pre ++ Field pname pargs
                       (Some (cpre ++ FragmentSpread name :: cpost)) :: post)
             state
           = Ret (wrap64 (total + c)))
    /\ (forall name pname pargs cpre cpost pre post fuel,
           lastFragment name (Fragments d) = None ->
           calculateMutationComplexity wrap64 fuel
             (pre ++ Field pname pargs
                       (Some (cpre ++ FragmentSpread name :: cpost)) :: post)
             state
           = calculateMutationComplexity wrap64 fuel
               (pre ++ Field pname pargs (Some (cpre ++ cpost)) :: post) state).
Proof.
  intros Parse queryString d vars overrides Hparse state.
  assert (Hreg : forall name,
             fragUsed state !! name = lastFragment name (Fragments d)).
  { intros name. apply buildFragUsed_lastFragment. }
  split; [|split; [exact Hreg | split; [|split; [|split]]]].
  - intros fuel. unfold GetQueryComplexity. rewrite Hparse. reflexivity.
  - intros name sels pre post c r Hlast.
    apply spread_registered. rewrite Hreg. exact Hlast.
  - intros name pre post fuel Hlast.
    apply spread_unregistered. rewrite Hreg. exact Hlast.
  - intros name sels pname pargs cpre cpost pre post fuel c total Hlast.
    apply payload_spread_registered. rewrite Hreg. exact Hlast.
  - intros name pname pargs cpre cpost pre post fuel Hlast.
    apply payload_spread_unregistered. rewrite Hreg. exact Hlast.
Qed.

(** ** Item counts *)

Lemma getConnectionNodeCount_skip pre rest vars :
  isConnection pre = false ->
  getConnectionNodeCount (pre ++ rest) vars = getConnectionNodeCount rest vars.
Proof.
  induction pre as [|a pre IH]; simpl; [reflexivity|].
  destruct (isPagination (ArgName a)); [discriminate|]. exact IH.
Qed.

Lemma getConnectionNodeCount_first a post vars :
  isPagination (ArgName a) = true ->
  getConnectionNodeCount (a :: post) vars = getConnectionNodeCount [a] vars.
Proof.
  intros H. simpl. rewrite H. reflexivity.
Qed.


Lemma atoiFast_error s n e :
  snd (atoiFast s n) = Some e -> atoiFast s n = (0, Some ErrSyntax).
Proof.
  revert n. induction s as [|ch s IH]; intros n; simpl; [discriminate|].
  destruct (digitOf ch); [apply IH | reflexivity].
Qed.

Lemma Atoi_syntax_zero text : snd (Atoi text) = Some ErrSyntax -> fst (Atoi text) = 0.
Proof.
  unfold Atoi.
  destruct ((0 <? Z.of_nat (String.length text))
            && (Z.of_nat (String.length text) <? 19)).
  - destruct text as [|c rest]; [reflexivity|].
    destruct (if isSign c then rest else String c rest) as [|c' body];
      [reflexivity|].
    destruct (atoiFast (String c' body) 0) as [v [e|]] eqn:Hfast.
    + rewrite (atoiFast_error _ _ e) in Hfast by (rewrite Hfast; reflexivity).
      injection Hfast as <- <-. reflexivity.
    + discriminate.
  - unfold ParseInt.
    destruct text as [|c rest]; [reflexivity|].
    destruct (ParseUint (if isSign c then rest else String c rest))
      as [un [[]|]]; [reflexivity| |].
    + destruct (negb (isMinus c) && (un >=? 2 ^ 63)); [discriminate|].
      destruct (isMinus c && (un >? 2 ^ 63)); discriminate.
    + destruct (negb (isMinus c) && (un >=? 2 ^ 63)); [discriminate|].
      destruct (isMinus c && (un >? 2 ^ 63)); discriminate.
Qed.

Lemma Atoi_range_saturates text :
  snd (Atoi text) = Some ErrRange ->
  fst (Atoi text) = maxInt \/ fst (Atoi text) = minInt.
Proof.
  unfold Atoi.
  destruct ((0 <? Z.of_nat (String.length text))
            && (Z.of_nat (String.length text) <? 19)).
  - destruct text as [|c rest]; [discriminate|].
    destruct (if isSign c then rest else String c rest) as [|c' body];
      [discriminate|].
    destruct (atoiFast (String c' body) 0) as [v [e|]] eqn:Hfast.
    + rewrite (atoiFast_error _ _ e) in Hfast by (rewrite Hfast; reflexivity).
      injection Hfast as <- <-. discriminate.
    + discriminate.
  - unfold ParseInt.
    destruct text as [|c rest]; [discriminate|].
    destruct (ParseUint (if isSign c then rest else String c rest))
      as [un [[]|]]; [discriminate| |].
    + destruct (negb (isMinus c) && (un >=? 2 ^ 63)); [left; reflexivity|].
      destruct (isMinus c && (un >? 2 ^ 63)); [right; reflexivity|discriminate].
    + destruct (negb (isMinus c) && (un >=? 2 ^ 63)); [left; reflexivity|].
      destruct (isMinus c && (un >? 2 ^ 63)); [right; reflexivity|discriminate].
Qed.

(** C5: the literal 99999999999999999999 does not parse as an int (the
    parse reports a range error), and yet its count is not 0: the error is
    dropped and the saturated value, the largest int, is kept, so that
    [{ groups(first: 99999999999999999999){ edges{ node{ id } } } }] scores
    -9223372036854775807; every literal the parse rejects for its range
    counts as the largest or the smallest int.  The branch for variables
    does look at the error: the same digits bound to a variable as a
    number text count as 0, and the query scores 2.  The rest of the claim
    holds: the count is decided by the first argument named first or last,
    whatever follows it; a literal the parse rejects as malformed gives 0
    without error; a variable whose value is present but is neither a
    number text that converts, nor a float64, nor a float32, gives 0
    without error. *)
Theorem C5_overflowing_literal_is_not_zero :
  (snd (Atoi hugeLiteral) = Some ErrRange
   /\ getConnectionNodeCount (firstLiteral hugeLiteral) ∅
      = Ret 9223372036854775807
   /\ GetQueryComplexity wrap64 (parseOnly hugeLiteralText hugeLiteralDoc)
        8 hugeLiteralText ∅ ∅
      = Ret (-9223372036854775807)
   /\ getConnectionNodeCount (firstVariable "n")
        {[ "n" := JsonNumber hugeLiteral ]}
      = Ret 0
   /\ GetQueryComplexity wrap64
        (parseOnly undefinedVariableText undefinedVariableDoc)
        8 undefinedVariableText {[ "n" := JsonNumber hugeLiteral ]} ∅
      = Ret 2)
  /\ (forall name ty text vars,
         isPagination name = true ->
         snd (Atoi text) = Some ErrRange ->
         let count :=
           getConnectionNodeCount
             [ {| ArgName := name; ArgValue := PrimitiveValue ty text |} ] vars in
         count = Ret maxInt \/ count = Ret minInt)
  /\ (forall pre a post vars,
         isConnection pre = false ->
         isPagination (ArgName a) = true ->
         getConnectionNodeCount (pre ++ a :: post) vars
         = getConnectionNodeCount [a] vars)
  /\ (forall name ty text vars,
         isPagination name = true ->
         snd (Atoi text) = Some ErrSyntax ->
         getConnectionNodeCount
           [ {| ArgName := name; ArgValue := PrimitiveValue ty text |} ] vars
         = Ret 0)
  /\ (forall name x v vars,
         isPagination name = true ->
         vars !! x = Some v ->
         notConverted v ->
         getConnectionNodeCount
           [ {| ArgName := name; ArgValue := VarValue x |} ] vars
         = Ret 0).
Proof.
  split; [repeat split; vm_compute; reflexivity|].
  split; [|split; [|split]].
  - intros name ty text vars Hname Hrange. simpl. rewrite Hname.
    destruct (Atoi_range_saturates _ Hrange) as [-> | ->]; auto.
  - intros pre a post vars Hpre Ha.
    rewrite getConnectionNodeCount_skip by exact Hpre.
    apply getConnectionNodeCount_first. exact Ha.
  - intros name ty text vars Hname Hsyn. simpl. rewrite Hname.
    rewrite (Atoi_syntax_zero _ Hsyn). reflexivity.
  - intros name x v vars Hname Hx Hv. simpl. rewrite Hname, Hx.
    destruct v as [s | f | f | z | s | b |]; simpl in *;
      try reflexivity; try contradiction.
    destruct (Int64 s) as [value [e|]]; [reflexivity|].
    exfalso. apply Hv. reflexivity.
Qed.

Lemma isPagination_name name :
  isPagination name = true -> name = "first" \/ name = "last".
Proof.
  unfold isPagination. intros H. apply orb_prop in H as [H | H];
    apply String.eqb_eq in H; auto.
Qed.

(** C4: for [groups(first: $n)] with no variable [n] supplied the run
    fails, and the message names the argument ([first]), not the variable
    ([n]); whatever the arguments and the variables, the message of a
    failed count names [first] or [last]. *)
Theorem C4_error_names_the_argument :
  GetQueryComplexity wrap64
    (parseOnly undefinedVariableText undefinedVariableDoc)
    8 undefinedVariableText ∅ ∅
  = Err (ErrorString "Variable first not defined")
  /\ ErrorString "Variable first not defined"
     <> ErrorString "Variable n not defined"
  /\ (forall args vars e,
         getConnectionNodeCount args vars = Err e ->
         e = ErrorString "Variable first not defined"
         \/ e = ErrorString "Variable last not defined").
Proof.
  split; [vm_compute; reflexivity | split; [discriminate|]].
  intros args vars e. induction args as [|a args IH]; simpl; [discriminate|].
  destruct (isPagination (ArgName a)) eqn:Hp; [|exact IH].
  destruct (ArgValue a) as [x | ty text | | vs | fs]; try discriminate.
  destruct (vars !! x); [discriminate|].
  intros H. injection H as <-.
  destruct (isPagination_name _ Hp) as [-> | ->]; auto.
Qed.

(** ** The compiled program against the program over unbounded integers *)

Lemma wrap64_connection a n c :
  wrap64 (wrap64 a + wrap64 (wrap64 (n * wrap64 c) + 2))
  = wrap64 (a + (n * c + 2)).
Proof.
  rewrite wrap64_add_l, wrap64_add_r.
  replace (a + (wrap64 (n * wrap64 c) + 2))
    with (wrap64 (n * wrap64 c) + (a + 2)) by lia.
  rewrite wrap64_add_l.
  rewrite <- wrap64_add_l, wrap64_mul_r, wrap64_add_l.
  f_equal. lia.
Qed.

Lemma wrap64_sum a c : wrap64 (wrap64 a + wrap64 c) = wrap64 (a + c).
Proof. rewrite wrap64_add_l, wrap64_add_r. reflexivity. Qed.

Lemma wrap64_object a c :
  wrap64 (wrap64 a + wrap64 (wrap64 c + 1)) = wrap64 (a + (c + 1)).
Proof.
  rewrite wrap64_add_l, wrap64_add_r.
  replace (a + (wrap64 c + 1)) with (wrap64 c + (a + 1)) by lia.
  rewrite wrap64_add_l. f_equal. lia.
Qed.

Lemma wrapped_bind (m : outcome Z) (k : Z -> outcome Z) :
  wrapped (bind m k) = bind m (fun a => wrapped (k a)).
Proof. unfold wrapped. apply bind_assoc. Qed.

Lemma bind_wrapped (m : outcome Z) (k : Z -> outcome Z) :
  bind (wrapped m) k = bind m (fun a => k (wrap64 a)).
Proof. unfold wrapped. rewrite bind_assoc. reflexivity. Qed.

Lemma forRange_wrapped {A} (f g : Z -> A -> outcome Z) xs a :
  (forall a x, f (wrap64 a) x = wrapped (g a x)) ->
  forRange f xs (wrap64 a) = wrapped (forRange g xs a).
Proof.
  intros H. revert a. induction xs as [|x xs IH]; intros a; simpl.
  - reflexivity.
  - rewrite H, bind_wrapped, wrapped_bind.
    apply bind_ext. intros b. apply IH.
Qed.

Lemma scoreSelection_wrapped recm rece state a sel :
  (forall s, recm s = wrapped (rece s)) ->
  scoreSelection wrap64 recm state (wrap64 a) sel
  = wrapped (scoreSelection exact rece state a sel).
Proof.
  intros Hrec. unfold scoreSelection, exact, connectionComplexity, objectComplexity.
  destruct sel as [name args ss | name | sels].
  - destruct (isOverride name (fieldOverrides state)).
    { unfold wrapped. simpl. rewrite wrap64_add_l. reflexivity. }
    destruct (String.eqb name "pageInfo"); [reflexivity|].
    destruct (String.eqb name "edges").
    { rewrite Hrec, bind_wrapped, wrapped_bind. apply bind_ext. intros c.
      unfold wrapped. simpl. rewrite wrap64_sum. reflexivity. }
    destruct (isConnection args).
    { rewrite Hrec, bind_wrapped, wrapped_bind. apply bind_ext. intros c.
      rewrite wrapped_bind. apply bind_ext. intros n.
      unfold wrapped. simpl. rewrite wrap64_connection. reflexivity. }
    destruct ss as [sels|]; [|reflexivity].
    rewrite Hrec, bind_wrapped, wrapped_bind. apply bind_ext. intros c.
    unfold wrapped. simpl. rewrite wrap64_object. reflexivity.
  - destruct (fragUsed state !! name) as [fragVal|]; [|reflexivity].
    rewrite Hrec, bind_wrapped, wrapped_bind. apply bind_ext. intros c.
    unfold wrapped. simpl. rewrite wrap64_sum. reflexivity.
  - rewrite Hrec, bind_wrapped, wrapped_bind. apply bind_ext. intros c.
    unfold wrapped. simpl. rewrite wrap64_sum. reflexivity.
Qed.

Lemma calculateSelectionComplexity_wrapped fuel sels state :
  calculateSelectionComplexity wrap64 fuel sels state
  = wrapped (calculateSelectionComplexity exact fuel sels state).
Proof.
  revert sels. induction fuel as [|fuel IH]; intros sels; [reflexivity|].
  cbn [calculateSelectionComplexity].
  change 0 with (wrap64 0) at 1.
  apply forRange_wrapped. intros a x.
  apply scoreSelection_wrapped. exact IH.
Qed.

Lemma scorePayloadChild_wrapped fuel state a x :
  scorePayloadChild wrap64 fuel state (wrap64 a) x
  = wrapped (scorePayloadChild exact fuel state a x).
Proof.
  unfold scorePayloadChild, exact.
  destruct x as [name args ss | name | sels]; [| |reflexivity].
  - rewrite calculateSelectionComplexity_wrapped, bind_wrapped, wrapped_bind.
    apply bind_ext. intros c. unfold wrapped. simpl.
    rewrite wrap64_sum. reflexivity.
  - destruct (fragUsed state !! name) as [fragVal|]; [|reflexivity].
    rewrite calculateSelectionComplexity_wrapped, bind_wrapped, wrapped_bind.
    apply bind_ext. intros c. unfold wrapped. simpl.
    rewrite wrap64_sum. reflexivity.
Qed.

Lemma calculateMutationComplexity_wrapped fuel sels state :
  calculateMutationComplexity wrap64 fuel sels state
  = wrapped (calculateMutationComplexity exact fuel sels state).
Proof.
  unfold calculateMutationComplexity.
  change mutationComplexity with (wrap64 mutationComplexity) at 1.
  apply forRange_wrapped. intros a sel.
  unfold scorePayload. destruct sel as [name args ss | name | inner];
    [|reflexivity|reflexivity].
  apply forRange_wrapped. intros b x. apply scorePayloadChild_wrapped.
Qed.

Lemma GetQueryComplexity_wrapped Parse fuel queryString vars overrides :
  GetQueryComplexity wrap64 Parse fuel queryString vars overrides
  = wrapped (GetQueryComplexity exact Parse fuel queryString vars overrides).
Proof.
  unfold GetQueryComplexity.
  destruct (Parse queryString) as [err | d]; [reflexivity|].
  change 0 with (wrap64 0) at 1.
  apply forRange_wrapped. intros a op.
  unfold scoreOperation, exact. destruct (OpType op); [| |reflexivity].
  - rewrite calculateSelectionComplexity_wrapped, bind_wrapped, wrapped_bind.
    apply bind_ext. intros c. unfold wrapped. simpl.
    rewrite wrap64_sum. reflexivity.
  - rewrite calculateMutationComplexity_wrapped, bind_wrapped, wrapped_bind.
    apply bind_ext. intros c. unfold wrapped. simpl.
    rewrite wrap64_sum. reflexivity.
Qed.

(** ** Totals that cannot be negative *)

Lemma forRange_nonneg {A} (f : Z -> A -> outcome Z) (ok : A -> bool) xs acc t :
  (forall a x a', 0 <= a -> ok x = true -> f a x = Ret a' -> 0 <= a') ->
  forallb ok xs = true ->
  0 <= acc ->
  forRange f xs acc = Ret t ->
  0 <= t.
Proof.
  intros Hf. revert acc. induction xs as [|x xs IH]; intros acc Hok Hacc H.
  - simpl in H. injection H as <-. exact Hacc.
  - simpl in Hok. apply andb_prop in Hok as [Hx Hxs].
    simpl in H. apply bind_Ret_inv in H as (a' & Ha' & H).
    apply (IH a'); eauto.
Qed.

Lemma elems_countsNonneg vars name args ss :
  countsNonneg vars (Field name args ss) = true ->
  countNonneg vars args = true
  /\ forallb (countsNonneg vars) (elems ss) = true.
Proof.
  simpl. intros H. apply andb_prop in H as [Hargs Hss].
  split; [exact Hargs|]. destruct ss; [exact Hss | reflexivity].
Qed.

Section Nonnegative.

Variable state : queryState.

Hypothesis overrides_nonneg :
  forall name v, fieldOverrides state !! name = Some v -> 0 <= v.

Hypothesis fragments_nonneg :
  forall name sels,
    fragUsed state !! name = Some sels ->
    forallb (countsNonneg (variables state)) sels = true.

Lemma scoreSelection_nonneg rec acc sel a' :
  (forall s c,
      forallb (countsNonneg (variables state)) s = true ->
      rec s = Ret c -> 0 <= c) ->
  0 <= acc ->
  countsNonneg (variables state) sel = true ->
  scoreSelection exact rec state acc sel = Ret a' ->
  0 <= a'.
Proof.
  intros Hrec Hacc Hok. unfold scoreSelection, exact, isOverride.
  destruct sel as [name args ss | name | sels].
  - apply elems_countsNonneg in Hok as [Hargs Hss].
    destruct (fieldOverrides state !! name) as [v|] eqn:Ho.
    { intros H. injection H as <-. simpl.
      pose proof (overrides_nonneg _ _ Ho). lia. }
    destruct (String.eqb name "pageInfo").
    { intros H. injection H as <-. exact Hacc. }
    destruct (String.eqb name "edges").
    { intros H. apply bind_Ret_inv in H as (c & Hc & H). injection H as <-.
      pose proof (Hrec _ _ Hss Hc). lia. }
    destruct (isConnection args).
    { intros H. apply bind_Ret_inv in H as (c & Hc & H).
      apply bind_Ret_inv in H as (n & Hn & H). injection H as <-.
      pose proof (Hrec _ _ Hss Hc) as Hc0.
      unfold countNonneg in Hargs. rewrite Hn in Hargs.
      apply Z.leb_le in Hargs. unfold connectionComplexity. nia. }
    destruct ss as [sels|].
    + intros H. apply bind_Ret_inv in H as (c & Hc & H). injection H as <-.
      pose proof (Hrec _ _ Hss Hc). unfold objectComplexity. lia.
    + intros H. injection H as <-. exact Hacc.
  - destruct (fragUsed state !! name) as [fragVal|] eqn:Hf.
    + intros H. apply bind_Ret_inv in H as (c & Hc & H). injection H as <-.
      pose proof (Hrec _ _ (fragments_nonneg _ _ Hf) Hc). lia.
    + intros H. injection H as <-. exact Hacc.
  - intros H. apply bind_Ret_inv in H as (c & Hc & H). injection H as <-.
    simpl in Hok. pose proof (Hrec _ _ Hok Hc). lia.
Qed.

Lemma calculateSelectionComplexity_nonneg fuel sels c :
  forallb (countsNonneg (variables state)) sels = true ->
  calculateSelectionComplexity exact fuel sels state = Ret c ->
  0 <= c.
Proof.
  revert sels c. induction fuel as [|fuel IH]; intros sels c Hok H;
    [discriminate|].
  cbn [calculateSelectionComplexity] in H.
  eapply forRange_nonneg; [| exact Hok | | exact H]; [|lia].
  intros a x a' Ha Hx Hstep.
  eapply scoreSelection_nonneg; [| exact Ha | exact Hx | exact Hstep].
  intros s c' Hs Hc'. eapply IH; eauto.
Qed.

Lemma scorePayloadChild_nonneg fuel a x a' :
  0 <= a ->
  countsNonneg (variables state) x = true ->
  scorePayloadChild exact fuel state a x = Ret a' ->
  0 <= a'.
Proof.
  intros Ha Hok. unfold scorePayloadChild, exact.
  destruct x as [name args ss | name | sels].
  - apply elems_countsNonneg in Hok as [_ Hss].
    intros H. apply bind_Ret_inv in H as (c & Hc & H). injection H as <-.
    pose proof (calculateSelectionComplexity_nonneg _ _ _ Hss Hc). lia.
  - destruct (fragUsed state !! name) as [fragVal|] eqn:Hf.
    + intros H. apply bind_Ret_inv in H as (c & Hc & H). injection H as <-.
      pose proof (calculateSelectionComplexity_nonneg _ _ _
                    (fragments_nonneg _ _ Hf) Hc). lia.
    + intros H. injection H as <-. exact Ha.
  - intros H. injection H as <-. exact Ha.
Qed.

Lemma calculateMutationComplexity_nonneg fuel sels c :
  forallb (countsNonneg (variables state)) sels = true ->
  calculateMutationComplexity exact fuel sels state = Ret c ->
  0 <= c.
Proof.
  intros Hok H. unfold calculateMutationComplexity in H.
  eapply forRange_nonneg; [| exact Hok | | exact H];
    [|unfold mutationComplexity; lia].
  intros a sel a' Ha Hsel. unfold scorePayload.
  destruct sel as [name args ss | name | inner].
  - apply elems_countsNonneg in Hsel as [_ Hss]. intros Hrun.
    eapply forRange_nonneg; [| exact Hss | exact Ha | exact Hrun].
    intros b x b'. apply scorePayloadChild_nonneg.
  - intros Hrun. injection Hrun as <-. exact Ha.
  - intros Hrun. injection Hrun as <-. exact Ha.
Qed.

Lemma scoreOperation_nonneg fuel a op a' :
  0 <= a ->
  forallb (countsNonneg (variables state)) (OpSelections op) = true ->
  scoreOperation exact fuel state a op = Ret a' ->
  0 <= a'.
Proof.
  intros Ha Hok. unfold scoreOperation, exact. destruct (OpType op).
  - intros H. apply bind_Ret_inv in H as (c & Hc & H). injection H as <-.
    pose proof (calculateSelectionComplexity_nonneg _ _ _ Hok Hc). lia.
  - intros H. apply bind_Ret_inv in H as (c & Hc & H). injection H as <-.
    pose proof (calculateMutationComplexity_nonneg _ _ _ Hok Hc). lia.
  - intros H. injection H as <-. exact Ha.
Qed.

End Nonnegative.

Lemma buildFragUsed_nonneg vars frags name sels :
  forallb (fun f => forallb (countsNonneg vars) (FragSelections f)) frags = true ->
  buildFragUsed frags !! name = Some sels ->
  forallb (countsNonneg vars) sels = true.
Proof.
  unfold buildFragUsed.
  assert (H : forall m : gmap string (list Selection),
             (forall n s, m !! n = Some s -> forallb (countsNonneg vars) s = true) ->
             forallb (fun f => forallb (countsNonneg vars) (FragSelections f)) frags
             = true ->
             fold_left (fun m f => <[FragName f := FragSelections f]> m) frags m
               !! name = Some sels ->
             forallb (countsNonneg vars) sels = true).
  { induction frags as [|f frags IH]; intros m Hm Hok Hl; simpl in *.
    - eapply Hm; eauto.
    - apply andb_prop in Hok as [Hf Hrest].
      apply (IH (<[FragName f := FragSelections f]> m)); auto.
      intros n s. rewrite lookup_insert.
      destruct (decide (FragName f = n)); [|apply Hm].
      intros Heq. injection Heq as <-. exact Hf. }
  apply H. intros n s. rewrite lookup_empty. discriminate.
Qed.

(** C7 (as amended): when no override is negative, no pagination count of
    the document resolves to a negative number, and the total computed
    without wrap-around fits the int type, the entry point returns that
    total and it is not negative. *)
Theorem C7_total_is_nonnegative :
  forall Parse fuel queryString vars overrides d total,
    Parse queryString = inr d ->
    (forall name v, overrides !! name = Some v -> 0 <= v) ->
    documentCountsNonneg vars d = true ->
    GetQueryComplexity exact Parse fuel queryString vars overrides = Ret total ->
    total <= maxInt ->
    GetQueryComplexity wrap64 Parse fuel queryString vars overrides = Ret total
    /\ 0 <= total.
Proof.
  intros Parse fuel queryString vars overrides d total Hparse Hover Hdoc Hrun Hfit.
  assert (Hpos : 0 <= total).
  { unfold GetQueryComplexity in Hrun. rewrite Hparse in Hrun.
    unfold documentCountsNonneg in Hdoc. apply andb_prop in Hdoc as [Hops Hfrags].
    eapply forRange_nonneg; [| exact Hops | | exact Hrun]; [|lia].
    intros a op a' Ha Hop.
    apply scoreOperation_nonneg; simpl; auto.
    intros name sels. apply buildFragUsed_nonneg. exact Hfrags. }
  split; [|exact Hpos].
  rewrite GetQueryComplexity_wrapped, Hrun. unfold wrapped. simpl.
  rewrite wrap64_small; [reflexivity|].
  unfold inInt, minInt. split; [lia | exact Hfit].
Qed.

(** C7, the claim as first worded, fails: the query
    [{ groups(first: -5){ edges{ node{ id } } } }] scores -3 without error;
    a field overridden with a negative value scores that value; and a count
    of 9223372036854775807 makes the sum wrap around to a negative int. *)
Lemma C7_counterexample_negative_total :
  GetQueryComplexity wrap64 (parseOnly negativeCountText negativeCountDoc)
    8 negativeCountText ∅ ∅
  = Ret (-3)
  /\ GetQueryComplexity wrap64 (parseOnly fiveGroupsText fiveGroupsDoc)
       8 fiveGroupsText ∅ {[ "groups" := -1 ]}
     = Ret (-1)
  /\ GetQueryComplexity wrap64 (parseOnly overflowText overflowDoc)
       8 overflowText ∅ ∅
     = Ret (-9223372036854775807).
Proof. repeat split; vm_compute; reflexivity. Qed.

(** The amended C7 on the five-groups query: it scores 7. *)
Lemma C7_witness :
  GetQueryComplexity wrap64 (parseOnly fiveGroupsText fiveGroupsDoc)
    8 fiveGroupsText ∅ ∅
  = Ret 7
  /\ 0 <= 7.
Proof.
  apply (C7_total_is_nonnegative
           (parseOnly fiveGroupsText fiveGroupsDoc) 8 fiveGroupsText ∅ ∅
           fiveGroupsDoc 7).
  - reflexivity.
  - intros name v H. rewrite lookup_empty in H. discriminate.
  - reflexivity.
  - vm_compute. reflexivity.
  - unfold maxInt. lia.
Defined.

(** ** The theorems at work on sample documents *)

(** C1 on [groups(first: 5){ edges{ node{ id } } }]: 5 * 1 + 2. *)
Lemma C1_witness :
  returns [Field "groups" (firstLiteral "5") (Some [nodeId])] emptyState 7.
Proof.
  refine (proj1 (C1_connection_contribution emptyState "groups"
                   (firstLiteral "5") (Some [nodeId]) [] [] 1 5 0
                   _ _ _ _ _ _ _)).
  - apply lookup_empty.
  - discriminate.
  - discriminate.
  - reflexivity.
  - exists 3%nat. reflexivity.
  - reflexivity.
  - exists 1%nat. reflexivity.
Defined.

(** C3 on [groups(first: $n)] with no variable [n]: 4 under the override
    of [groups], a failure without it. *)
Lemma C3_witness :
  calculateSelectionComplexity wrap64 1
    [Field "groups" (firstVariable "n") (Some [nodeId])] overrideState
  = Ret 4
  /\ fails [Field "groups" (firstVariable "n") (Some [nodeId])] emptyState
       (ErrorString "Variable first not defined").
Proof.
  destruct (C3_override_replaces_subtree overrideState "groups"
              (firstVariable "n") (Some [nodeId]) 4)
    as (_ & Hwith & Hwithout).
  - vm_compute. reflexivity.
  - split.
    + exact (Hwith 0%nat).
    + refine (Hwithout (ErrorString "Variable first not defined") 1 _ _ _ _ _).
      * discriminate.
      * discriminate.
      * reflexivity.
      * reflexivity.
      * exists 3%nat. vm_compute. reflexivity.
Defined.

(** C10 on the selections of [{ group{ id } }] and of [{ group }]: 1 and
    0; a present set without selections gives 1 as well. *)
Lemma C10_witness :
  returns [groupWithId] emptyState 1
  /\ returns [Field "group" [] None] emptyState 0
  /\ returns [Field "group" [] (Some [])] emptyState 1.
Proof.
  destruct (C10_empty_versus_absent_selection_set emptyState "group" [] [] [] 0)
    as (Hpresent & Hempty & Habsent & _).
  - apply lookup_empty.
  - discriminate.
  - discriminate.
  - reflexivity.
  - exists 1%nat. reflexivity.
  - split; [|split; [exact Habsent | exact Hempty]].
    apply (Hpresent [Field "id" [] None] 0). exists 1%nat. reflexivity.
Defined.

(** C8 on a [pageInfo] field, with a child, below [groups(first: 5)]. *)
Lemma C8_witness :
  calculateSelectionComplexity wrap64 5
    [Field "groups" (firstLiteral "5")
       (Some [Field "pageInfo" [] (Some [Field "hasNextPage" [] None]); nodeId])]
    emptyState
  = calculateSelectionComplexity wrap64 5
      [Field "groups" (firstLiteral "5") (Some [nodeId])] emptyState.
Proof.
  apply (C8_pageInfo_contributes_nothing emptyState
           (UnderField [] "groups" (firstLiteral "5") (Here [] [nodeId]) [])
           [] (Some [Field "hasNextPage" [] None]) 5%nat).
  apply lookup_empty.
Defined.

(** C6 on a document that defines the fragment [connection] twice and
    spreads it, with an unknown one, in a query and below the payload
    field of a mutation: the later definition is the one scored, 1 in the
    query and 10 + 1 in the mutation. *)
Lemma C6_witness :
  (forall fuel,
      GetQueryComplexity wrap64 (parseOnly twiceDefinedText twiceDefinedDoc)
        fuel twiceDefinedText ∅ ∅
      = forRange (scoreOperation wrap64 fuel twiceDefinedState)
          (Operations twiceDefinedDoc) 0)
  /\ fragUsed twiceDefinedState !! "connection" = Some [nodeId]
  /\ fragUsed twiceDefinedState !! "missing" = None
  /\ returns [FragmentSpread "connection"; FragmentSpread "missing"]
       twiceDefinedState 1
  /\ calculateMutationComplexity wrap64 3
       [Field "createX" []
          (Some [FragmentSpread "connection"; FragmentSpread "missing"])]
       twiceDefinedState
     = Ret 11.
Proof.
  destruct (C6_fragment_registry_and_spreads
              (parseOnly twiceDefinedText twiceDefinedDoc)
              twiceDefinedText twiceDefinedDoc ∅ ∅ eq_refl)
    as (Hentry & Hreg & Hknown & Hunknown & Hchild & Hnochild).
  assert (Hconnection :
            lastFragment "connection" (Fragments twiceDefinedDoc)
            = Some [nodeId]) by reflexivity.
  assert (Hmissing : lastFragment "missing" (Fragments twiceDefinedDoc) = None)
    by reflexivity.
  split; [exact Hentry | split; [|split; [|split]]].
  - rewrite <- Hconnection. apply Hreg.
  - rewrite <- Hmissing. apply Hreg.
  - apply (Hknown "connection" [nodeId] [] [FragmentSpread "missing"] 1 0
             Hconnection).
    + exists 3%nat. reflexivity.
    + exists 1%nat.
      rewrite (Hunknown "missing" [] [] 1%nat Hmissing). reflexivity.
  - apply (Hchild "connection" [nodeId] "createX" [] []
             [FragmentSpread "missing"] [] [] 3%nat 1 10 Hconnection).
    + reflexivity.
    + rewrite (Hnochild "missing" "createX" [] [] [] [] [] 3%nat Hmissing).
      reflexivity.
Defined.

(** ** Where the first wording of a claim fails *)

(** C3, the claim as first worded, fails for the payload field of a
    mutation and for its immediate children, which are never looked up in
    the overrides: [mutation{ createX{ group{ a{ b } } } }] scores 11 with
    the overrides createX = 5 and group = 7 as it does without any, whereas
    the same selections in a query score 5 under these overrides; and the
    selection set of the overridden [group] is visited, since an undefined
    variable inside it still fails the run. *)
Lemma C3_counterexample_mutation_ignores_overrides :
  GetQueryComplexity wrap64
    (parseOnly overriddenPayloadText overriddenPayloadDoc)
    8 overriddenPayloadText ∅ payloadOverrides
  = Ret 11
  /\ GetQueryComplexity wrap64
       (parseOnly overriddenPayloadText overriddenPayloadDoc)
       8 overriddenPayloadText ∅ ∅
     = Ret 11
  /\ GetQueryComplexity wrap64
       (parseOnly overriddenQueryText overriddenQueryDoc)
       8 overriddenQueryText ∅ payloadOverrides
     = Ret 5
  /\ GetQueryComplexity wrap64
       (parseOnly payloadVariableText payloadVariableDoc)
       8 payloadVariableText ∅ payloadOverrides
     = Err (ErrorString "Variable first not defined").
Proof. repeat split; vm_compute; reflexivity. Qed.

(** C6, the claim as first worded, fails for a spread that stands directly
    under a mutation: [payload] is registered and its selections score 2
    (the score of [query{ ...payload }]), and yet [mutation{ ...payload }]
    scores the bare 10. *)
Lemma C6_counterexample_spread_under_mutation :
  buildFragUsed (Fragments spreadUnderMutationDoc) !! "payload"
  = Some (FragSelections payloadFragment)
  /\ GetQueryComplexity wrap64
       (parseOnly spreadUnderQueryText spreadUnderQueryDoc)
       8 spreadUnderQueryText ∅ ∅
     = Ret 2
  /\ GetQueryComplexity wrap64
       (parseOnly spreadUnderMutationText spreadUnderMutationDoc)
       8 spreadUnderMutationText ∅ ∅
     = Ret 10.
Proof. repeat split; vm_compute; reflexivity. Qed.

(** C10, the claim as first worded, fails for the payload field of a
    mutation and for its immediate children: with a present and empty
    selection set they add nothing, as with an absent one, so that the two
    are scored alike; and a child [group{ id }], which scores 1 in a query,
    adds nothing to [mutation{ createX{ group{ id } } }]. *)
Lemma C10_counterexample_mutation_payload :
  calculateMutationComplexity wrap64 3 [Field "createX" [] (Some [])] emptyState
  = Ret 10
  /\ calculateMutationComplexity wrap64 3 [Field "createX" [] None] emptyState
     = Ret 10
  /\ calculateMutationComplexity wrap64 3
       [Field "createX" [] (Some [Field "group" [] (Some [])])] emptyState
     = Ret 10
  /\ calculateMutationComplexity wrap64 3
       [Field "createX" [] (Some [Field "group" [] None])] emptyState
     = Ret 10
  /\ GetQueryComplexity wrap64 (parseOnly groupWithIdText groupWithIdDoc)
       8 groupWithIdText ∅ ∅
     = Ret 1
  /\ GetQueryComplexity wrap64 (parseOnly groupAloneText groupAloneDoc)
       8 groupAloneText ∅ ∅
     = Ret 0
  /\ GetQueryComplexity wrap64 (parseOnly payloadGroupText payloadGroupDoc)
       8 payloadGroupText ∅ ∅
     = Ret 10.
Proof. repeat split; vm_compute; reflexivity. Qed.

(** ** The block-string normalizer *)

Lemma leadingWhitespace_leadingCount s : leadingWhitespace s = leadingCount s.
Proof.
  unfold leadingCount, chars.
  induction s as [|c s IH]; simpl; [reflexivity|].
  destruct (isSpaceOrTab c); simpl; [rewrite IH|]; reflexivity.
Qed.

Lemma isBlank_entirelyWhitespace s : isBlank s = entirelyWhitespace s.
Proof.
  unfold isBlank, entirelyWhitespace, chars.
  destruct s as [|c s]; [reflexivity|].
  change (Nat.eqb (String.length (String c s)) 0) with false.
  rewrite orb_false_l.
  generalize (String c s). clear. intros s.
  induction s as [|c s IH]; simpl; [reflexivity|].
  destruct (isSpaceOrTab c); simpl; [exact IH | reflexivity].
Qed.

Lemma whitespaceOnly_entirelyWhitespace s :
  Nat.eqb (leadingWhitespace s) (String.length s) = entirelyWhitespace s.
Proof.
  unfold entirelyWhitespace, chars.
  induction s as [|c s IH]; simpl; [reflexivity|].
  destruct (isSpaceOrTab c); simpl; [exact IH | reflexivity].
Qed.

Lemma fold_min_zero xs : fold_right Nat.min O xs = O.
Proof.
  induction xs as [|x xs IH]; simpl; [reflexivity|].
  rewrite IH. apply Nat.min_0_r.
Qed.

Lemma fold_min_base k c xs :
  Nat.min k (fold_right Nat.min c xs) = fold_right Nat.min (Nat.min k c) xs.
Proof.
  induction xs as [|x xs IH]; simpl; [reflexivity|].
  rewrite <- IH. lia.
Qed.

Lemma indentationLoop_min lines acc :
  indentationLoop lines acc =
  let counts :=
    map leadingCount (filter (fun l => entirelyWhitespace l = false) lines) in
  match acc with
  | Some c => fold_right Nat.min c counts
  | None =>
      match counts with
      | [] => O
      | n :: ns => fold_right Nat.min n ns
      end
  end.
Proof.
  revert acc. induction lines as [|l lines IH]; intros acc; simpl.
  - destruct acc; reflexivity.
  - rewrite filter_cons, whitespaceOnly_entirelyWhitespace.
    destruct (entirelyWhitespace l) eqn:Hws.
    + destruct (decide (true = false)) as [Hf|_]; [discriminate|]. apply IH.
    + destruct (decide (false = false)) as [_|Hf]; [|contradiction].
      cbn [map]. rewrite <- (leadingWhitespace_leadingCount l).
      destruct (leadingWhitespace l) as [|k] eqn:Hk.
      * simpl. destruct acc as [c|]; simpl.
        -- reflexivity.
        -- symmetry. apply fold_min_zero.
      * change (Nat.eqb (S k) 0) with false. cbv iota.
        destruct acc as [c|].
        -- cbn [map]. cbn [fold_right].
           rewrite fold_min_base.
           destruct (Nat.ltb (S k) c) eqn:Hlt; rewrite IH; cbv zeta.
           ++ apply Nat.ltb_lt in Hlt. f_equal. lia.
           ++ apply Nat.ltb_ge in Hlt. f_equal. lia.
        -- rewrite IH. reflexivity.
Qed.

Lemma blockStringIndentation_commonIndent lines :
  blockStringIndentation lines = commonIndent lines.
Proof.
  unfold blockStringIndentation, commonIndent.
  rewrite indentationLoop_min.
  destruct lines; reflexivity.
Qed.

Lemma sliceFrom_stripLeading n l : sliceFrom n l = stripLeading n l.
Proof.
  unfold stripLeading, chars. revert l.
  induction n as [|n IH]; intros l.
  - simpl. destruct l; simpl; rewrite ?string_of_list_ascii_of_string;
      reflexivity.
  - destruct l as [|c l]; [reflexivity|]. simpl. apply IH.
Qed.

Lemma sliceFrom_short n l :
  (String.length l < n)%nat -> sliceFrom n l = EmptyString.
Proof.
  revert l. induction n as [|n IH]; intros l H; [lia|].
  destruct l as [|c l]; [reflexivity|]. simpl in *. apply IH. lia.
Qed.

Lemma dedent_line ind l :
  (if Nat.ltb (String.length l) ind then EmptyString else sliceFrom ind l)
  = stripLeading ind l.
Proof.
  rewrite <- sliceFrom_stripLeading.
  destruct (Nat.ltb (String.length l) ind) eqn:H; [|reflexivity].
  apply Nat.ltb_lt in H. rewrite sliceFrom_short; auto.
Qed.

Lemma dedentLoop_map ind todo (pre rest : list string) :
  dedentLoop ind todo (length pre) (pre ++ rest)
  = pre ++ map (stripLeading ind) (take todo rest) ++ drop todo rest.
Proof.
  revert pre rest. induction todo as [|todo IH]; intros pre rest.
  - simpl. rewrite drop_0. reflexivity.
  - cbn [dedentLoop].
    destruct rest as [|l rest].
    + rewrite app_nil_r, lookup_ge_None_2 by lia.
      simpl. rewrite app_nil_r. reflexivity.
    + rewrite list_lookup_middle by reflexivity.
      rewrite dedent_line.
      rewrite insert_app_r_alt by lia.
      rewrite Nat.sub_diag. cbn [insert list_insert].
      replace (S (length pre)) with (length (pre ++ [stripLeading ind l]))
        by (rewrite length_app; simpl; lia).
      rewrite (cons_middle _ pre rest), app_assoc, IH.
      rewrite <- app_assoc. reflexivity.
Qed.

Lemma stripLeading_0 l : stripLeading 0 l = l.
Proof. unfold stripLeading, chars. rewrite drop_0. apply string_of_list_ascii_of_string. Qed.

Lemma dedent_all ind lines :
  (if Nat.ltb 0 ind then dedentLoop ind (length lines - 1) 1 lines else lines)
  = match lines with
    | [] => []
    | first :: others => first :: map (stripLeading ind) others
    end.
Proof.
  destruct lines as [|first others].
  - destruct (Nat.ltb 0 ind); reflexivity.
  - destruct (Nat.ltb 0 ind) eqn:Hind.
    + change (first :: others) with ([first] ++ others).
      replace (length ([first] ++ others) - 1)%nat with (length others)
        by (simpl; lia).
      change 1%nat with (length [first]) at 1.
      rewrite dedentLoop_map, firstn_all, drop_all, app_nil_r. reflexivity.
    + apply Nat.ltb_ge in Hind. assert (ind = O) as -> by lia.
      f_equal. symmetry. rewrite <- (map_id others) at 2.
      apply map_ext. intros l. apply stripLeading_0.
Qed.

Lemma dropWhile_ext {A} (p q : A -> bool) l :
  (forall x, p x = q x) -> dropWhile p l = dropWhile q l.
Proof.
  intros H. induction l as [|x l IH]; simpl; [reflexivity|].
  rewrite H, IH. reflexivity.
Qed.

Lemma drop_countLeadingBlank lines :
  drop (countLeadingBlank lines) lines = dropWhile isBlank lines.
Proof.
  induction lines as [|l lines IH]; simpl; [reflexivity|].
  destruct (isBlank l); [exact IH | reflexivity].
Qed.

Lemma dropWhile_head {A} (p : A -> bool) l :
  match dropWhile p l with
  | [] => True
  | h :: _ => p h = false
  end.
Proof.
  induction l as [|x l IH]; simpl; [exact I|].
  destruct (p x) eqn:Hx; [exact IH | exact Hx].
Qed.

Lemma countTrailingBlank_app xs ys j :
  (j < length xs)%nat ->
  countTrailingBlank (xs ++ ys) j = countTrailingBlank xs j.
Proof.
  induction j as [|j IH]; intros Hj; [reflexivity|].
  cbn [countTrailingBlank]. rewrite lookup_app_l by exact Hj.
  destruct (xs !! S j) as [l|]; [|reflexivity].
  destruct (isBlank l); [|reflexivity].
  rewrite IH by lia. reflexivity.
Qed.

Lemma take_countTrailingBlank lines :
  match lines with
  | [] => True
  | h :: _ => isBlank h = false
  end ->
  take (length lines - countTrailingBlank lines (length lines - 1)) lines
  = rev (dropWhile isBlank (rev lines)).
Proof.
  induction lines as [|x xs IH] using rev_ind; intros Hhead; [reflexivity|].
  rewrite rev_app_distr. cbn [rev app dropWhile].
  rewrite length_app. cbn [length].
  replace (length xs + 1 - 1)%nat with (length xs) by lia.
  destruct xs as [|h xs'].
  - simpl in *. rewrite Hhead. reflexivity.
  - cbn [length countTrailingBlank].
    rewrite (list_lookup_middle (h :: xs') [] x (S (length xs'))) by reflexivity.
    destruct (isBlank x) eqn:Hx.
    + rewrite countTrailingBlank_app by (simpl; lia).
      replace (S (length xs') + 1 - S (countTrailingBlank (h :: xs') (length xs')))%nat
        with (length (h :: xs') - countTrailingBlank (h :: xs') (length (h :: xs') - 1))%nat
        by (simpl; rewrite Nat.sub_0_r; lia).
      rewrite take_app_le.
      * apply IH. exact Hhead.
      * lia.
    + rewrite Nat.sub_0_r.
      replace (S (length xs') + 1)%nat with (length ((h :: xs') ++ [x]))
        by (rewrite length_app; simpl; lia).
      rewrite firstn_all.
      change (rev (x :: rev (h :: xs')))
        with (rev (rev (h :: xs')) ++ [x]).
      rewrite rev_involutive. reflexivity.
Qed.

(** C9: the normalizer computes the value the description gives: split
    into lines, take the least leading-whitespace count of the lines after
    the first that are not all whitespace, strip that many leading
    characters from each line after the first, drop the blank lines at
    both ends, join with newlines. *)
Theorem C9_blockString_is_block_string_value :
  forall raw, blockString raw = blockStringValue raw.
Proof.
  intros raw. unfold blockString, blockStringValue, stripBlankEnds.
  rewrite blockStringIndentation_commonIndent, dedent_all.
  set (dedented := match Split raw with
                   | [] => []
                   | first :: others =>
                       first :: map (stripLeading (commonIndent (Split raw))) others
                   end).
  rewrite drop_countLeadingBlank.
  rewrite take_countTrailingBlank by apply dropWhile_head.
  f_equal. f_equal.
  rewrite (dropWhile_ext isBlank entirelyWhitespace)
    by apply isBlank_entirelyWhitespace.
  f_equal. f_equal.
  apply dropWhile_ext, isBlank_entirelyWhitespace.
Qed.

(** * Further properties of the evaluator *)

(** ** Failures *)

Lemma getConnectionNodeCount_Err_inv args vars e :
  getConnectionNodeCount args vars = Err e ->
  exists pre a x post,
    args = pre ++ a :: post
    /\ isConnection pre = false
    /\ isPagination (ArgName a) = true
    /\ ArgValue a = VarValue x
    /\ vars !! x = None
    /\ e = undefinedVariable (ArgName a).
Proof.
  induction args as [|a args IH]; simpl; [discriminate|].
  destruct (isPagination (ArgName a)) eqn:Hp.
  - destruct (ArgValue a) as [x | ty text | | vs | fs] eqn:Hv; try discriminate.
    destruct (vars !! x) eqn:Hx; [discriminate|].
    intros H. injection H as <-.
    exists [], a, x, args. repeat split; auto.
  - intros H. destruct (IH H) as (pre & b & x & post & -> & Hpre & Hb & Hv & Hx & ->).
    exists (a :: pre), b, x, post. simpl. rewrite Hp. repeat split; auto.
Qed.

(** The count fails exactly when the first argument named first or last
    holds a variable that the mapping does not bind; the message names
    that argument. *)
Theorem count_fails_iff_first_pagination_variable_unbound :
  forall args vars e,
    getConnectionNodeCount args vars = Err e <->
    exists pre a x post,
      args = pre ++ a :: post
      /\ isConnection pre = false
      /\ isPagination (ArgName a) = true
      /\ ArgValue a = VarValue x
      /\ vars !! x = None
      /\ e = undefinedVariable (ArgName a).
Proof.
  intros args vars e. split; [apply getConnectionNodeCount_Err_inv|].
  intros (pre & a & x & post & -> & Hpre & Ha & Hv & Hx & ->).
  rewrite getConnectionNodeCount_skip by exact Hpre.
  simpl. rewrite Ha, Hv, Hx. reflexivity.
Qed.

Lemma getConnectionNodeCount_Err_names args vars e :
  getConnectionNodeCount args vars = Err e -> namesPagination e.
Proof.
  intros H.
  apply getConnectionNodeCount_Err_inv in H
    as (pre & a & x & post & _ & _ & Ha & _ & _ & ->).
  destruct (isPagination_name _ Ha) as [-> | ->]; [left | right]; reflexivity.
Qed.

Lemma bind_Err_inv {A B} (m : outcome A) (k : A -> outcome B) e :
  bind m k = Err e -> m = Err e \/ exists a, m = Ret a /\ k a = Err e.
Proof.
  destruct m; simpl; intros H; [right; eauto | left; congruence | discriminate].
Qed.

Lemma forRange_Err_inv {A} (f : Z -> A -> outcome Z) xs acc e :
  forRange f xs acc = Err e -> exists a x, In x xs /\ f a x = Err e.
Proof.
  revert acc. induction xs as [|x xs IH]; intros acc; simpl; [discriminate|].
  intros H. apply bind_Err_inv in H as [H | (a & _ & H)].
  - exists acc, x. auto.
  - destruct (IH _ H) as (b & y & Hy & Hb). exists b, y. auto.
Qed.

Lemma scoreSelection_Err_names rec state a sel e :
  (forall s, rec s = Err e -> namesPagination e) ->
  scoreSelection wrap64 rec state a sel = Err e ->
  namesPagination e.
Proof.
  intros Hrec. unfold scoreSelection.
  destruct sel as [name args ss | name | sels].
  - destruct (isOverride name (fieldOverrides state)); [discriminate|].
    destruct (String.eqb name "pageInfo"); [discriminate|].
    destruct (String.eqb name "edges").
    { intros H. apply bind_Err_inv in H as [H | (c & _ & H)];
        [eauto | discriminate]. }
    destruct (isConnection args).
    { intros H. apply bind_Err_inv in H as [H | (c & _ & H)]; [eauto|].
      apply bind_Err_inv in H as [H | (n & _ & H)]; [|discriminate].
      eapply getConnectionNodeCount_Err_names; eauto. }
    destruct ss as [sels|]; [|discriminate].
    intros H. apply bind_Err_inv in H as [H | (c & _ & H)];
      [eauto | discriminate].
  - destruct (fragUsed state !! name); [|discriminate].
    intros H. apply bind_Err_inv in H as [H | (c & _ & H)];
      [eauto | discriminate].
  - intros H. apply bind_Err_inv in H as [H | (c & _ & H)];
      [eauto | discriminate].
Qed.

Lemma calculateSelectionComplexity_Err_names fuel sels state e :
  calculateSelectionComplexity wrap64 fuel sels state = Err e ->
  namesPagination e.
Proof.
  revert sels. induction fuel as [|fuel IH]; intros sels; [discriminate|].
  cbn [calculateSelectionComplexity]. intros H.
  apply forRange_Err_inv in H as (a & x & _ & H).
  eapply scoreSelection_Err_names; [|exact H]. intros s. apply IH.
Qed.

Lemma calculateMutationComplexity_Err_names fuel sels state e :
  calculateMutationComplexity wrap64 fuel sels state = Err e ->
  namesPagination e.
Proof.
  unfold calculateMutationComplexity. intros H.
  apply forRange_Err_inv in H as (a & sel & _ & H).
  unfold scorePayload in H. destruct sel as [name args ss | name | inner];
    try discriminate.
  apply forRange_Err_inv in H as (b & x & _ & H).
  unfold scorePayloadChild in H. destruct x as [cname cargs css | cname | cinner];
    try discriminate.
  - apply bind_Err_inv in H as [H | (c & _ & H)]; [|discriminate].
    eapply calculateSelectionComplexity_Err_names; eauto.
  - destruct (fragUsed state !! cname); [|discriminate].
    apply bind_Err_inv in H as [H | (c & _ & H)]; [|discriminate].
    eapply calculateSelectionComplexity_Err_names; eauto.
Qed.

(** An error of the entry point is either the parser's own error, handed
    on unchanged, or one of the two messages "Variable first not defined"
    and "Variable last not defined". *)
Theorem entry_point_errors :
  forall Parse fuel queryString vars overrides e,
    GetQueryComplexity wrap64 Parse fuel queryString vars overrides = Err e ->
    Parse queryString = inl e
    \/ e = ErrorString "Variable first not defined"
    \/ e = ErrorString "Variable last not defined".
Proof.
  intros Parse fuel queryString vars overrides e. unfold GetQueryComplexity.
  destruct (Parse queryString) as [err | d].
  - intros H. injection H as ->. left. reflexivity.
  - intros H. right.
    apply forRange_Err_inv in H as (a & op & _ & H).
    unfold scoreOperation in H. destruct (OpType op); [| |discriminate].
    + apply bind_Err_inv in H as [H | (c & _ & H)]; [|discriminate].
      exact (calculateSelectionComplexity_Err_names _ _ _ _ H).
    + apply bind_Err_inv in H as [H | (c & _ & H)]; [|discriminate].
      exact (calculateMutationComplexity_Err_names _ _ _ _ H).
Qed.

Lemma entry_point_errors_witness :
  parseOnly undefinedVariableText undefinedVariableDoc undefinedVariableText
  = inl (ErrorString "Variable first not defined")
  \/ ErrorString "Variable first not defined"
     = ErrorString "Variable first not defined"
  \/ ErrorString "Variable first not defined"
     = ErrorString "Variable last not defined".
Proof.
  apply (entry_point_errors
           (parseOnly undefinedVariableText undefinedVariableDoc)
           8 undefinedVariableText ∅ ∅).
  vm_compute. reflexivity.
Defined.

(** ** Selections that only stand for other selections *)

Lemma below_bind_Ret {A B} (m m' : outcome A) (k k' : A -> outcome B) :
  below m m' ->
  (forall a, m' = Ret a -> below (k a) (k' a)) ->
  below (bind m k) (bind m' k').
Proof.
  intros [-> | ->] Hk; [left; reflexivity|].
  destruct m'; simpl; [apply Hk; reflexivity | right; reflexivity | right; reflexivity].
Qed.

Lemma below_Ret {A} (m m' : outcome A) a : below m m' -> m = Ret a -> m' = Ret a.
Proof. intros [-> | ->]; [discriminate | auto]. Qed.

Lemma below_Err {A} (m m' : outcome A) e : below m m' -> m = Err e -> m' = Err e.
Proof. intros [-> | ->]; [discriminate | auto]. Qed.

Lemma scoreSelection_unwraps state x sels rec a :
  unwraps state x sels ->
  scoreSelection wrap64 rec state a x
  = bind (rec sels) (fun c => Ret (wrap64 (a + c))).
Proof.
  intros H. destruct H as [sels | args ss Ho | name sels Hf]; unfold scoreSelection.
  - reflexivity.
  - rewrite (isOverride_None _ _ Ho). reflexivity.
  - rewrite Hf. reflexivity.
Qed.

Lemma forRange_level_below fuel state sels acc :
  below
    (forRange (scoreSelection wrap64
                 (fun s => calculateSelectionComplexity wrap64 fuel s state) state)
       sels acc)
    (forRange (scoreSelection wrap64
                 (fun s => calculateSelectionComplexity wrap64 (S fuel) s state) state)
       sels acc).
Proof.
  apply forRange_below. intros a x. apply scoreSelection_below.
  intros s. apply calculateSelectionComplexity_S.
Qed.

(** Unwrapping needs no more fuel than the wrapped form. *)
Lemma unwrap_below fuel state x sels pre post :
  unwraps state x sels ->
  below (calculateSelectionComplexity wrap64 (S fuel) (pre ++ x :: post) state)
        (calculateSelectionComplexity wrap64 (S fuel) (pre ++ sels ++ post) state).
Proof.
  intros Hx. cbn [calculateSelectionComplexity].
  set (f := scoreSelection wrap64
              (fun s => calculateSelectionComplexity wrap64 fuel s state) state).
  rewrite !forRange_app. cbn [forRange].
  apply below_bind_Ret; [apply below_refl|]. intros a Ha.
  assert (Hin : inInt a).
  { eapply forRange_range; [apply scoreSelection_additive | apply inInt_0 | exact Ha]. }
  rewrite forRange_app.
  apply below_bind; [|intros; apply below_refl].
  unfold f at 1. rewrite (scoreSelection_unwraps _ _ _ _ _ Hx).
  rewrite (forRange_additive f sels a (scoreSelection_additive _ _) Hin).
  apply below_bind; [|intros; apply below_refl].
  apply (calculateSelectionComplexity_S wrap64 fuel sels state).
Qed.

(** The wrapped form needs one more level of calls. *)
Lemma wrap_below fuel state x sels pre post :
  unwraps state x sels ->
  below (calculateSelectionComplexity wrap64 (S fuel) (pre ++ sels ++ post) state)
        (calculateSelectionComplexity wrap64 (S (S fuel)) (pre ++ x :: post) state).
Proof.
  intros Hx.
  change (calculateSelectionComplexity wrap64 (S fuel) (pre ++ sels ++ post) state)
    with (forRange (scoreSelection wrap64
                      (fun s => calculateSelectionComplexity wrap64 fuel s state) state)
                   (pre ++ sels ++ post) 0).
  change (calculateSelectionComplexity wrap64 (S (S fuel)) (pre ++ x :: post) state)
    with (forRange (scoreSelection wrap64
                      (fun s => calculateSelectionComplexity wrap64 (S fuel) s state) state)
                   (pre ++ x :: post) 0).
  set (f := scoreSelection wrap64
              (fun s => calculateSelectionComplexity wrap64 fuel s state) state).
  set (f' := scoreSelection wrap64
               (fun s => calculateSelectionComplexity wrap64 (S fuel) s state) state).
  rewrite !forRange_app. cbn [forRange].
  apply below_bind_Ret; [apply forRange_level_below|]. intros a Ha.
  assert (Hin : inInt a).
  { eapply forRange_range; [apply scoreSelection_additive | apply inInt_0 | exact Ha]. }
  rewrite forRange_app.
  apply below_bind; [|intros b; apply forRange_level_below].
  unfold f' at 1. rewrite (scoreSelection_unwraps _ _ _ _ _ Hx).
  rewrite (forRange_additive f sels a (scoreSelection_additive _ _) Hin).
  apply below_refl.
Qed.

(** An inline fragment, an edges field without override, and a spread of a
    registered fragment can each be replaced by the selections they stand
    for, wherever they occur in a list: the returned score is the same, and
    so is the reported error. *)
Theorem unwrapping_is_transparent :
  forall state x sels pre post,
    unwraps state x sels ->
    (forall r, returns (pre ++ x :: post) state r
               <-> returns (pre ++ sels ++ post) state r)
    /\ (forall e, fails (pre ++ x :: post) state e
                  <-> fails (pre ++ sels ++ post) state e).
Proof.
  intros state x sels pre post Hx. split.
  - intros r. split; intros [fuel H]; (destruct fuel as [|fuel]; [discriminate|]).
    + exists (S fuel). exact (below_Ret _ _ _ (unwrap_below _ _ _ _ _ _ Hx) H).
    + exists (S (S fuel)). exact (below_Ret _ _ _ (wrap_below _ _ _ _ _ _ Hx) H).
  - intros e. split; intros [fuel H]; (destruct fuel as [|fuel]; [discriminate|]).
    + exists (S fuel). exact (below_Err _ _ _ (unwrap_below _ _ _ _ _ _ Hx) H).
    + exists (S (S fuel)). exact (below_Err _ _ _ (wrap_below _ _ _ _ _ _ Hx) H).
Qed.

Lemma unwrapping_is_transparent_witness :
  returns [Field "id" [] None; InlineFragment [nodeId]; FragmentSpread "connection"]
    fragmentState 2.
Proof.
  destruct (unwrapping_is_transparent fragmentState
              (InlineFragment [nodeId]) [nodeId]
              [Field "id" [] None] [FragmentSpread "connection"]
              (unwraps_inline fragmentState [nodeId])) as [Hr _].
  apply (proj2 (Hr 2)).
  exists 4%nat. vm_compute. reflexivity.
Defined.

(** ** The order of selections *)

Lemma sumOutcomes_Permutation (ms ms' : list (outcome Z)) s :
  Permutation ms ms' -> sumOutcomes ms = Ret s -> sumOutcomes ms' = Ret s.
Proof.
  intros Hp. revert s.
  induction Hp as [| m ms ms' _ IH | m1 m2 ms | ms1 ms2 ms3 _ IH1 _ IH2];
    intros s H.
  - exact H.
  - simpl in *. apply bind_Ret_inv in H as (x & -> & H).
    apply bind_Ret_inv in H as (t & Ht & H). simpl.
    rewrite (IH _ Ht). exact H.
  - simpl in *. apply bind_Ret_inv in H as (x & -> & H).
    apply bind_Ret_inv in H as (t & Ht & H).
    apply bind_Ret_inv in Ht as (y & -> & Ht).
    apply bind_Ret_inv in Ht as (u & -> & Ht).
    simpl in *. injection Ht as <-. injection H as <-.
    f_equal. lia.
  - auto.
Qed.

Lemma forRange_additive_sum {A} (f : Z -> A -> outcome Z) xs :
  additive f ->
  forRange f xs 0
  = bind (sumOutcomes (map (f 0) xs)) (fun s => Ret (wrap64 (0 + s))).
Proof.
  intros Hf. apply forRange_sum; [|apply inInt_0].
  intros a x Ha. apply Hf. exact Ha.
Qed.

(** Selections may be listed in any order: a list that scores [r] scores
    [r] in every rearrangement. *)
Theorem score_is_order_independent :
  forall state sels sels' r,
    Permutation sels sels' ->
    returns sels state r ->
    returns sels' state r.
Proof.
  intros state sels sels' r Hp [fuel H].
  destruct fuel as [|fuel]; [discriminate|].
  exists (S fuel). cbn [calculateSelectionComplexity] in *.
  rewrite forRange_additive_sum in * by apply scoreSelection_additive.
  apply bind_Ret_inv in H as (s & Hs & H).
  erewrite sumOutcomes_Permutation; [exact H | | exact Hs].
  apply Permutation_map. exact Hp.
Qed.

Lemma score_is_order_independent_witness :
  returns [nodeId; Field "groups" (firstLiteral "5") (Some [nodeId])]
    emptyState 8.
Proof.
  apply (score_is_order_independent emptyState
           [Field "groups" (firstLiteral "5") (Some [nodeId]); nodeId]).
  - apply perm_swap.
  - exists 4%nat. vm_compute. reflexivity.
Defined.

(** ** Operations of a document *)

Lemma scoreOperation_additive fuel state :
  additive (scoreOperation wrap64 fuel state).
Proof.
  intros acc op Hacc. unfold scoreOperation. destruct (OpType op).
  - rewrite bind_assoc. apply bind_ext. intros c. int_eq.
  - rewrite bind_assoc. apply bind_ext. intros c. int_eq.
  - simpl. rewrite Z.add_0_r, wrap64_small; auto.
Qed.

(** A subscription operation is never scored: a text with one and the text
    without it have the same outcome, whatever the subscription selects. *)
Theorem subscriptions_are_not_scored :
  forall Parse fuel q q' pre sub post frags vars overrides,
    Parse q = inr {| Operations := pre ++ sub :: post; Fragments := frags |} ->
    Parse q' = inr {| Operations := pre ++ post; Fragments := frags |} ->
    OpType sub = Subscription ->
    GetQueryComplexity wrap64 Parse fuel q vars overrides
    = GetQueryComplexity wrap64 Parse fuel q' vars overrides.
Proof.
  intros Parse fuel q q' pre sub post frags vars overrides Hq Hq' Hsub.
  unfold GetQueryComplexity. rewrite Hq, Hq'. simpl.
  apply forRange_skip. intros a. unfold scoreOperation. rewrite Hsub. reflexivity.
Qed.

(** The operations of a document add up: when the text of some operations
    scores [r1] and the text of some others, with the same fragments,
    scores [r2], the text with all of them scores [r1 + r2] (in the int
    type). *)
Theorem operations_add_up :
  forall Parse fuel q1 q2 q ops1 ops2 frags vars overrides r1 r2,
    Parse q1 = inr {| Operations := ops1; Fragments := frags |} ->
    Parse q2 = inr {| Operations := ops2; Fragments := frags |} ->
    Parse q = inr {| Operations := ops1 ++ ops2; Fragments := frags |} ->
    GetQueryComplexity wrap64 Parse fuel q1 vars overrides = Ret r1 ->
    GetQueryComplexity wrap64 Parse fuel q2 vars overrides = Ret r2 ->
    GetQueryComplexity wrap64 Parse fuel q vars overrides = Ret (wrap64 (r1 + r2)).
Proof.
  intros Parse fuel q1 q2 q ops1 ops2 frags vars overrides r1 r2 H1 H2 H.
  unfold GetQueryComplexity. rewrite H1, H2, H. simpl.
  intros Hr1 Hr2. rewrite forRange_app, Hr1. simpl.
  rewrite forRange_additive;
    [rewrite Hr2; reflexivity | apply scoreOperation_additive |].
  eapply forRange_range; [apply scoreOperation_additive | apply inInt_0 | exact Hr1].
Qed.

(** ** Termination *)

Lemma bind_not_OutOfFuel {A B} (m : outcome A) (k : A -> outcome B) :
  m <> OutOfFuel -> (forall a, k a <> OutOfFuel) -> bind m k <> OutOfFuel.
Proof. destruct m; simpl; intros; auto; discriminate. Qed.

Lemma forRange_not_OutOfFuel {A} (f : Z -> A -> outcome Z) xs acc :
  (forall a x, In x xs -> f a x <> OutOfFuel) ->
  forRange f xs acc <> OutOfFuel.
Proof.
  revert acc. induction xs as [|x xs IH]; intros acc H; simpl; [discriminate|].
  apply bind_not_OutOfFuel.
  - apply H. left. reflexivity.
  - intros a. apply IH. intros b y Hy. apply H. right. exact Hy.
Qed.

Lemma getConnectionNodeCount_not_OutOfFuel args vars :
  getConnectionNodeCount args vars <> OutOfFuel.
Proof.
  induction args as [|a args IH]; simpl; [discriminate|].
  destruct (isPagination (ArgName a)); [|exact IH].
  destruct (ArgValue a); try discriminate.
  destruct (vars !! Name); discriminate.
Qed.

Lemma selectionDepth_le_depth x sels :
  In x sels -> (selectionDepth x <= depth sels)%nat.
Proof.
  unfold depth. induction sels as [|y sels IH]; simpl; [contradiction|].
  intros [-> | H]; [lia|]. specialize (IH H). lia.
Qed.

Lemma selectionDepth_Field name args ss :
  selectionDepth (Field name args ss) = S (depth (elems ss)).
Proof. destruct ss; reflexivity. Qed.

Lemma calculateSelectionComplexity_terminates n sels state :
  (forall name, fragUsed state !! name = None) ->
  (depth sels <= n)%nat ->
  calculateSelectionComplexity wrap64 (S n) sels state <> OutOfFuel.
Proof.
  intros Hfrag. revert sels. induction n as [|n IH]; intros sels Hd;
    cbn [calculateSelectionComplexity];
    apply forRange_not_OutOfFuel; intros a x Hx;
    pose proof (selectionDepth_le_depth _ _ Hx) as Hx';
    unfold scoreSelection;
    destruct x as [name args ss | name | inner].
  - rewrite selectionDepth_Field in Hx'. lia.
  - rewrite Hfrag. discriminate.
  - simpl in Hx'. lia.
  - rewrite selectionDepth_Field in Hx'.
    assert (Hss : calculateSelectionComplexity wrap64 (S n) (elems ss) state
                  <> OutOfFuel) by (apply IH; lia).
    destruct (isOverride name (fieldOverrides state)); [discriminate|].
    destruct (String.eqb name "pageInfo"); [discriminate|].
    destruct (String.eqb name "edges").
    { apply bind_not_OutOfFuel; [exact Hss | discriminate]. }
    destruct (isConnection args).
    { apply bind_not_OutOfFuel; [exact Hss|]. intros c.
      apply bind_not_OutOfFuel;
        [apply getConnectionNodeCount_not_OutOfFuel | discriminate]. }
    destruct ss as [sels'|]; [|discriminate].
    apply bind_not_OutOfFuel; [exact Hss | discriminate].
  - rewrite Hfrag. discriminate.
  - apply bind_not_OutOfFuel; [|discriminate].
    apply IH. change (selectionDepth (InlineFragment inner)) with (S (depth inner)) in Hx'.
    lia.
Qed.

Lemma calculateMutationComplexity_terminates n sels state :
  (forall name, fragUsed state !! name = None) ->
  (depth sels <= n)%nat ->
  calculateMutationComplexity wrap64 (S n) sels state <> OutOfFuel.
Proof.
  intros Hfrag Hd. unfold calculateMutationComplexity.
  apply forRange_not_OutOfFuel. intros a sel Hsel.
  pose proof (selectionDepth_le_depth _ _ Hsel) as Hsel'.
  unfold scorePayload. destruct sel as [name args ss | name | inner];
    try discriminate.
  rewrite selectionDepth_Field in Hsel'.
  apply forRange_not_OutOfFuel. intros b x Hx.
  pose proof (selectionDepth_le_depth _ _ Hx) as Hx'.
  unfold scorePayloadChild. destruct x as [cname cargs css | cname | cinner];
    try discriminate.
  - rewrite selectionDepth_Field in Hx'.
    apply bind_not_OutOfFuel; [|discriminate].
    apply calculateSelectionComplexity_terminates; [exact Hfrag | lia].
  - rewrite Hfrag. discriminate.
Qed.

Lemma depth_le_documentDepth op d :
  In op (Operations d) -> (depth (OpSelections op) <= documentDepth d)%nat.
Proof.
  unfold documentDepth. induction (Operations d) as [|o ops IH]; simpl;
    [contradiction|].
  intros [-> | H]; [lia|]. specialize (IH H). lia.
Qed.

(** A document without fragment definitions is scored within a call depth
    of one more than its nesting depth: with that much fuel the entry
    point returns a total or an error. *)
Theorem documents_without_fragments_terminate :
  forall Parse q d vars overrides,
    Parse q = inr d ->
    Fragments d = [] ->
    GetQueryComplexity wrap64 Parse (S (documentDepth d)) q vars overrides
    <> OutOfFuel.
Proof.
  intros Parse q d vars overrides Hq Hfrags.
  unfold GetQueryComplexity. rewrite Hq, Hfrags.
  apply forRange_not_OutOfFuel. intros a op Hop.
  pose proof (depth_le_documentDepth _ _ Hop) as Hd.
  unfold scoreOperation. destruct (OpType op); [| |discriminate].
  - apply bind_not_OutOfFuel; [|discriminate].
    apply calculateSelectionComplexity_terminates; [|exact Hd].
    intros name. apply lookup_empty.
  - apply bind_not_OutOfFuel; [|discriminate].
    apply calculateMutationComplexity_terminates; [|exact Hd].
    intros name. apply lookup_empty.
Qed.

Lemma forRange_Ret_In {A} (f : Z -> A -> outcome Z) xs acc r x :
  forRange f xs acc = Ret r -> In x xs -> exists a a', f a x = Ret a'.
Proof.
  revert acc. induction xs as [|y xs IH]; intros acc H Hx; [contradiction|].
  simpl in H. apply bind_Ret_inv in H as (a' & Ha' & H).
  destruct Hx as [-> | Hx]; [eauto|]. eapply IH; eauto.
Qed.

Lemma self_spread_never_returns state name frag :
  fragUsed state !! name = Some frag ->
  In (FragmentSpread name) frag ->
  forall fuel r, calculateSelectionComplexity wrap64 fuel frag state <> Ret r.
Proof.
  intros Hf Hin fuel. induction fuel as [|fuel IH]; intros r; [discriminate|].
  cbn [calculateSelectionComplexity]. intros H.
  destruct (forRange_Ret_In _ _ _ _ _ H Hin) as (a & a' & Hstep).
  unfold scoreSelection in Hstep. rewrite Hf in Hstep.
  apply bind_Ret_inv in Hstep as (c & Hc & _).
  exact (IH c Hc).
Qed.

(** A fragment that spreads itself is never scored: a selection list
    holding a spread of it returns no total, at any call depth. *)
Theorem self_referential_fragment_never_returns :
  forall state name frag sels r,
    fragUsed state !! name = Some frag ->
    In (FragmentSpread name) frag ->
    In (FragmentSpread name) sels ->
    ~ returns sels state r.
Proof.
  intros state name frag sels r Hf Hin Hsels [fuel H].
  destruct fuel as [|fuel]; [discriminate|].
  cbn [calculateSelectionComplexity] in H.
  destruct (forRange_Ret_In _ _ _ _ _ H Hsels) as (a & a' & Hstep).
  unfold scoreSelection in Hstep. rewrite Hf in Hstep.
  apply bind_Ret_inv in Hstep as (c & Hc & _).
  exact (self_spread_never_returns _ _ _ Hf Hin _ _ Hc).
Qed.

(** ** The theorems above at work *)

Lemma subscriptions_are_not_scored_witness :
  GetQueryComplexity wrap64 (parseTable sampleTable) 8
    "query{ groups(first:5){ edges{ node{ id } } } } subscription S($n: Int){ groups(first:$n){ edges{ node{ id } } } }"
    ∅ ∅
  = GetQueryComplexity wrap64 (parseTable sampleTable) 8
      "query{ groups(first:5){ edges{ node{ id } } } }" ∅ ∅.
Proof.
  apply (subscriptions_are_not_scored (parseTable sampleTable) 8 _ _
           [fiveGroupsOp] watchOp [] []); reflexivity.
Defined.

Lemma operations_add_up_witness :
  GetQueryComplexity wrap64 (parseTable sampleTable) 8
    "query{ groups(first:5){ edges{ node{ id } } } } mutation{ touch{ group{ parent{ id } } } }"
    ∅ ∅
  = Ret 18.
Proof.
  apply (operations_add_up (parseTable sampleTable) 8
           "query{ groups(first:5){ edges{ node{ id } } } }"
           "mutation{ touch{ group{ parent{ id } } } }" _
           [fiveGroupsOp] [touchOp] [] ∅ ∅ 7 11);
    try reflexivity; vm_compute; reflexivity.
Defined.

Lemma documents_without_fragments_terminate_witness :
  GetQueryComplexity wrap64 (parseOnly fiveGroupsText fiveGroupsDoc)
    5 fiveGroupsText ∅ ∅
  <> OutOfFuel.
Proof.
  apply (documents_without_fragments_terminate
           (parseOnly fiveGroupsText fiveGroupsDoc) fiveGroupsText
           fiveGroupsDoc ∅ ∅); reflexivity.
Defined.

Lemma self_referential_fragment_never_returns_witness :
  ~ returns [Field "group" [] (Some [FragmentSpread "loop"]); FragmentSpread "loop"]
      loopState 1.
Proof.
  apply (self_referential_fragment_never_returns loopState "loop"
           [Field "id" [] None; FragmentSpread "loop"]).
  - vm_compute. reflexivity.
  - right. left. reflexivity.
  - right. left. reflexivity.
Defined.

(** ** Counts written in decimal *)

Lemma digitOf_digitChar d :
  (d < 10)%nat -> digitOf (digitChar d) = Some (Z.of_nat d).
Proof.
  intros H. do 10 (destruct d as [|d]; [reflexivity|]). lia.
Qed.

Lemma isSign_digitChar d : (d < 10)%nat -> isSign (digitChar d) = false.
Proof.
  intros H. do 10 (destruct d as [|d]; [reflexivity|]). lia.
Qed.

Lemma isMinus_digitChar d : (d < 10)%nat -> isMinus (digitChar d) = false.
Proof.
  intros H. do 10 (destruct d as [|d]; [reflexivity|]). lia.
Qed.

Lemma horner_ge n ds : 0 <= n -> n <= horner n ds.
Proof.
  revert n. induction ds as [|d ds IH]; intros n Hn; simpl; [lia|].
  specialize (IH (n * 10 + Z.of_nat d)). lia.
Qed.

Lemma atoiFast_digits ds n :
  allDigits ds -> atoiFast (digitString ds) n = (horner n ds, None).
Proof.
  intros H. revert n. induction H as [|d ds Hd _ IH]; intros n;
    cbn [digitString atoiFast horner]; [reflexivity|].
  rewrite (digitOf_digitChar _ Hd). apply IH.
Qed.

Lemma parseUintLoop_digits ds n :
  allDigits ds -> 0 <= n -> horner n ds <= maxUint64 ->
  parseUintLoop (digitString ds) n = (horner n ds, None).
Proof.
  intros H. revert n. induction H as [|d ds Hd _ IH]; intros n Hn Hfit;
    cbn [digitString parseUintLoop horner]; [reflexivity|].
  rewrite (digitOf_digitChar _ Hd).
  cbn [horner] in Hfit.
  pose proof (horner_ge (n * 10 + Z.of_nat d) ds ltac:(lia)) as Hge.
  assert (Hcut : n < maxUint64 / 10 + 1).
  { assert (n <= maxUint64 / 10); [|lia].
    apply Z.div_le_lower_bound; lia. }
  destruct (n >=? maxUint64 / 10 + 1) eqn:H1; [apply Z.geb_le in H1; lia|].
  destruct (n * 10 + Z.of_nat d >? maxUint64) eqn:H2;
    [apply Z.gtb_lt in H2; lia|].
  apply IH; lia.
Qed.

Lemma ParseInt_String c rest :
  ParseInt (String c rest)
  = match ParseUint (if isSign c then rest else String c rest) with
    | (_, Some ErrSyntax) => (0, Some ErrSyntax)
    | (un, _) =>
        if negb (isMinus c) && (un >=? 2 ^ 63) then (maxInt, Some ErrRange)
        else if isMinus c && (un >? 2 ^ 63) then (minInt, Some ErrRange)
        else (if isMinus c then - un else un, None)
    end.
Proof. reflexivity. Qed.

Lemma ParseUint_digits d ds :
  allDigits (d :: ds) -> decimalValue (d :: ds) <= maxInt ->
  ParseUint (digitString (d :: ds)) = (decimalValue (d :: ds), None).
Proof.
  intros Hall Hfit.
  change (ParseUint (digitString (d :: ds)))
    with (parseUintLoop (digitString (d :: ds)) 0).
  apply parseUintLoop_digits; [exact Hall | lia |].
  fold (decimalValue (d :: ds)). unfold maxInt in Hfit. unfold maxUint64. lia.
Qed.

Lemma decimalValue_nonneg ds : 0 <= decimalValue ds.
Proof. apply (horner_ge 0 ds). lia. Qed.

Lemma ParseInt_digits d ds :
  allDigits (d :: ds) -> decimalValue (d :: ds) <= maxInt ->
  ParseInt (digitString (d :: ds)) = (decimalValue (d :: ds), None).
Proof.
  intros Hall Hfit.
  assert (Hd : (d < 10)%nat) by (inversion Hall; assumption).
  change (digitString (d :: ds)) with (String (digitChar d) (digitString ds)).
  rewrite ParseInt_String, (isSign_digitChar _ Hd), (isMinus_digitChar _ Hd).
  change (String (digitChar d) (digitString ds)) with (digitString (d :: ds)).
  rewrite (ParseUint_digits _ _ Hall Hfit).
  pose proof (decimalValue_nonneg (d :: ds)) as Hge.
  unfold maxInt in Hfit. cbn [negb andb].
  destruct (decimalValue (d :: ds) >=? 2 ^ 63) eqn:H1;
    [apply Z.geb_le in H1; lia | reflexivity].
Qed.

Lemma ParseInt_minus_digits d ds :
  allDigits (d :: ds) -> decimalValue (d :: ds) <= maxInt ->
  ParseInt (String "-" (digitString (d :: ds)))
  = (- decimalValue (d :: ds), None).
Proof.
  intros Hall Hfit.
  rewrite ParseInt_String.
  change (isSign "-") with true. change (isMinus "-") with true.
  cbv iota.
  rewrite (ParseUint_digits _ _ Hall Hfit).
  unfold maxInt in Hfit. cbn [negb andb].
  destruct (decimalValue (d :: ds) >? 2 ^ 63) eqn:H1;
    [apply Z.gtb_lt in H1; lia | reflexivity].
Qed.

Lemma Atoi_String c rest :
  Atoi (String c rest)
  = if (0 <? Z.of_nat (String.length (String c rest)))
       && (Z.of_nat (String.length (String c rest)) <? 19)
    then
      let body := if isSign c then rest else String c rest in
      match body with
      | EmptyString => (0, Some ErrSyntax)
      | String _ _ =>
          match atoiFast body 0 with
          | (n, None) => (if isMinus c then - n else n, None)
          | r => r
          end
      end
    else ParseInt (String c rest).
Proof. reflexivity. Qed.

Lemma Atoi_digits d ds :
  allDigits (d :: ds) -> decimalValue (d :: ds) <= maxInt ->
  Atoi (digitString (d :: ds)) = (decimalValue (d :: ds), None).
Proof.
  intros Hall Hfit.
  assert (Hd : (d < 10)%nat) by (inversion Hall; assumption).
  change (digitString (d :: ds)) with (String (digitChar d) (digitString ds)).
  rewrite Atoi_String.
  destruct ((0 <? Z.of_nat (String.length (String (digitChar d) (digitString ds))))
            && (Z.of_nat (String.length (String (digitChar d) (digitString ds))) <? 19)).
  - rewrite (isSign_digitChar _ Hd), (isMinus_digitChar _ Hd).
    cbv zeta iota.
    change (String (digitChar d) (digitString ds)) with (digitString (d :: ds)).
    rewrite (atoiFast_digits _ _ Hall).
    reflexivity.
  - change (String (digitChar d) (digitString ds)) with (digitString (d :: ds)).
    apply ParseInt_digits; assumption.
Qed.

Lemma Atoi_minus_digits d ds :
  allDigits (d :: ds) -> decimalValue (d :: ds) <= maxInt ->
  Atoi (String "-" (digitString (d :: ds))) = (- decimalValue (d :: ds), None).
Proof.
  intros Hall Hfit.
  rewrite Atoi_String.
  destruct ((0 <? Z.of_nat (String.length (String "-" (digitString (d :: ds)))))
            && (Z.of_nat (String.length (String "-" (digitString (d :: ds)))) <? 19));
    [|apply ParseInt_minus_digits; assumption].
  change (isSign "-") with true. change (isMinus "-") with true.
  cbv zeta iota.
  change (digitString (d :: ds)) with (String (digitChar d) (digitString ds)) at 1.
  cbv iota.
  change (String (digitChar d) (digitString ds)) with (digitString (d :: ds)).
  rewrite (atoiFast_digits _ _ Hall).
  reflexivity.
Qed.

(** A count written with decimal digits is read exactly: the literal
    [d1 ... dk] gives the number it denotes, the literal with a minus sign
    in front gives its negative, and a variable bound to a number with
    that text gives the number too, as long as the number fits the int
    type. *)
Theorem decimal_counts_are_read_exactly :
  forall name ty ds vars,
    isPagination name = true ->
    allDigits ds ->
    ds <> [] ->
    decimalValue ds <= maxInt ->
    getConnectionNodeCount
      [ {| ArgName := name; ArgValue := PrimitiveValue ty (digitString ds) |} ]
      vars
    = Ret (decimalValue ds)
    /\ getConnectionNodeCount
         [ {| ArgName := name;
              ArgValue := PrimitiveValue ty (String "-" (digitString ds)) |} ]
         vars
       = Ret (- decimalValue ds)
    /\ (forall x,
           vars !! x = Some (JsonNumber (digitString ds)) ->
           getConnectionNodeCount
             [ {| ArgName := name; ArgValue := VarValue x |} ] vars
           = Ret (decimalValue ds)).
Proof.
  intros name ty ds vars Hname Hall Hne Hfit.
  destruct ds as [|d ds]; [contradiction|].
  split; [|split].
  - cbn [getConnectionNodeCount ArgName ArgValue]. rewrite Hname.
    rewrite Atoi_digits by assumption. reflexivity.
  - cbn [getConnectionNodeCount ArgName ArgValue]. rewrite Hname.
    rewrite Atoi_minus_digits by assumption. reflexivity.
  - intros x Hx. cbn [getConnectionNodeCount ArgName ArgValue]. rewrite Hname.
    rewrite Hx. unfold variableCount, Int64.
    rewrite ParseInt_digits by assumption. reflexivity.
Qed.

Lemma decimal_counts_are_read_exactly_witness :
  getConnectionNodeCount (firstLiteral "100") ∅ = Ret 100
  /\ getConnectionNodeCount
       [ {| ArgName := "first"; ArgValue := PrimitiveValue TInt "-100" |} ] ∅
     = Ret (-100).
Proof.
  destruct (decimal_counts_are_read_exactly "first" TInt [1; 0; 0]%nat ∅)
    as (Hpos & Hneg & _).
  - reflexivity.
  - repeat constructor.
  - discriminate.
  - vm_compute. discriminate.
  - split; [exact Hpos | exact Hneg].
Defined.

(** * Properties of [ResolveType] *)

Lemma ResolveType_result Quote t resolver :
  ResolveType Quote t resolver
  = match innermost t with
    | TypeName name loc =>
        match resolver name with
        | None =>
            inl {| Message := "unknown type " +:+ Quote name;
                   Rule := "KnownTypeNames";
                   Locations := [loc] |}
        | Some refT => inr (replaceInnermost t refT)
        end
    | _ => inr t
    end.
Proof.
  induction t as [t IH | t IH | name loc | name]; simpl.
  - rewrite IH. destruct (innermost t) as [u | u | name loc | name];
      try reflexivity.
    destruct (resolver name); reflexivity.
  - rewrite IH. destruct (innermost t) as [u | u | name loc | name];
      try reflexivity.
    destruct (resolver name); reflexivity.
  - destruct (resolver name); reflexivity.
  - reflexivity.
Qed.

Lemma innermost_not_wrapper t :
  match innermost t with
  | TList _ | TNonNull _ => False
  | _ => True
  end.
Proof. induction t; simpl; auto. Qed.

(** Resolution fails exactly when the name under all the list and
    non-null wrappers is unknown to the resolver; the error quotes that
    name, carries the rule KnownTypeNames and the location of the name. *)
Theorem ResolveType_fails_iff_innermost_name_unknown :
  forall Quote t resolver err,
    ResolveType Quote t resolver = inl err <->
    exists name loc,
      innermost t = TypeName name loc
      /\ resolver name = None
      /\ err = {| Message := "unknown type " +:+ Quote name;
                  Rule := "KnownTypeNames";
                  Locations := [loc] |}.
Proof.
  intros Quote t resolver err. rewrite ResolveType_result.
  pose proof (innermost_not_wrapper t) as Hw.
  destruct (innermost t) as [u | u | name loc | name]; try contradiction.
  - destruct (resolver name) as [refT|] eqn:Hr; split.
    + discriminate.
    + intros (n & l & Heq & Hn & _). injection Heq as <- <-. congruence.
    + intros H. injection H as <-. exists name, loc. auto.
    + intros (n & l & Heq & _ & ->). injection Heq as <- <-. reflexivity.
  - split; [discriminate|]. intros (n & l & Heq & _). discriminate.
Qed.

(** Resolution keeps every list and non-null wrapper and replaces only the
    name under them by what the resolver gives for it; a type with no
    unresolved name comes back unchanged.  When the resolver gives types
    that are themselves stable, resolving the result again changes
    nothing. *)
Theorem ResolveType_keeps_wrappers :
  forall Quote t resolver t',
    ResolveType Quote t resolver = inr t' ->
    (forall name loc refT,
        innermost t = TypeName name loc ->
        resolver name = Some refT ->
        t' = replaceInnermost t refT)
    /\ ((forall name loc, innermost t <> TypeName name loc) -> t' = t)
    /\ ((forall name refT,
            resolver name = Some refT ->
            ResolveType Quote refT resolver = inr refT) ->
        ResolveType Quote t' resolver = inr t').
Proof.
  intros Quote t resolver t' H. split; [|split].
  - intros name loc refT Hin Hr. rewrite ResolveType_result, Hin, Hr in H.
    injection H as <-. reflexivity.
  - intros Hno. rewrite ResolveType_result in H.
    destruct (innermost t) as [u | u | name loc | name] eqn:Hin;
      try (injection H as <-; reflexivity).
    exfalso. exact (Hno name loc eq_refl).
  - intros Hstable. revert t' H.
    induction t as [t IH | t IH | name loc | name]; intros t' H; simpl in H.
    + destruct (ResolveType Quote t resolver) as [e | u] eqn:Hu; [discriminate|].
      injection H as <-. simpl. rewrite (IH u eq_refl). reflexivity.
    + destruct (ResolveType Quote t resolver) as [e | u] eqn:Hu; [discriminate|].
      injection H as <-. simpl. rewrite (IH u eq_refl). reflexivity.
    + destruct (resolver name) as [refT|] eqn:Hr; [|discriminate].
      injection H as <-. exact (Hstable _ _ Hr).
    + injection H as <-. reflexivity.
Qed.

Lemma ResolveType_keeps_wrappers_witness :
  ResolveType (fun s => s)
    (TNonNull (TList (Resolved "Int"))) intResolver
  = inr (TNonNull (TList (Resolved "Int"))).
Proof.
  refine (proj2 (proj2 (ResolveType_keeps_wrappers (fun s => s)
            (TNonNull (TList (TypeName "Int" {| Line := 1; Column := 2 |})))
            intResolver (TNonNull (TList (Resolved "Int"))) _)) _).
  - reflexivity.
  - intros name refT. unfold intResolver.
    destruct (String.eqb name "Int"); [|discriminate].
    intros H. injection H as <-. reflexivity.
Defined.

(** * Further properties of the block-string normalizer *)

Lemma blockString_as_lines raw :
  blockString raw
  = Join (rev (dropWhile isBlank (rev (dropWhile isBlank (dedentedLines raw))))).
Proof.
  unfold blockString, dedentedLines.
  rewrite dedent_all.
  set (dedented := match Split raw with
                   | [] => []
                   | first :: others =>
                       first :: map (stripLeading (blockStringIndentation (Split raw))) others
                   end).
  rewrite drop_countLeadingBlank.
  rewrite take_countTrailingBlank by apply dropWhile_head.
  reflexivity.
Qed.

Lemma fold_min_le n ns x :
  In x (n :: ns) -> (fold_right Nat.min n ns <= x)%nat.
Proof.
  induction ns as [|m ns IH]; simpl.
  - intros [-> | []]. lia.
  - intros [-> | [-> | H]].
    + assert (fold_right Nat.min x ns <= x)%nat by (apply IH; left; reflexivity). lia.
    + lia.
    + assert (fold_right Nat.min n ns <= x)%nat by (apply IH; right; exact H). lia.
Qed.

Lemma fold_min_In n ns : In (fold_right Nat.min n ns) (n :: ns).
Proof.
  induction ns as [|m ns IH]; simpl; [auto|].
  destruct (Nat.min_spec m (fold_right Nat.min n ns)) as [[_ ->] | [_ ->]].
  - right. left. reflexivity.
  - destruct IH as [<- | H]; [left; reflexivity | right; right; exact H].
Qed.

Lemma isBlank_whitespaceOnly l :
  isBlank l = Nat.eqb (leadingWhitespace l) (String.length l).
Proof.
  rewrite isBlank_entirelyWhitespace, whitespaceOnly_entirelyWhitespace.
  reflexivity.
Qed.

Lemma blockStringIndentation_le lines l :
  In l (drop 1 lines) -> isBlank l = false ->
  (blockStringIndentation lines <= leadingWhitespace l)%nat.
Proof.
  intros Hl Hb. unfold blockStringIndentation.
  rewrite indentationLoop_min. cbv zeta.
  assert (Hin : In (leadingWhitespace l)
                  (map leadingCount
                     (filter (fun l => entirelyWhitespace l = false)
                        (drop 1 lines)))).
  { rewrite leadingWhitespace_leadingCount.
    apply in_map. apply list_elem_of_In, list_elem_of_filter.
    split; [|apply list_elem_of_In; exact Hl].
    rewrite <- isBlank_entirelyWhitespace. exact Hb. }
  destruct (map leadingCount _) as [|n ns]; [contradiction|].
  apply fold_min_le. exact Hin.
Qed.

(** The indentation [blockStringIndentation] finds is the least leading
    whitespace of the lines after the first that are not blank: it is at
    most that of each such line, it is that of one of them, and it is zero
    when there is none. *)
Theorem blockStringIndentation_is_least_indent :
  forall lines,
    let ind := blockStringIndentation lines in
    (forall l, In l (drop 1 lines) -> isBlank l = false ->
               (ind <= leadingWhitespace l)%nat)
    /\ ((exists l, In l (drop 1 lines) /\ isBlank l = false) ->
        exists l, In l (drop 1 lines) /\ isBlank l = false
                  /\ leadingWhitespace l = ind)
    /\ ((forall l, In l (drop 1 lines) -> isBlank l = true) -> ind = O).
Proof.
  intros lines ind. subst ind. unfold blockStringIndentation.
  rewrite indentationLoop_min. cbv zeta.
  set (rest := drop 1 lines).
  set (counts := map leadingCount
                   (filter (fun l => entirelyWhitespace l = false) rest)).
  assert (Hin : forall l, In l rest -> isBlank l = false ->
                          In (leadingWhitespace l) counts).
  { intros l Hl Hb. unfold counts. rewrite leadingWhitespace_leadingCount.
    apply in_map. apply list_elem_of_In, list_elem_of_filter.
    split; [|apply list_elem_of_In; exact Hl].
    rewrite <- isBlank_entirelyWhitespace. exact Hb. }
  assert (Hout : forall n, In n counts ->
                           exists l, In l rest /\ isBlank l = false
                                     /\ leadingWhitespace l = n).
  { intros n Hn. unfold counts in Hn. apply in_map_iff in Hn as (l & <- & Hl).
    apply list_elem_of_In, list_elem_of_filter in Hl as [Hb Hl].
    exists l. split; [apply list_elem_of_In; exact Hl|].
    split; [rewrite isBlank_entirelyWhitespace; exact Hb|].
    apply leadingWhitespace_leadingCount. }
  split; [|split].
  - intros l Hl Hb. specialize (Hin l Hl Hb).
    destruct counts as [|n ns]; [contradiction|]. apply fold_min_le. exact Hin.
  - intros (l & Hl & Hb). specialize (Hin l Hl Hb).
    destruct counts as [|n ns]; [contradiction|].
    apply Hout. apply fold_min_In.
  - intros Hall. destruct counts as [|n ns] eqn:Hc; [reflexivity|].
    destruct (Hout n ltac:(left; reflexivity)) as (l & Hl & Hb & _).
    rewrite (Hall l Hl) in Hb. discriminate.
Qed.

Lemma blockStringIndentation_is_least_indent_witness :
  (blockStringIndentation ["a"; "    b"; "  c"; "  "]
   <= leadingWhitespace "    b")%nat.
Proof.
  apply (proj1 (blockStringIndentation_is_least_indent
                  ["a"; "    b"; "  c"; "  "])).
  - left. reflexivity.
  - reflexivity.
Defined.

(** ** What the normalizer keeps *)

Lemma chars_append a b : chars (a +:+ b) = chars a ++ chars b.
Proof.
  unfold chars. induction a as [|c a IH]; simpl; [reflexivity|].
  rewrite IH. reflexivity.
Qed.

Lemma visibleChars_String c s :
  visibleChars (String c s)
  = (if visible c then [c] else []) ++ visibleChars s.
Proof. unfold visibleChars, chars. simpl. destruct (visible c); reflexivity. Qed.

Lemma visibleChars_Join lines :
  visibleChars (Join lines) = concat (map visibleChars lines).
Proof.
  induction lines as [|l lines IH]; [reflexivity|].
  destruct lines as [|l2 lines].
  - simpl. rewrite app_nil_r. reflexivity.
  - change (Join (l :: l2 :: lines))
      with (l +:+ String newline (Join (l2 :: lines))).
    unfold visibleChars at 1. rewrite chars_append, List.filter_app.
    fold (visibleChars l).
    change (List.filter visible (chars (String newline (Join (l2 :: lines)))))
      with (visibleChars (String newline (Join (l2 :: lines)))).
    rewrite visibleChars_String. change (visible newline) with false.
    cbn [app]. rewrite IH. reflexivity.
Qed.

Lemma visible_not_newline c : Ascii.eqb c newline = true -> visible c = false.
Proof. unfold visible. intros ->. apply negb_false_iff, orb_true_r. Qed.

Lemma visibleChars_Split raw :
  concat (map visibleChars (Split raw)) = visibleChars raw.
Proof.
  induction raw as [|c raw IH]; [reflexivity|].
  rewrite visibleChars_String. cbn [Split].
  destruct (Ascii.eqb c newline) eqn:Hc.
  - rewrite (visible_not_newline _ Hc). cbn [map concat]. rewrite IH. reflexivity.
  - destruct (Split raw) as [|l ls].
    + cbn [map concat] in *. rewrite visibleChars_String, <- IH.
      rewrite !app_nil_r. reflexivity.
    + cbn [map concat] in *. rewrite visibleChars_String, <- IH.
      rewrite app_assoc. reflexivity.
Qed.

Lemma visibleChars_blank l : isBlank l = true -> visibleChars l = [].
Proof.
  rewrite isBlank_entirelyWhitespace. unfold entirelyWhitespace, visibleChars.
  induction (chars l) as [|c cs IH]; simpl; [reflexivity|].
  intros H. apply andb_prop in H as [Hc Hcs].
  unfold visible. rewrite Hc. simpl. auto.
Qed.

Lemma visible_dropWhile lines :
  concat (map visibleChars (dropWhile isBlank lines))
  = concat (map visibleChars lines).
Proof.
  induction lines as [|l lines IH]; simpl; [reflexivity|].
  destruct (isBlank l) eqn:Hb; [|reflexivity].
  rewrite IH, (visibleChars_blank _ Hb). reflexivity.
Qed.

Lemma dropWhile_suffix {A} (p : A -> bool) l :
  exists dropped, l = dropped ++ dropWhile p l /\ Forall (fun x => p x = true) dropped.
Proof.
  induction l as [|x l (dropped & Hl & Hp)]; simpl.
  - exists []. split; [reflexivity | constructor].
  - destruct (p x) eqn:Hx.
    + exists (x :: dropped). split; [simpl; f_equal; exact Hl|].
      constructor; assumption.
    + exists []. split; [reflexivity | constructor].
Qed.

(** Trimming at the end: the kept lines followed by blank ones. *)
Lemma trim_end_prefix lines :
  exists blanks,
    lines = rev (dropWhile isBlank (rev lines)) ++ blanks
    /\ Forall (fun l => isBlank l = true) blanks.
Proof.
  destruct (dropWhile_suffix isBlank (rev lines)) as (dropped & Hl & Hp).
  exists (rev dropped). split.
  - rewrite <- rev_app_distr, <- Hl, rev_involutive. reflexivity.
  - apply Forall_rev. exact Hp.
Qed.

Lemma visible_blanks blanks :
  Forall (fun l => isBlank l = true) blanks ->
  concat (map visibleChars blanks) = [].
Proof.
  induction 1 as [|l blanks Hl _ IH]; simpl; [reflexivity|].
  rewrite (visibleChars_blank _ Hl), IH. reflexivity.
Qed.

Lemma visible_trim_end lines :
  concat (map visibleChars (rev (dropWhile isBlank (rev lines))))
  = concat (map visibleChars lines).
Proof.
  destruct (trim_end_prefix lines) as (blanks & Hl & Hb).
  rewrite Hl at 2. rewrite map_app, concat_app, (visible_blanks _ Hb), app_nil_r.
  reflexivity.
Qed.

Lemma chars_string_of_list cs : chars (string_of_list_ascii cs) = cs.
Proof. apply list_ascii_of_string_of_list_ascii. Qed.

Lemma filter_visible_drop n cs :
  (n <= length (takeWhile isSpaceOrTab cs))%nat ->
  List.filter visible (drop n cs) = List.filter visible cs.
Proof.
  revert cs. induction n as [|n IH]; intros cs H; [rewrite drop_0; reflexivity|].
  destruct cs as [|c cs]; [reflexivity|]. simpl in H.
  destruct (isSpaceOrTab c) eqn:Hc; simpl in H; [|lia].
  simpl. unfold visible at 2. rewrite Hc. simpl. apply IH. lia.
Qed.

Lemma filter_visible_whitespace cs :
  forallb isSpaceOrTab cs = true -> List.filter visible cs = [].
Proof.
  induction cs as [|c cs IH]; simpl; [reflexivity|].
  intros H. apply andb_prop in H as [Hc Hcs].
  unfold visible. rewrite Hc. simpl. auto.
Qed.

Lemma forallb_drop {A} (p : A -> bool) n l :
  forallb p l = true -> forallb p (drop n l) = true.
Proof.
  revert l. induction n as [|n IH]; intros l H; [rewrite drop_0; exact H|].
  destruct l as [|x l]; [reflexivity|]. simpl in *.
  apply andb_prop in H as [_ H]. apply IH. exact H.
Qed.

Lemma visibleChars_stripLeading ind l :
  (isBlank l = false -> (ind <= leadingWhitespace l)%nat) ->
  visibleChars (stripLeading ind l) = visibleChars l.
Proof.
  intros H. unfold visibleChars, stripLeading. rewrite chars_string_of_list.
  destruct (isBlank l) eqn:Hb.
  - rewrite isBlank_entirelyWhitespace in Hb. unfold entirelyWhitespace in Hb.
    rewrite (filter_visible_whitespace _ Hb).
    apply filter_visible_whitespace, forallb_drop. exact Hb.
  - apply filter_visible_drop.
    specialize (H eq_refl). rewrite leadingWhitespace_leadingCount in H.
    exact H.
Qed.

Lemma visible_dedentedLines raw :
  concat (map visibleChars (dedentedLines raw))
  = concat (map visibleChars (Split raw)).
Proof.
  unfold dedentedLines.
  pose proof (blockStringIndentation_le (Split raw)) as Hle.
  destruct (Split raw) as [|first others]; [reflexivity|].
  cbn [map concat]. f_equal.
  change (drop 1 (first :: others)) with others in Hle.
  set (ind := blockStringIndentation (first :: others)) in *.
  clearbody ind.
  induction others as [|l others IH]; [reflexivity|].
  cbn [map concat]. rewrite IH.
  - rewrite visibleChars_stripLeading; [reflexivity|].
    intros Hb. apply Hle; [left; reflexivity | exact Hb].
  - intros l' Hl'. apply Hle. right. exact Hl'.
Qed.

(** The normalizer removes blanks and line ends only: the characters of
    the result that are neither space, nor tab, nor line end are those of
    the body, in the same order. *)
Theorem blockString_keeps_visible_characters :
  forall raw, visibleChars (blockString raw) = visibleChars raw.
Proof.
  intros raw.
  rewrite blockString_as_lines, visibleChars_Join, visible_trim_end,
    visible_dropWhile, visible_dedentedLines.
  apply visibleChars_Split.
Qed.

(** ** Lines and line ends *)

Lemma hasNewline_String c s :
  hasNewline (String c s) = Ascii.eqb c newline || hasNewline s.
Proof. reflexivity. Qed.

Lemma Split_no_newline l : hasNewline l = false -> Split l = [l].
Proof.
  induction l as [|c l IH]; [reflexivity|].
  rewrite hasNewline_String. intros H. apply orb_false_elim in H as [Hc Hl].
  cbn [Split]. rewrite Hc, (IH Hl). reflexivity.
Qed.

Lemma Split_append_newline l s :
  hasNewline l = false -> Split (l +:+ String newline s) = l :: Split s.
Proof.
  induction l as [|c l IH].
  - intros _. change (EmptyString +:+ String newline s) with (String newline s).
    cbn [Split]. change (Ascii.eqb newline newline) with true. reflexivity.
  - rewrite hasNewline_String. intros H. apply orb_false_elim in H as [Hc Hl].
    change (String c l +:+ String newline s)
      with (String c (l +:+ String newline s)).
    cbn [Split]. rewrite Hc, (IH Hl). reflexivity.
Qed.

Lemma Split_Join lines :
  lines <> [] ->
  Forall (fun l => hasNewline l = false) lines ->
  Split (Join lines) = lines.
Proof.
  intros Hne Hall. induction Hall as [|l lines Hl Hall IH]; [contradiction|].
  destruct lines as [|l2 lines].
  - apply Split_no_newline. exact Hl.
  - change (Join (l :: l2 :: lines))
      with (l +:+ String newline (Join (l2 :: lines))).
    rewrite (Split_append_newline _ _ Hl), IH; [reflexivity | discriminate].
Qed.

Lemma Split_lines_no_newline raw :
  Forall (fun l => hasNewline l = false) (Split raw).
Proof.
  induction raw as [|c raw IH]; cbn [Split].
  - constructor; [reflexivity | constructor].
  - destruct (Ascii.eqb c newline) eqn:Hc.
    + constructor; [reflexivity | exact IH].
    + destruct (Split raw) as [|l ls].
      * constructor; [|constructor].
        rewrite hasNewline_String, Hc. reflexivity.
      * inversion IH as [|? ? Hl Hls]; subst.
        constructor; [|exact Hls].
        rewrite hasNewline_String, Hc. exact Hl.
Qed.

Lemma existsb_drop_false {A} (p : A -> bool) n l :
  existsb p l = false -> existsb p (drop n l) = false.
Proof.
  revert l. induction n as [|n IH]; intros l H; [rewrite drop_0; exact H|].
  destruct l as [|x l]; [reflexivity|]. simpl in *.
  apply orb_false_elim in H as [_ H]. apply IH. exact H.
Qed.

Lemma hasNewline_stripLeading n l :
  hasNewline l = false -> hasNewline (stripLeading n l) = false.
Proof.
  unfold hasNewline, stripLeading. rewrite chars_string_of_list.
  apply existsb_drop_false.
Qed.

Lemma dedentedLines_no_newline raw :
  Forall (fun l => hasNewline l = false) (dedentedLines raw).
Proof.
  unfold dedentedLines. pose proof (Split_lines_no_newline raw) as H.
  destruct (Split raw) as [|first others]; [constructor|].
  inversion H as [|? ? Hf Ho]; subst. constructor; [exact Hf|].
  apply Forall_map. eapply Forall_impl; [exact Ho|].
  intros l Hl. apply hasNewline_stripLeading. exact Hl.
Qed.

Lemma Forall_dropWhile {A} (P : A -> Prop) (p : A -> bool) l :
  Forall P l -> Forall P (dropWhile p l).
Proof.
  induction 1 as [|x l Hx Hl IH]; simpl; [constructor|].
  destruct (p x); [exact IH | constructor; assumption].
Qed.

Lemma rev_cons_last {A} (x : A) l :
  exists rest, rev (x :: l) = List.last l x :: rest.
Proof.
  revert x. induction l as [|y l IH]; intros x.
  - exists []. reflexivity.
  - destruct (IH y) as (rest & Hr).
    exists (rest ++ [x]).
    change (rev (x :: y :: l)) with (rev (y :: l) ++ [x]).
    rewrite Hr, last_cons_default. reflexivity.
Qed.

(** The result is empty, or its first and its last line are not blank:
    the normalizer leaves no blank line at either end. *)
Theorem blockString_has_no_blank_ends :
  forall raw,
    blockString raw = EmptyString
    \/ exists first rest,
         Split (blockString raw) = first :: rest
         /\ isBlank first = false
         /\ isBlank (List.last rest first) = false.
Proof.
  intros raw. rewrite blockString_as_lines.
  set (X := dropWhile isBlank (dedentedLines raw)).
  assert (HX : Forall (fun l => hasNewline l = false) X).
  { apply Forall_dropWhile, dedentedLines_no_newline. }
  pose proof (dropWhile_head isBlank (dedentedLines raw)) as Hhead.
  fold X in Hhead.
  destruct (trim_end_prefix X) as (blanks & Hsplit & _).
  pose proof (dropWhile_head isBlank (rev X)) as Hlast.
  set (D := dropWhile isBlank (rev X)) in *.
  destruct (rev D) as [|first rest] eqn:HT; [left; reflexivity|].
  right. exists first, rest. split; [|split].
  - apply Split_Join; [discriminate|].
    rewrite <- HT. apply Forall_rev, Forall_dropWhile, Forall_rev. exact HX.
  - rewrite Hsplit in Hhead. exact Hhead.
  - assert (HD : D = rev (first :: rest)) by (rewrite <- HT, rev_involutive; reflexivity).
    destruct (rev_cons_last first rest) as (tail & Htail).
    rewrite HD, Htail in Hlast. exact Hlast.
Qed.

(** A body of one line is returned as it is, indentation included, unless
    it is blank, in which case the result is empty. *)
Theorem blockString_of_a_single_line :
  forall raw,
    hasNewline raw = false ->
    blockString raw = if isBlank raw then EmptyString else raw.
Proof.
  intros raw H. rewrite blockString_as_lines. unfold dedentedLines.
  rewrite (Split_no_newline _ H). cbn [map dropWhile].
  destruct (isBlank raw) eqn:Hb; [reflexivity|].
  cbn [rev app dropWhile]. rewrite Hb. reflexivity.
Qed.

Lemma blockString_of_a_single_line_witness :
  blockString "   indented text" = "   indented text".
Proof.
  apply (blockString_of_a_single_line "   indented text"). reflexivity.
Defined.

(** * Properties of the lexer and of the parsers *)

Section ParserProperties.

Context {Scanner : Type} {scanner : TextScanner Scanner}.

(** ** Moving over significant tokens *)

Lemma lexerOn_inv (l : Lexer Scanner) tok rest :
  lexerOn l (tok :: rest) ->
  next l = kind tok /\ TokenText (sc l) = text tok
  /\ Position (sc l) = pos tok /\ produces (sc l) rest.
Proof. exact (fun H => H). Qed.

Lemma significant_eqb k :
  significant k -> (k =? chComma) = false /\ (k =? chHash) = false.
Proof. intros [H1 H2]. split; apply Z.eqb_neq; assumption. Qed.

Lemma ConsumeWhitespace_on (l : Lexer Scanner) tok more fuel :
  lexerOn l (tok :: more) -> more <> [] ->
  exists l',
    ConsumeWhitespace (S fuel) l = Done tt l'
    /\ lexerOn l' more
    /\ comment l' = EmptyString
    /\ useStringDescriptions l' = useStringDescriptions l.
Proof.
  intros (_ & _ & _ & Hp) Hmore.
  destruct more as [|tok2 rest]; [contradiction|].
  inversion Hp as [|s s' t ts Hscan Hsig Htext Hpos Hrest]; subst.
  destruct (significant_eqb _ Hsig) as [Hc Hh].
  unfold ConsumeWhitespace. cbn [whitespaceLoop withComment sc].
  rewrite Hscan, Hc, Hh.
  eexists. split; [reflexivity|].
  repeat split; cbn; auto.
Qed.

Lemma ConsumeToken_on (l : Lexer Scanner) tok more fuel expected :
  lexerOn l (tok :: more) -> more <> [] -> kind tok = expected ->
  exists l', ConsumeToken (S fuel) expected l = Done tt l' /\ lexerOn l' more.
Proof.
  intros Hl Hmore Hk. unfold ConsumeToken.
  destruct (lexerOn_inv _ _ _ Hl) as (Hnext & _).
  rewrite Hnext, Hk, Z.eqb_refl. cbn [negb].
  destruct (ConsumeWhitespace_on l tok more fuel Hl Hmore) as (l' & H & Hon & _).
  exists l'. auto.
Qed.

Lemma ConsumeIdent_on (l : Lexer Scanner) tok more fuel :
  lexerOn l (tok :: more) -> more <> [] -> kind tok = scanIdent ->
  exists l', ConsumeIdent (S fuel) l = Done (text tok) l' /\ lexerOn l' more.
Proof.
  intros Hl Hmore Hk. unfold ConsumeIdent.
  destruct (ConsumeToken_on l tok more fuel scanIdent Hl Hmore Hk) as (l' & -> & Hon).
  destruct (lexerOn_inv _ _ _ Hl) as (_ & Htext & _).
  exists l'. cbn. rewrite Htext. auto.
Qed.

Lemma ConsumeIdentWithLoc_on (l : Lexer Scanner) tok more fuel :
  lexerOn l (tok :: more) -> more <> [] -> kind tok = scanIdent ->
  exists l',
    ConsumeIdentWithLoc (S fuel) l
    = Done {| types.Name := text tok; types.Loc := pos tok |} l'
    /\ lexerOn l' more.
Proof.
  intros Hl Hmore Hk. unfold ConsumeIdentWithLoc.
  destruct (ConsumeToken_on l tok more fuel scanIdent Hl Hmore Hk) as (l' & -> & Hon).
  destruct (lexerOn_inv _ _ _ Hl) as (_ & Htext & Hpos & _).
  exists l'. cbn. unfold Location_. rewrite Htext, Hpos. auto.
Qed.

Lemma ConsumeLiteral_on (l : Lexer Scanner) tok more fuel :
  lexerOn l (tok :: more) -> more <> [] ->
  exists l',
    ConsumeLiteral (S fuel) l = Done (kind tok, text tok) l' /\ lexerOn l' more.
Proof.
  intros Hl Hmore. unfold ConsumeLiteral.
  destruct (ConsumeWhitespace_on l tok more fuel Hl Hmore) as (l' & -> & Hon & _).
  destruct (lexerOn_inv _ _ _ Hl) as (Hnext & Htext & _).
  exists l'. cbn. rewrite Hnext, Htext. auto.
Qed.

(** ** The cases of [ParseLiteral] *)

Lemma ParseLiteral_dollar fuel (l : Lexer Scanner) constOnly :
  Peek l = chDollar ->
  ParseLiteral (S fuel) l constOnly
  = if constOnly then SyntaxError "variable not allowed" l
    else
      andThen (ConsumeToken fuel chDollar l) (fun _ l1 =>
      andThen (ConsumeIdent fuel l1) (fun name l2 =>
      Done (types.VarValue name (Location_ l)) l2)).
Proof. intros H. cbn [ParseLiteral]. rewrite H. reflexivity. Qed.

Lemma ParseLiteral_literal fuel (l : Lexer Scanner) constOnly :
  literalClass (Peek l) ->
  ParseLiteral (S fuel) l constOnly
  = andThen (ConsumeLiteral fuel l) (fun lit l1 =>
      if (fst lit =? scanIdent) && String.eqb (snd lit) "null"
      then Done (types.NullValue (Location_ l)) l1
      else Done (types.PrimitiveValue (fst lit) (snd lit) (Location_ l)) l1).
Proof.
  intros H. cbn [ParseLiteral].
  destruct H as [H | [H | [H | H]]]; rewrite H; reflexivity.
Qed.

Lemma ParseLiteral_minus fuel (l : Lexer Scanner) constOnly :
  Peek l = chMinus ->
  ParseLiteral (S fuel) l constOnly
  = andThen (ConsumeToken fuel chMinus l) (fun _ l1 =>
    andThen (ConsumeLiteral fuel l1) (fun lit l2 =>
    Done (types.PrimitiveValue (fst lit) ("-" +:+ snd lit) (Location_ l)) l2)).
Proof. intros H. cbn [ParseLiteral]. rewrite H. reflexivity. Qed.

Lemma ParseLiteral_list fuel (l : Lexer Scanner) constOnly :
  Peek l = chLBracket ->
  ParseLiteral (S fuel) l constOnly
  = andThen (ConsumeToken fuel chLBracket l) (fun _ l1 =>
    andThen (listLoop (fun l => ParseLiteral fuel l constOnly) fuel l1 [])
      (fun values l2 =>
    andThen (ConsumeToken fuel chRBracket l2) (fun _ l3 =>
    Done (types.ListValue values (Location_ l)) l3))).
Proof. intros H. cbn [ParseLiteral]. rewrite H. reflexivity. Qed.

Lemma ParseLiteral_object fuel (l : Lexer Scanner) constOnly :
  Peek l = chLBrace ->
  ParseLiteral (S fuel) l constOnly
  = andThen (ConsumeToken fuel chLBrace l) (fun _ l1 =>
    andThen (fieldLoop (fun l => ParseLiteral fuel l constOnly) fuel fuel l1 [])
      (fun fields l2 =>
    andThen (ConsumeToken fuel chRBrace l2) (fun _ l3 =>
    Done (types.ObjectValue fields (Location_ l)) l3))).
Proof. intros H. cbn [ParseLiteral]. rewrite H. reflexivity. Qed.

Lemma spells_starts constOnly v toks :
  spells constOnly v toks ->
  exists h tl, toks = h :: tl /\ startsValue (kind h).
Proof.
  unfold startsValue, literalClass.
  intros H.
  destruct H as [dollar name _ Hd _ | lit Hc _ | lit Hk _ | minus lit Hm
                 | open close values toks Ho _ _ | open close fields toks Ho _ _];
    eexists; eexists; (split; [reflexivity|]).
  - rewrite Hd. tauto.
  - unfold literalClass in Hc. tauto.
  - rewrite Hk. tauto.
  - rewrite Hm. tauto.
  - rewrite Ho. tauto.
  - rewrite Ho. tauto.
Qed.

Lemma startsValue_not_close k :
  startsValue k -> (k =? chRBracket) = false /\ (k =? chRBrace) = false.
Proof.
  unfold startsValue.
  intros [-> | [-> | [-> | [-> | [-> | [-> | [-> | ->]]]]]]]; split; reflexivity.
Qed.

End ParserProperties.

Section ReadingValues.

Context {Scanner : Type} {scanner : TextScanner Scanner}.

Lemma more_nonempty {A} (xs : list A) (x : A) (ys : list A) : xs ++ x :: ys <> [].
Proof. destruct xs; discriminate. Qed.

Lemma still_nonempty {A} (xs ys : list A) : ys <> [] -> xs ++ ys <> [].
Proof. destruct xs; [auto | discriminate]. Qed.

Lemma listLoop_on constOnly bound rec vs toks :
  spellsAll constOnly vs toks ->
  readsBack constOnly bound rec ->
  (length toks < bound)%nat ->
  forall n (l : Lexer Scanner) acc close more,
    (length vs < n)%nat ->
    kind close = chRBracket ->
    lexerOn l (toks ++ close :: more) ->
    exists l', listLoop rec n l acc = Done (acc ++ vs) l'
               /\ lexerOn l' (close :: more).
Proof.
  intros Hsp Hrec. induction Hsp as [|v vs toks toks' Hv Hvs IH];
    intros Hlen n l acc close more Hn Hclose Hl;
    (destruct n as [|n]; [simpl in Hn; lia|]); cbn [listLoop].
  - destruct (lexerOn_inv _ _ _ Hl) as (Hnext & _).
    unfold Peek. rewrite Hnext, Hclose, Z.eqb_refl. cbn [negb].
    exists l. rewrite app_nil_r. auto.
  - rewrite length_app in Hlen. rewrite <- app_assoc in Hl.
    destruct (spells_starts _ _ _ Hv) as (h & tl & -> & Hstart).
    destruct (lexerOn_inv _ _ _ Hl) as (Hnext & _).
    unfold Peek. rewrite Hnext.
    rewrite (proj1 (startsValue_not_close _ Hstart)). cbn [negb].
    destruct (Hrec v (h :: tl) l (toks' ++ close :: more) Hv ltac:(lia) Hl
                (more_nonempty _ _ _)) as (l1 & -> & Hl1).
    cbn [andThen].
    destruct (IH ltac:(lia) n l1 (acc ++ [v]) close more ltac:(simpl in Hn; lia)
                Hclose Hl1) as (l2 & -> & Hl2).
    exists l2. rewrite <- app_assoc. auto.
Qed.

Lemma fieldLoop_on constOnly bound rec fields toks :
  spellsFields constOnly fields toks ->
  readsBack constOnly bound rec ->
  (length toks < bound)%nat ->
  forall fuel n (l : Lexer Scanner) acc close more,
    (length fields < n)%nat ->
    kind close = chRBrace ->
    lexerOn l (toks ++ close :: more) ->
    exists l', fieldLoop rec (S fuel) n l acc = Done (acc ++ fields) l'
               /\ lexerOn l' (close :: more).
Proof.
  intros Hsp Hrec.
  induction Hsp as [|name colon v fields toks toks' Hname Hcolon Hv Hfs IH];
    intros Hlen fuel n l acc close more Hn Hclose Hl;
    (destruct n as [|n]; [simpl in Hn; lia|]); cbn [fieldLoop].
  - destruct (lexerOn_inv _ _ _ Hl) as (Hnext & _).
    unfold Peek. rewrite Hnext, Hclose, Z.eqb_refl. cbn [negb].
    exists l. rewrite app_nil_r. auto.
  - cbn [length] in Hlen. rewrite length_app in Hlen.
    change ((name :: colon :: toks ++ toks') ++ close :: more)
      with (name :: colon :: (toks ++ toks') ++ close :: more) in Hl.
    rewrite <- app_assoc in Hl.
    destruct (lexerOn_inv _ _ _ Hl) as (Hnext & _).
    unfold Peek. rewrite Hnext, Hname. change (scanIdent =? chRBrace) with false.
    cbn [negb].
    destruct (ConsumeIdentWithLoc_on l name _ fuel Hl ltac:(discriminate) Hname)
      as (l1 & -> & Hl1).
    cbn [andThen].
    destruct (ConsumeToken_on l1 colon _ fuel chColon Hl1
                (still_nonempty _ _ (more_nonempty _ _ _)) Hcolon)
      as (l2 & -> & Hl2).
    cbn [andThen].
    destruct (Hrec v toks l2 (toks' ++ close :: more) Hv ltac:(lia) Hl2
                (more_nonempty _ _ _)) as (l3 & -> & Hl3).
    cbn [andThen].
    destruct (IH ltac:(lia) fuel n l3
                (acc ++ [({| types.Name := text name; types.Loc := pos name |}, v)])
                close more
                ltac:(simpl in Hn; lia) Hclose Hl3) as (l4 & -> & Hl4).
    exists l4. rewrite <- app_assoc. auto.
Qed.

Lemma spellsAll_length constOnly vs toks :
  spellsAll constOnly vs toks -> (length vs <= length toks)%nat.
Proof.
  induction 1 as [|v vs toks toks' Hv _ IH]; [reflexivity|].
  destruct (spells_starts _ _ _ Hv) as (h & tl & -> & _).
  rewrite length_app. simpl. lia.
Qed.

Lemma spellsFields_length constOnly fields toks :
  spellsFields constOnly fields toks -> (length fields <= length toks)%nat.
Proof.
  induction 1 as [|name colon v fields toks toks' _ _ _ _ IH]; [reflexivity|].
  simpl. rewrite length_app. lia.
Qed.

Lemma ParseLiteral_readsBack constOnly fuel :
  readsBack constOnly fuel (fun l => ParseLiteral fuel l constOnly).
Proof.
  induction fuel as [|fuel IH]; intros v toks l more Hsp Hlen Hl Hmore;
    [lia|].
  destruct Hsp as [dollar name Hc Hd Hn | lit Hc Hnull | lit Hk Ht | minus lit Hm
                   | open close values toks Ho Hcl Hvs
                   | open close fields toks Ho Hcl Hfs].
  - (* a variable *)
    destruct (lexerOn_inv _ _ _ Hl) as (Hnext & _ & Hpos & _).
    rewrite ParseLiteral_dollar by (unfold Peek; congruence). rewrite Hc.
    destruct fuel as [|fuel]; [simpl in Hlen; lia|].
    destruct (ConsumeToken_on l dollar _ fuel chDollar Hl ltac:(discriminate) Hd)
      as (l1 & -> & Hl1).
    cbn [andThen].
    destruct (ConsumeIdent_on l1 name more fuel Hl1 Hmore Hn) as (l2 & -> & Hl2).
    cbn [andThen]. unfold Location_. rewrite Hpos. eauto.
  - (* a literal *)
    destruct (lexerOn_inv _ _ _ Hl) as (Hnext & _ & Hpos & _).
    rewrite ParseLiteral_literal by (unfold Peek; rewrite Hnext; exact Hc).
    destruct fuel as [|fuel]; [simpl in Hlen; lia|].
    destruct (ConsumeLiteral_on l lit more fuel Hl Hmore) as (l1 & -> & Hl1).
    cbn [andThen fst snd]. unfold Location_. rewrite Hpos.
    destruct ((kind lit =? scanIdent) && String.eqb (text lit) "null") eqn:Hn.
    + exfalso. apply andb_prop in Hn as [H1 H2]. apply Hnull.
      split; [apply Z.eqb_eq; exact H1 | apply String.eqb_eq; exact H2].
    + eauto.
  - (* null *)
    destruct (lexerOn_inv _ _ _ Hl) as (Hnext & _ & Hpos & _).
    rewrite ParseLiteral_literal
      by (unfold Peek, literalClass; rewrite Hnext, Hk; tauto).
    destruct fuel as [|fuel]; [simpl in Hlen; lia|].
    destruct (ConsumeLiteral_on l lit more fuel Hl Hmore) as (l1 & -> & Hl1).
    cbn [andThen fst snd]. unfold Location_. rewrite Hpos, Hk, Ht.
    eauto.
  - (* a minus sign and one token *)
    destruct (lexerOn_inv _ _ _ Hl) as (Hnext & _ & Hpos & _).
    rewrite ParseLiteral_minus by (unfold Peek; congruence).
    destruct fuel as [|fuel]; [simpl in Hlen; lia|].
    destruct (ConsumeToken_on l minus _ fuel chMinus Hl ltac:(discriminate) Hm)
      as (l1 & -> & Hl1).
    cbn [andThen].
    destruct (ConsumeLiteral_on l1 lit more fuel Hl1 Hmore) as (l2 & -> & Hl2).
    cbn [andThen fst snd]. unfold Location_. rewrite Hpos. eauto.
  - (* a list *)
    destruct (lexerOn_inv _ _ _ Hl) as (Hnext & _ & Hpos & _).
    rewrite ParseLiteral_list by (unfold Peek; congruence).
    cbn [length] in Hlen. rewrite length_app in Hlen. cbn [length] in Hlen.
    destruct fuel as [|fuel]; [lia|].
    change ((open :: toks ++ [close]) ++ more)
      with (open :: (toks ++ [close]) ++ more) in Hl.
    rewrite <- app_assoc in Hl. cbn [app] in Hl.
    destruct (ConsumeToken_on l open _ fuel chLBracket Hl
                (more_nonempty _ _ _) Ho) as (l1 & -> & Hl1).
    cbn [andThen].
    pose proof (spellsAll_length _ _ _ Hvs) as Hcount.
    destruct (listLoop_on constOnly (S fuel) _ values toks Hvs IH ltac:(lia)
                (S fuel) l1 [] close more ltac:(lia) Hcl Hl1)
      as (l2 & -> & Hl2).
    cbn [andThen app].
    destruct (ConsumeToken_on l2 close more fuel chRBracket Hl2 Hmore Hcl)
      as (l3 & -> & Hl3).
    cbn [andThen]. unfold Location_. rewrite Hpos. eauto.
  - (* an object *)
    destruct (lexerOn_inv _ _ _ Hl) as (Hnext & _ & Hpos & _).
    rewrite ParseLiteral_object by (unfold Peek; congruence).
    cbn [length] in Hlen. rewrite length_app in Hlen. cbn [length] in Hlen.
    destruct fuel as [|fuel]; [lia|].
    change ((open :: toks ++ [close]) ++ more)
      with (open :: (toks ++ [close]) ++ more) in Hl.
    rewrite <- app_assoc in Hl. cbn [app] in Hl.
    destruct (ConsumeToken_on l open _ fuel chLBrace Hl
                (more_nonempty _ _ _) Ho) as (l1 & -> & Hl1).
    cbn [andThen].
    pose proof (spellsFields_length _ _ _ Hfs) as Hcount.
    destruct (fieldLoop_on constOnly (S fuel) _ fields toks Hfs IH ltac:(lia)
                fuel (S fuel) l1 [] close more ltac:(lia) Hcl Hl1)
      as (l2 & -> & Hl2).
    cbn [andThen app].
    destruct (ConsumeToken_on l2 close more fuel chRBrace Hl2 Hmore Hcl)
      as (l3 & -> & Hl3).
    cbn [andThen]. unfold Location_. rewrite Hpos. eauto.
Qed.

(** [ParseLiteral] reads back every value from the tokens that spell it:
    standing on the first of them, with any token after the last, it
    returns the value, locations included, and stops on the token after.
    With [constOnly] set this holds for the values written without
    variables. *)
Theorem ParseLiteral_reads_back :
  forall constOnly v toks (l : Lexer Scanner) more fuel,
    spells constOnly v toks ->
    (length toks < fuel)%nat ->
    lexerOn l (toks ++ more) ->
    more <> [] ->
    exists l', ParseLiteral fuel l constOnly = Done v l' /\ lexerOn l' more.
Proof.
  intros constOnly v toks l more fuel Hsp Hlen Hl Hmore.
  exact (ParseLiteral_readsBack constOnly fuel v toks l more Hsp Hlen Hl Hmore).
Qed.

End ReadingValues.


Lemma ParseLiteral_reads_back_witness :
  exists l',
    ParseLiteral 10 (lexerAt (token chLBracket "[" 1)
                       (tl sampleValueTokens ++ [endOfInput 12]) []) false
    = Done sampleValue l'
    /\ lexerOn l' [endOfInput 12].
Proof.
  apply (ParseLiteral_reads_back false sampleValue sampleValueTokens
           (lexerAt (token chLBracket "[" 1)
              (tl sampleValueTokens ++ [endOfInput 12]) [])
           [endOfInput 12] 10).
  - apply (spells_list false (token chLBracket "[" 1) (token chRBracket "]" 11)
             _ [token scanInt "1" 2; token chLBrace "{" 4;
                token scanIdent "a" 5; token chColon ":" 6; token chDollar "$" 8;
                token scanIdent "x" 9; token chRBrace "}" 10]);
      [reflexivity | reflexivity |].
    apply (spellsAll_cons false _ _ [token scanInt "1" 2]
             [token chLBrace "{" 4; token scanIdent "a" 5; token chColon ":" 6;
              token chDollar "$" 8; token scanIdent "x" 9;
              token chRBrace "}" 10]).
    + apply (spells_primitive false (token scanInt "1" 2)).
      * left. reflexivity.
      * intros [H _]. discriminate H.
    + apply (spellsAll_cons false _ _
               [token chLBrace "{" 4; token scanIdent "a" 5; token chColon ":" 6;
                token chDollar "$" 8; token scanIdent "x" 9;
                token chRBrace "}" 10] []); [|apply spellsAll_nil].
      apply (spells_object false (token chLBrace "{" 4) (token chRBrace "}" 10)
               _ [token scanIdent "a" 5; token chColon ":" 6;
                  token chDollar "$" 8; token scanIdent "x" 9]);
        [reflexivity | reflexivity |].
      apply (spellsFields_cons false (token scanIdent "a" 5)
               (token chColon ":" 6) _ []
               [token chDollar "$" 8; token scanIdent "x" 9] []);
        [reflexivity | reflexivity | | apply spellsFields_nil].
      apply (spells_variable false (token chDollar "$" 8)
               (token scanIdent "x" 9)); reflexivity.
  - simpl. lia.
  - repeat split;
      repeat (eapply produces_cons;
              [reflexivity | split; discriminate | reflexivity | reflexivity |]);
      apply produces_nil.
  - discriminate.
Defined.


Section ConstantValues.

Context {Scanner : Type} {scanner : TextScanner Scanner}.

Lemma andThen_Done_inv {L A B} (m : result L A) (k : A -> L -> result L B) b l' :
  andThen m k = Done b l' ->
  exists a l1, m = Done a l1 /\ k a l1 = Done b l'.
Proof. destruct m; cbn; try discriminate. eauto. Qed.

Lemma existsb_snoc {A} (f : A -> bool) xs x :
  existsb f (xs ++ [x]) = existsb f xs || f x.
Proof. rewrite existsb_app. cbn. rewrite orb_false_r. reflexivity. Qed.

Lemma listLoop_constant
    (rec : Lexer Scanner -> result (Lexer Scanner) types.Value) :
  (forall l v l', rec l = Done v l' -> hasVariable v = false) ->
  forall n l acc vs l',
    existsb hasVariable acc = false ->
    listLoop rec n l acc = Done vs l' ->
    existsb hasVariable vs = false.
Proof.
  intros Hrec. induction n as [|n IH]; intros l acc vs l' Hacc H;
    cbn [listLoop] in H; [discriminate|].
  destruct (negb (Peek l =? chRBracket)).
  - apply andThen_Done_inv in H as (v & l1 & Hv & H).
    eapply IH; [|exact H].
    rewrite existsb_snoc, Hacc, (Hrec _ _ _ Hv). reflexivity.
  - congruence.
Qed.

Lemma fieldLoop_constant
    (rec : Lexer Scanner -> result (Lexer Scanner) types.Value) fuel :
  (forall l v l', rec l = Done v l' -> hasVariable v = false) ->
  forall n l acc fields l',
    existsb (fun f => hasVariable (snd f)) acc = false ->
    fieldLoop rec fuel n l acc = Done fields l' ->
    existsb (fun f => hasVariable (snd f)) fields = false.
Proof.
  intros Hrec. induction n as [|n IH]; intros l acc fields l' Hacc H;
    cbn [fieldLoop] in H; [discriminate|].
  destruct (negb (Peek l =? chRBrace)).
  - apply andThen_Done_inv in H as (name & l1 & _ & H).
    apply andThen_Done_inv in H as (u & l2 & _ & H).
    apply andThen_Done_inv in H as (v & l3 & Hv & H).
    eapply IH; [|exact H].
    rewrite existsb_snoc, Hacc. cbn [snd]. rewrite (Hrec _ _ _ Hv). reflexivity.
  - congruence.
Qed.

Lemma ParseLiteral_constant :
  forall fuel (l : Lexer Scanner) v l',
    ParseLiteral fuel l true = Done v l' -> hasVariable v = false.
Proof.
  induction fuel as [|fuel IH]; intros l v l' H; cbn [ParseLiteral] in H;
    [discriminate|].
  cbv zeta in H.
  destruct (Peek l =? chDollar); [discriminate|].
  destruct ((Peek l =? scanInt) || (Peek l =? scanFloat)
            || (Peek l =? scanString) || (Peek l =? scanIdent)).
  { apply andThen_Done_inv in H as (lit & l1 & _ & H).
    destruct ((fst lit =? scanIdent) && String.eqb (snd lit) "null");
      inversion H; reflexivity. }
  destruct (Peek l =? chMinus).
  { apply andThen_Done_inv in H as (u & l1 & _ & H).
    apply andThen_Done_inv in H as (lit & l2 & _ & H).
    inversion H; reflexivity. }
  destruct (Peek l =? chLBracket).
  { apply andThen_Done_inv in H as (u & l1 & _ & H).
    apply andThen_Done_inv in H as (values & l2 & Hvs & H).
    apply andThen_Done_inv in H as (u' & l3 & _ & H).
    inversion H; subst. cbn [hasVariable].
    eapply (listLoop_constant _ IH); [|exact Hvs]. reflexivity. }
  destruct (Peek l =? chLBrace).
  { apply andThen_Done_inv in H as (u & l1 & _ & H).
    apply andThen_Done_inv in H as (fields & l2 & Hfs & H).
    apply andThen_Done_inv in H as (u' & l3 & _ & H).
    inversion H; subst. cbn [hasVariable].
    eapply (fieldLoop_constant _ _ IH); [|exact Hfs]. reflexivity. }
  discriminate.
Qed.

(** With [constOnly] set, [ParseLiteral] never returns a value that holds
    a variable, however deep inside lists and objects: wherever it
    returns, the value is free of variables. *)
Theorem ParseLiteral_constOnly_has_no_variable :
  forall fuel (l : Lexer Scanner) v l',
    ParseLiteral fuel l true = Done v l' -> hasVariable v = false.
Proof. exact ParseLiteral_constant. Qed.

End ConstantValues.

Lemma ParseLiteral_constOnly_has_no_variable_witness :
  ParseLiteral 10 (lexerAt (token chLBracket "[" 1) constantValueTokens []) true
  = Done constantValue (lexerAt (endOfInput 12) [] [])
  /\ hasVariable constantValue = false.
Proof.
  assert (H : ParseLiteral 10
                (lexerAt (token chLBracket "[" 1) constantValueTokens []) true
              = Done constantValue (lexerAt (endOfInput 12) [] []))
    by reflexivity.
  split; [exact H|].
  exact (ParseLiteral_constOnly_has_no_variable 10 _ _ _ H).
Defined.


Section ReadingTypes.

Context {Scanner : Type} {scanner : TextScanner Scanner}.

Lemma spellsNullable_nonempty t toks :
  spellsNullable t toks -> exists h tl, toks = h :: tl.
Proof. destruct 1; eauto. Qed.

Lemma ParseType_on fuel :
  forall t toks (l : Lexer Scanner) after rest,
    spellsType t toks ->
    (length toks < fuel)%nat ->
    lexerOn l (toks ++ after :: rest) ->
    kind after <> chBang ->
    exists l', ParseType fuel l = Done t l' /\ lexerOn l' (after :: rest).
Proof.
  induction fuel as [|fuel IH]; intros t toks l after rest Hsp Hlen Hl Hafter;
    [lia|].
  (* the nullable part, followed by any tokens *)
  assert (Hnull : forall t toks (l : Lexer Scanner) more,
             spellsNullable t toks -> (length toks <= fuel)%nat ->
             lexerOn l (toks ++ more) -> more <> [] ->
             exists l', parseNullType (ParseType fuel) fuel l = Done t l'
                        /\ lexerOn l' more).
  { clear t toks l after rest Hsp Hlen Hl Hafter.
    intros t toks l more Hsp Hlen Hl Hmore. unfold parseNullType.
    destruct Hsp as [name Hname | open close t toks Ho Hc Ht].
    - destruct (lexerOn_inv _ _ _ Hl) as (Hnext & _).
      unfold Peek. rewrite Hnext, Hname.
      change (scanIdent =? chLBracket) with false. cbv iota.
      destruct fuel as [|fuel]; [simpl in Hlen; lia|].
      destruct (ConsumeIdentWithLoc_on l name more fuel Hl Hmore Hname)
        as (l1 & -> & Hl1).
      cbn [andThen types.Name types.Loc]. eauto.
    - destruct (lexerOn_inv _ _ _ Hl) as (Hnext & _).
      unfold Peek. rewrite Hnext, Ho, Z.eqb_refl.
      cbn [length] in Hlen. rewrite length_app in Hlen. cbn [length] in Hlen.
      destruct fuel as [|fuel]; [lia|].
      change ((open :: toks ++ [close]) ++ more)
        with (open :: (toks ++ [close]) ++ more) in Hl.
      rewrite <- app_assoc in Hl. cbn [app] in Hl.
      destruct (ConsumeToken_on l open _ fuel chLBracket Hl
                  (more_nonempty _ _ _) Ho) as (l1 & -> & Hl1).
      cbn [andThen].
      destruct (IH t toks l1 close more Ht ltac:(lia) Hl1
                  ltac:(rewrite Hc; discriminate)) as (l2 & -> & Hl2).
      cbn [andThen].
      destruct (ConsumeToken_on l2 close more fuel chRBracket Hl2 Hmore Hc)
        as (l3 & -> & Hl3).
      cbn [andThen]. eauto. }
  cbn [ParseType].
  destruct Hsp as [t toks Ht | t toks bang Ht Hbang].
  - destruct (Hnull t toks l (after :: rest) Ht ltac:(lia) Hl
                ltac:(discriminate)) as (l1 & -> & Hl1).
    cbn [andThen].
    destruct (lexerOn_inv _ _ _ Hl1) as (Hnext & _).
    unfold Peek. rewrite Hnext.
    destruct (Z.eqb_spec (kind after) chBang); [contradiction|]. eauto.
  - rewrite length_app in Hlen. cbn [length] in Hlen.
    rewrite <- app_assoc in Hl. cbn [app] in Hl.
    destruct (Hnull t toks l (bang :: after :: rest) Ht ltac:(lia) Hl
                ltac:(discriminate)) as (l1 & -> & Hl1).
    cbn [andThen].
    destruct (lexerOn_inv _ _ _ Hl1) as (Hnext & _).
    unfold Peek. rewrite Hnext, Hbang, Z.eqb_refl.
    destruct (spellsNullable_nonempty _ _ Ht) as (h & tl & ->).
    destruct fuel as [|fuel]; [simpl in Hlen; lia|].
    destruct (ConsumeToken_on l1 bang _ fuel chBang Hl1 ltac:(discriminate)
                Hbang) as (l2 & -> & Hl2).
    cbn [andThen]. eauto.
Qed.

(** [ParseType] reads back every type from the tokens that spell it,
    provided the token after them is not an exclamation mark: it returns
    the type, with the location of its name, and stops on the token
    after. *)
Theorem ParseType_reads_back :
  forall t toks (l : Lexer Scanner) after rest fuel,
    spellsType t toks ->
    (length toks < fuel)%nat ->
    lexerOn l (toks ++ after :: rest) ->
    kind after <> chBang ->
    exists l', ParseType fuel l = Done t l' /\ lexerOn l' (after :: rest).
Proof.
  intros t toks l after rest fuel.
  exact (ParseType_on fuel t toks l after rest).
Qed.

Lemma parseNullType_shape rec fuel (l : Lexer Scanner) t l' :
  (forall l t l', rec l = Done t l' -> parsedShape t = true) ->
  parseNullType rec fuel l = Done t l' ->
  parsedShape t = true /\ (forall ofType, t <> TNonNull ofType).
Proof.
  intros Hrec H. unfold parseNullType in H.
  destruct (Peek l =? chLBracket).
  - apply andThen_Done_inv in H as (u & l1 & _ & H).
    apply andThen_Done_inv in H as (ofType & l2 & Ht & H).
    apply andThen_Done_inv in H as (u' & l3 & _ & H).
    inversion H; subst. split; [exact (Hrec _ _ _ Ht) | discriminate].
  - apply andThen_Done_inv in H as (ident & l1 & _ & H).
    inversion H; subst. split; [reflexivity | discriminate].
Qed.

Lemma ParseType_shape :
  forall fuel (l : Lexer Scanner) t l',
    ParseType fuel l = Done t l' -> parsedShape t = true.
Proof.
  induction fuel as [|fuel IH]; intros l t l' H; cbn [ParseType] in H;
    [discriminate|].
  apply andThen_Done_inv in H as (t0 & l1 & Ht0 & H).
  destruct (parseNullType_shape _ _ _ _ _ IH Ht0) as (Hshape & Hnot).
  destruct (Peek l1 =? chBang).
  - apply andThen_Done_inv in H as (u & l2 & _ & H).
    inversion H; subst. cbn [parsedShape].
    destruct t0; try exact Hshape. exfalso. exact (Hnot _ eq_refl).
  - inversion H; subst. exact Hshape.
Qed.

(** Whatever the tokens, a type returned by [ParseType] has a name at its
    bottom and never a non-null type directly inside a non-null type. *)
Theorem ParseType_returns_a_well_formed_type :
  forall fuel (l : Lexer Scanner) t l',
    ParseType fuel l = Done t l' -> parsedShape t = true.
Proof. exact ParseType_shape. Qed.

End ReadingTypes.

Lemma ParseType_reads_back_witness :
  exists l',
    ParseType 10 (lexerAt (token chLBracket "[" 1)
                    (tl sampleTypeTokens ++ [endOfInput 8]) [])
    = Done sampleType l'
    /\ lexerOn l' [endOfInput 8].
Proof.
  apply (ParseType_reads_back sampleType sampleTypeTokens
           (lexerAt (token chLBracket "[" 1)
              (tl sampleTypeTokens ++ [endOfInput 8]) [])
           (endOfInput 8) [] 10).
  - apply (spellsType_nonNull (TList (TNonNull (TypeName "Int" (at_ 2))))
             [token chLBracket "[" 1; token scanIdent "Int" 2;
              token chBang "!" 5; token chRBracket "]" 6]
             (token chBang "!" 7)); [|reflexivity].
    apply (spellsNullable_list (token chLBracket "[" 1)
             (token chRBracket "]" 6) _
             [token scanIdent "Int" 2; token chBang "!" 5]);
      [reflexivity | reflexivity |].
    apply (spellsType_nonNull (TypeName "Int" (at_ 2))
             [token scanIdent "Int" 2] (token chBang "!" 5)); [|reflexivity].
    apply (spellsNullable_name (token scanIdent "Int" 2)). reflexivity.
  - simpl. lia.
  - repeat split;
      repeat (eapply produces_cons;
              [reflexivity | split; discriminate | reflexivity | reflexivity |]);
      apply produces_nil.
  - discriminate.
Defined.

Lemma ParseType_returns_a_well_formed_type_witness :
  ParseType 10 (lexerAt (token chLBracket "[" 1)
                  (tl sampleTypeTokens ++ [endOfInput 8]) [])
  = Done sampleType (lexerAt (endOfInput 8) [] [])
  /\ parsedShape sampleType = true.
Proof.
  assert (H : ParseType 10 (lexerAt (token chLBracket "[" 1)
                              (tl sampleTypeTokens ++ [endOfInput 8]) [])
              = Done sampleType (lexerAt (endOfInput 8) [] []))
    by reflexivity.
  split; [exact H|].
  exact (ParseType_returns_a_well_formed_type 10 _ _ _ H).
Defined.


Section ReadingArguments.

Context {Scanner : Type} {scanner : TextScanner Scanner}.

Lemma spellsArguments_length args toks :
  spellsArguments args toks -> (length args <= length toks)%nat.
Proof.
  induction 1 as [|name colon v args toks toks' _ _ _ _ IH]; [reflexivity|].
  simpl. rewrite length_app. lia.
Qed.

Lemma argumentLoop_on args toks :
  spellsArguments args toks ->
  forall fuel n (l : Lexer Scanner) acc close more,
    (length toks < S fuel)%nat ->
    (length args < n)%nat ->
    kind close = chRParen ->
    lexerOn l (toks ++ close :: more) ->
    exists l', argumentLoop (S fuel) n l acc = Done (acc ++ args) l'
               /\ lexerOn l' (close :: more).
Proof.
  induction 1 as [|name colon v args toks toks' Hname Hcolon Hv Hargs IH];
    intros fuel n l acc close more Hlen Hn Hclose Hl;
    (destruct n as [|n]; [simpl in Hn; lia|]); cbn [argumentLoop].
  - destruct (lexerOn_inv _ _ _ Hl) as (Hnext & _).
    unfold Peek. rewrite Hnext, Hclose, Z.eqb_refl. cbn [negb].
    exists l. rewrite app_nil_r. auto.
  - cbn [length] in Hlen. rewrite length_app in Hlen.
    change ((name :: colon :: toks ++ toks') ++ close :: more)
      with (name :: colon :: (toks ++ toks') ++ close :: more) in Hl.
    rewrite <- app_assoc in Hl.
    destruct (lexerOn_inv _ _ _ Hl) as (Hnext & _).
    unfold Peek. rewrite Hnext, Hname. change (scanIdent =? chRParen) with false.
    cbn [negb].
    destruct (ConsumeIdentWithLoc_on l name _ fuel Hl ltac:(discriminate) Hname)
      as (l1 & -> & Hl1).
    cbn [andThen].
    destruct (ConsumeToken_on l1 colon _ fuel chColon Hl1
                (still_nonempty _ _ (more_nonempty _ _ _)) Hcolon)
      as (l2 & -> & Hl2).
    cbn [andThen].
    destruct (ParseLiteral_readsBack false (S fuel) v toks l2
                (toks' ++ close :: more) Hv ltac:(lia) Hl2
                (more_nonempty _ _ _)) as (l3 & -> & Hl3).
    cbn [andThen].
    destruct (IH fuel n l3
                (acc ++ [ {| types.ArgName :=
                               {| types.Name := text name;
                                  types.Loc := pos name |};
                             types.ArgValue := v |} ])
                close more ltac:(lia) ltac:(simpl in Hn; lia) Hclose Hl3)
      as (l4 & -> & Hl4).
    exists l4. rewrite <- app_assoc. auto.
Qed.

Lemma ParseArgumentList_on args toks open close (l : Lexer Scanner) more fuel :
  kind open = chLParen ->
  kind close = chRParen ->
  spellsArguments args toks ->
  (length toks < fuel)%nat ->
  lexerOn l (open :: toks ++ close :: more) ->
  more <> [] ->
  exists l', ParseArgumentList fuel l = Done args l' /\ lexerOn l' more.
Proof.
  intros Ho Hc Hargs Hlen Hl Hmore.
  destruct fuel as [|fuel]; [lia|]. unfold ParseArgumentList.
  destruct (ConsumeToken_on l open _ fuel chLParen Hl (more_nonempty _ _ _) Ho)
    as (l1 & -> & Hl1).
  cbn [andThen].
  pose proof (spellsArguments_length _ _ Hargs) as Hcount.
  destruct (argumentLoop_on args toks Hargs fuel (S fuel) l1 [] close more
              Hlen ltac:(lia) Hc Hl1) as (l2 & -> & Hl2).
  cbn [andThen app].
  destruct (ConsumeToken_on l2 close more fuel chRParen Hl2 Hmore Hc)
    as (l3 & -> & Hl3).
  cbn [andThen]. eauto.
Qed.

(** [ParseArgumentList] reads back every argument list, the empty one
    included, from its parentheses and the tokens that spell the
    arguments between them: it returns the arguments in order, variables
    allowed, and stops on the token after the closing parenthesis. *)
Theorem ParseArgumentList_reads_back :
  forall args toks open close (l : Lexer Scanner) more fuel,
    kind open = chLParen ->
    kind close = chRParen ->
    spellsArguments args toks ->
    (length toks < fuel)%nat ->
    lexerOn l (open :: toks ++ close :: more) ->
    more <> [] ->
    exists l', ParseArgumentList fuel l = Done args l' /\ lexerOn l' more.
Proof.
  intros args toks open close l more fuel.
  exact (ParseArgumentList_on args toks open close l more fuel).
Qed.

Lemma spellsDirectives_starts directives h tl :
  spellsDirectives directives (h :: tl) -> kind h = chAt.
Proof. inversion 1; assumption. Qed.

Lemma spellsDirectives_length directives toks :
  spellsDirectives directives toks -> (length directives <= length toks)%nat.
Proof.
  induction 1 as [| sign name directives toks' _ _ _ IH
                  | sign name open close args directives toks toks'
                      _ _ _ _ _ _ IH]; [reflexivity| |].
  - simpl. lia.
  - simpl. rewrite length_app. simpl. lia.
Qed.

Lemma directiveLoop_on directives toks :
  spellsDirectives directives toks ->
  forall fuel n (l : Lexer Scanner) acc after rest,
    (length toks < S fuel)%nat ->
    (length directives < n)%nat ->
    kind after <> chAt ->
    kind after <> chLParen ->
    lexerOn l (toks ++ after :: rest) ->
    exists l', directiveLoop (S fuel) n l acc = Done (acc ++ directives) l'
               /\ lexerOn l' (after :: rest).
Proof.
  induction 1 as [| sign name directives toks' Hsign Hname Hrest IH
                  | sign name open close args directives toks toks'
                      Hsign Hname Hopen Hclose Hargs Hrest IH];
    intros fuel n l acc after rest Hlen Hn Hat Hparen Hl;
    (destruct n as [|n]; [simpl in Hn; lia|]); cbn [directiveLoop].
  - destruct (lexerOn_inv _ _ _ Hl) as (Hnext & _).
    unfold Peek. rewrite Hnext.
    destruct (Z.eqb_spec (kind after) chAt); [contradiction|].
    exists l. rewrite app_nil_r. auto.
  - cbn [length] in Hlen. cbn [app] in Hl.
    destruct (lexerOn_inv _ _ _ Hl) as (Hnext & _).
    unfold Peek. rewrite Hnext, Hsign, Z.eqb_refl.
    destruct (ConsumeToken_on l sign _ fuel chAt Hl ltac:(discriminate) Hsign)
      as (l1 & -> & Hl1).
    cbn [andThen].
    destruct (ConsumeIdentWithLoc_on l1 name _ fuel Hl1 (more_nonempty _ _ _)
                Hname) as (l2 & -> & Hl2).
    cbn [andThen types.Name types.Loc].
    assert (Hnot : (next l2 =? chLParen) = false).
    { apply Z.eqb_neq. destruct toks' as [|h tl].
      - destruct (lexerOn_inv _ _ _ Hl2) as (-> & _). exact Hparen.
      - destruct (lexerOn_inv _ _ _ Hl2) as (-> & _).
        rewrite (spellsDirectives_starts _ _ _ Hrest). discriminate. }
    rewrite Hnot. cbn [andThen].
    destruct (IH fuel n l2
                (acc ++ [ {| types.DirName :=
                               {| types.Name := text name;
                                  types.Loc :=
                                    {| Line := Line (pos name);
                                       Column := wrap64 (Column (pos name) - 1) |} |};
                             types.DirArguments := [] |} ])
                after rest ltac:(lia) ltac:(simpl in Hn; lia) Hat Hparen Hl2)
      as (l3 & -> & Hl3).
    exists l3. rewrite <- app_assoc. auto.
  - cbn [length] in Hlen. rewrite length_app in Hlen. cbn [length] in Hlen.
    change ((sign :: name :: open :: toks ++ close :: toks') ++ after :: rest)
      with (sign :: name :: open :: (toks ++ close :: toks') ++ after :: rest)
      in Hl.
    rewrite <- app_assoc in Hl. cbn [app] in Hl.
    destruct (lexerOn_inv _ _ _ Hl) as (Hnext & _).
    unfold Peek. rewrite Hnext, Hsign, Z.eqb_refl.
    destruct (ConsumeToken_on l sign _ fuel chAt Hl ltac:(discriminate) Hsign)
      as (l1 & -> & Hl1).
    cbn [andThen].
    destruct (ConsumeIdentWithLoc_on l1 name _ fuel Hl1 ltac:(discriminate)
                Hname) as (l2 & -> & Hl2).
    cbn [andThen types.Name types.Loc].
    destruct (lexerOn_inv _ _ _ Hl2) as (Hnext2 & _).
    rewrite Hnext2, Hopen, Z.eqb_refl.
    destruct (ParseArgumentList_on args toks open close l2
                (toks' ++ after :: rest) (S fuel) Hopen Hclose Hargs
                ltac:(lia) Hl2 (more_nonempty _ _ _)) as (l3 & -> & Hl3).
    cbn [andThen].
    destruct (IH fuel n l3
                (acc ++ [ {| types.DirName :=
                               {| types.Name := text name;
                                  types.Loc :=
                                    {| Line := Line (pos name);
                                       Column := wrap64 (Column (pos name) - 1) |} |};
                             types.DirArguments := args |} ])
                after rest ltac:(lia) ltac:(simpl in Hn; lia) Hat Hparen Hl3)
      as (l4 & -> & Hl4).
    exists l4. rewrite <- app_assoc. auto.
Qed.

(** [ParseDirectives] reads back every run of directives, the empty run
    included, when the token after the run is neither an at sign nor an
    opening parenthesis: it returns the directives in order, each with its
    arguments and with the location of its name moved one column back, and
    stops on the token after the run. *)
Theorem ParseDirectives_reads_back :
  forall directives toks (l : Lexer Scanner) after rest fuel,
    spellsDirectives directives toks ->
    (length toks < fuel)%nat ->
    lexerOn l (toks ++ after :: rest) ->
    kind after <> chAt ->
    kind after <> chLParen ->
    exists l', ParseDirectives fuel l = Done directives l'
               /\ lexerOn l' (after :: rest).
Proof.
  intros directives toks l after rest fuel Hsp Hlen Hl Hat Hparen.
  destruct fuel as [|fuel]; [lia|]. unfold ParseDirectives.
  pose proof (spellsDirectives_length _ _ Hsp) as Hcount.
  exact (directiveLoop_on directives toks Hsp fuel (S fuel) l [] after rest
           Hlen ltac:(lia) Hat Hparen Hl).
Qed.

End ReadingArguments.

Lemma sampleArguments_spelled : spellsArguments sampleArguments sampleArgumentTokens.
Proof.
  apply (spellsArguments_cons (token scanIdent "first" 2) (token chColon ":" 7)
           _ _ [token scanInt "10" 9]
           [token scanIdent "after" 12; token chColon ":" 17;
            token chDollar "$" 19; token scanIdent "cursor" 20]);
    [reflexivity | reflexivity | |].
  - apply (spells_primitive false (token scanInt "10" 9)).
    + left. reflexivity.
    + intros [H _]. discriminate H.
  - apply (spellsArguments_cons (token scanIdent "after" 12)
             (token chColon ":" 17) _ _
             [token chDollar "$" 19; token scanIdent "cursor" 20] []);
      [reflexivity | reflexivity | | apply spellsArguments_nil].
    apply (spells_variable false (token chDollar "$" 19)
             (token scanIdent "cursor" 20)); reflexivity.
Qed.

Lemma ParseArgumentList_reads_back_witness :
  exists l',
    ParseArgumentList 10
      (lexerAt (token chLParen "(" 1)
         (sampleArgumentTokens ++ [token chRParen ")" 26; endOfInput 27]) [])
    = Done sampleArguments l'
    /\ lexerOn l' [endOfInput 27].
Proof.
  apply (ParseArgumentList_reads_back sampleArguments sampleArgumentTokens
           (token chLParen "(" 1) (token chRParen ")" 26)
           (lexerAt (token chLParen "(" 1)
              (sampleArgumentTokens ++ [token chRParen ")" 26; endOfInput 27])
              [])
           [endOfInput 27] 10).
  - reflexivity.
  - reflexivity.
  - exact sampleArguments_spelled.
  - simpl. lia.
  - repeat split;
      repeat (eapply produces_cons;
              [reflexivity | split; discriminate | reflexivity | reflexivity |]);
      apply produces_nil.
  - discriminate.
Defined.

Lemma ParseDirectives_reads_back_witness :
  exists l',
    ParseDirectives 12
      (lexerAt (token chAt "@" 1)
         (tl sampleDirectiveTokens ++ [endOfInput 26]) [])
    = Done sampleDirectives l'
    /\ lexerOn l' [endOfInput 26].
Proof.
  apply (ParseDirectives_reads_back sampleDirectives sampleDirectiveTokens
           (lexerAt (token chAt "@" 1)
              (tl sampleDirectiveTokens ++ [endOfInput 26]) [])
           (endOfInput 26) [] 12).
  - apply (spellsDirectives_arguments (token chAt "@" 1)
             (token scanIdent "include" 2) (token chLParen "(" 9)
             (token chRParen ")" 19) _ _
             [token scanIdent "if" 10; token chColon ":" 12;
              token chDollar "$" 14; token scanIdent "flag" 15]
             [token chAt "@" 21; token scanIdent "live" 22]);
      [reflexivity | reflexivity | reflexivity | reflexivity | |].
    + apply (spellsArguments_cons (token scanIdent "if" 10)
               (token chColon ":" 12) _ _
               [token chDollar "$" 14; token scanIdent "flag" 15] []);
        [reflexivity | reflexivity | | apply spellsArguments_nil].
      apply (spells_variable false (token chDollar "$" 14)
               (token scanIdent "flag" 15)); reflexivity.
    + apply (spellsDirectives_plain (token chAt "@" 21)
               (token scanIdent "live" 22) [] []);
        [reflexivity | reflexivity | apply spellsDirectives_nil].
  - simpl. lia.
  - repeat split;
      repeat (eapply produces_cons;
              [reflexivity | split; discriminate | reflexivity | reflexivity |]);
      apply produces_nil.
  - discriminate.
  - discriminate.
Defined.


Section NoPanic.

Context {Scanner : Type} {scanner : TextScanner Scanner}.

Lemma andThen_no_panic {L A B} (m : result L A) (k : A -> L -> result L B) :
  (forall message, m <> Panic message) ->
  (forall a l1, m = Done a l1 -> forall message, k a l1 <> Panic message) ->
  forall message, andThen m k <> Panic message.
Proof.
  intros Hm Hk message. destruct m; cbn; try discriminate.
  - exact (Hk a l eq_refl message).
  - intros _. exact (Hm message0 eq_refl).
Qed.

Lemma scNext_no_panic {A} (l : Lexer Scanner)
    (k : Z -> Lexer Scanner -> result (Lexer Scanner) A) :
  (forall r l', forall message, k r l' <> Panic message) ->
  forall message, scNext l k <> Panic message.
Proof.
  intros Hk message. unfold scNext.
  destruct (NextChar (sc l)) as [[m s]|[r s]]; [discriminate | apply Hk].
Qed.

Lemma commentLoop_no_panic fuel (l : Lexer Scanner) message :
  commentLoop fuel l <> Panic message.
Proof.
  revert l message. induction fuel as [|fuel IH]; intros l message;
    cbn [commentLoop]; [discriminate|].
  apply scNext_no_panic. intros r l' message'.
  destruct ((r =? 13) || (r =? 10) || (r =? scanEOF)); [discriminate | apply IH].
Qed.

Lemma consumeComment_no_panic fuel (l : Lexer Scanner) message :
  next l = chHash -> consumeComment fuel l <> Panic message.
Proof.
  intros Hnext. unfold consumeComment. rewrite Hnext, Z.eqb_refl. cbn [negb].
  apply andThen_no_panic.
  - destruct (PeekChar (sc l) =? 32); [|discriminate].
    apply scNext_no_panic. discriminate.
  - intros _ l1 _ message'. apply commentLoop_no_panic.
Qed.

Lemma whitespaceLoop_no_panic fuel (l : Lexer Scanner) message :
  whitespaceLoop fuel l <> Panic message.
Proof.
  revert l message. induction fuel as [|fuel IH]; intros l message;
    cbn [whitespaceLoop]; [discriminate|].
  destruct (Scan (sc l)) as [[m s]|[r s]]; [discriminate|].
  destruct (r =? chComma); [apply IH|].
  destruct (Z.eqb_spec r chHash) as [->|_]; [|discriminate].
  apply andThen_no_panic.
  - intros message'. apply consumeComment_no_panic. reflexivity.
  - intros _ l1 _ message'. apply IH.
Qed.

Lemma ConsumeWhitespace_no_panic fuel (l : Lexer Scanner) message :
  ConsumeWhitespace fuel l <> Panic message.
Proof. apply whitespaceLoop_no_panic. Qed.

Lemma ConsumeToken_no_panic fuel expected (l : Lexer Scanner) message :
  ConsumeToken fuel expected l <> Panic message.
Proof.
  unfold ConsumeToken. destruct (negb (next l =? expected));
    [discriminate | apply ConsumeWhitespace_no_panic].
Qed.

Lemma ConsumeIdent_no_panic fuel (l : Lexer Scanner) message :
  ConsumeIdent fuel l <> Panic message.
Proof.
  apply andThen_no_panic; [intro; apply ConsumeToken_no_panic | discriminate].
Qed.

Lemma ConsumeIdentWithLoc_no_panic fuel (l : Lexer Scanner) message :
  ConsumeIdentWithLoc fuel l <> Panic message.
Proof.
  apply andThen_no_panic; [intro; apply ConsumeToken_no_panic | discriminate].
Qed.

Lemma ConsumeLiteral_no_panic fuel (l : Lexer Scanner) message :
  ConsumeLiteral fuel l <> Panic message.
Proof.
  apply andThen_no_panic; [intro; apply ConsumeWhitespace_no_panic | discriminate].
Qed.

Lemma listLoop_no_panic rec :
  (forall (l : Lexer Scanner) message, rec l <> Panic message) ->
  forall n l values message, listLoop rec n l values <> Panic message.
Proof.
  intros Hrec. induction n as [|n IH]; intros l values message;
    cbn [listLoop]; [discriminate|].
  destruct (negb (Peek l =? chRBracket)); [|discriminate].
  apply andThen_no_panic; [apply Hrec | intros; apply IH].
Qed.

Lemma fieldLoop_no_panic rec fuel :
  (forall (l : Lexer Scanner) message, rec l <> Panic message) ->
  forall n l fields message, fieldLoop rec fuel n l fields <> Panic message.
Proof.
  intros Hrec. induction n as [|n IH]; intros l fields message;
    cbn [fieldLoop]; [discriminate|].
  destruct (negb (Peek l =? chRBrace)); [|discriminate].
  apply andThen_no_panic; [intro; apply ConsumeIdentWithLoc_no_panic|].
  intros name l1 _. apply andThen_no_panic; [intro; apply ConsumeToken_no_panic|].
  intros _ l2 _. apply andThen_no_panic; [apply Hrec | intros; apply IH].
Qed.

Lemma ParseLiteral_no_panic fuel (l : Lexer Scanner) constOnly message :
  ParseLiteral fuel l constOnly <> Panic message.
Proof.
  revert l message. induction fuel as [|fuel IH]; intros l message;
    cbn [ParseLiteral]; [discriminate|].
  cbv zeta.
  destruct (Peek l =? chDollar).
  { destruct constOnly; [discriminate|].
    apply andThen_no_panic; [intro; apply ConsumeToken_no_panic|].
    intros _ l1 _. apply andThen_no_panic; [intro; apply ConsumeIdent_no_panic|].
    discriminate. }
  destruct ((Peek l =? scanInt) || (Peek l =? scanFloat)
            || (Peek l =? scanString) || (Peek l =? scanIdent)).
  { apply andThen_no_panic; [intro; apply ConsumeLiteral_no_panic|].
    intros lit l1 _ message'.
    destruct ((fst lit =? scanIdent) && String.eqb (snd lit) "null");
      discriminate. }
  destruct (Peek l =? chMinus).
  { apply andThen_no_panic; [intro; apply ConsumeToken_no_panic|].
    intros _ l1 _. apply andThen_no_panic; [intro; apply ConsumeLiteral_no_panic|].
    discriminate. }
  destruct (Peek l =? chLBracket).
  { apply andThen_no_panic; [intro; apply ConsumeToken_no_panic|].
    intros _ l1 _. apply andThen_no_panic.
    - intro. apply listLoop_no_panic. exact IH.
    - intros values l2 _. apply andThen_no_panic;
        [intro; apply ConsumeToken_no_panic | discriminate]. }
  destruct (Peek l =? chLBrace).
  { apply andThen_no_panic; [intro; apply ConsumeToken_no_panic|].
    intros _ l1 _. apply andThen_no_panic.
    - intro. apply fieldLoop_no_panic. exact IH.
    - intros fields l2 _. apply andThen_no_panic;
        [intro; apply ConsumeToken_no_panic | discriminate]. }
  discriminate.
Qed.

Lemma argumentLoop_no_panic fuel n (l : Lexer Scanner) args message :
  argumentLoop fuel n l args <> Panic message.
Proof.
  revert l args message. induction n as [|n IH]; intros l args message;
    cbn [argumentLoop]; [discriminate|].
  destruct (negb (Peek l =? chRParen)); [|discriminate].
  apply andThen_no_panic; [intro; apply ConsumeIdentWithLoc_no_panic|].
  intros name l1 _. apply andThen_no_panic; [intro; apply ConsumeToken_no_panic|].
  intros _ l2 _. apply andThen_no_panic;
    [intro; apply ParseLiteral_no_panic | intros; apply IH].
Qed.

Lemma ParseArgumentList_no_panic fuel (l : Lexer Scanner) message :
  ParseArgumentList fuel l <> Panic message.
Proof.
  apply andThen_no_panic; [intro; apply ConsumeToken_no_panic|].
  intros _ l1 _. apply andThen_no_panic; [intro; apply argumentLoop_no_panic|].
  intros args l2 _. apply andThen_no_panic;
    [intro; apply ConsumeToken_no_panic | discriminate].
Qed.

Lemma directiveLoop_no_panic fuel n (l : Lexer Scanner) directives message :
  directiveLoop fuel n l directives <> Panic message.
Proof.
  revert l directives message. induction n as [|n IH];
    intros l directives message; cbn [directiveLoop]; [discriminate|].
  destruct (Peek l =? chAt); [|discriminate].
  apply andThen_no_panic; [intro; apply ConsumeToken_no_panic|].
  intros _ l1 _. apply andThen_no_panic;
    [intro; apply ConsumeIdentWithLoc_no_panic|].
  intros name l2 _. cbv zeta. apply andThen_no_panic.
  - intro. destruct (Peek l2 =? chLParen);
      [apply ParseArgumentList_no_panic | discriminate].
  - intros; apply IH.
Qed.

Lemma ParseType_no_panic fuel (l : Lexer Scanner) message :
  ParseType fuel l <> Panic message.
Proof.
  revert l message. induction fuel as [|fuel IH]; intros l message;
    cbn [ParseType]; [discriminate|].
  apply andThen_no_panic.
  - intro. unfold parseNullType. destruct (Peek l =? chLBracket).
    + apply andThen_no_panic; [intro; apply ConsumeToken_no_panic|].
      intros _ l1 _. apply andThen_no_panic; [intro; apply IH|].
      intros ofType l2 _. apply andThen_no_panic;
        [intro; apply ConsumeToken_no_panic | discriminate].
    + apply andThen_no_panic;
        [intro; apply ConsumeIdentWithLoc_no_panic | discriminate].
  - intros t l1 _ message'. destruct (Peek l1 =? chBang); [|discriminate].
    apply andThen_no_panic; [intro; apply ConsumeToken_no_panic | discriminate].
Qed.

(** The parsers of values, types, argument lists and directives never end
    in a panic of their own: the panic of [consumeComment] for a wrong
    context cannot be reached from them, so that on any input they either
    return or raise a syntax error (or are still running when the fuel is
    used up). *)
Theorem parsers_raise_only_syntax_errors :
  forall fuel (l : Lexer Scanner) constOnly message,
    ParseLiteral fuel l constOnly <> Panic message
    /\ ParseType fuel l <> Panic message
    /\ ParseArgumentList fuel l <> Panic message
    /\ ParseDirectives fuel l <> Panic message.
Proof.
  intros fuel l constOnly message. repeat split.
  - apply ParseLiteral_no_panic.
  - apply ParseType_no_panic.
  - apply ParseArgumentList_no_panic.
  - apply directiveLoop_no_panic.
Qed.

End NoPanic.


Section Comments.

Context {Scanner : Type} {scanner : TextScanner Scanner}.

Lemma string_append_assoc (a b c : string) : (a +:+ b) +:+ c = a +:+ (b +:+ c).
Proof.
  induction a as [|x a IH]; [reflexivity|].
  change (String x ((a +:+ b) +:+ c) = String x (a +:+ (b +:+ c))).
  rewrite IH. reflexivity.
Qed.

Lemma string_append_nil_r (a : string) : a +:+ EmptyString = a.
Proof.
  induction a as [|x a IH]; [reflexivity|].
  change (String x (a +:+ EmptyString) = String x a). rewrite IH. reflexivity.
Qed.

Lemma string_append_length (a b : string) :
  String.length (a +:+ b) = (String.length a + String.length b)%nat.
Proof.
  induction a as [|x a IH]; [reflexivity|].
  change (S (String.length (a +:+ b)) = S (String.length a + String.length b)).
  rewrite IH. reflexivity.
Qed.

Lemma commentLoop_reads body :
  forall (s s' : Scanner) stop nx buf usd fuel,
    reads s (body ++ [stop]) s' ->
    forallb (fun r => negb (endsComment r)) body = true ->
    endsComment stop = true ->
    (length body < fuel)%nat ->
    commentLoop fuel
      {| sc := s; next := nx; comment := buf; useStringDescriptions := usd |}
    = Done tt {| sc := s'; next := nx; comment := buf +:+ encodeAll body;
                 useStringDescriptions := usd |}.
Proof.
  induction body as [|r body IH]; intros s s' stop nx buf usd fuel Hr Hb Hs Hf;
    (destruct fuel as [|fuel]; [simpl in Hf; lia|]);
    cbn [commentLoop]; unfold scNext; cbn [sc].
  - inversion Hr as [|? s1 ? ? ? Hn Hr']; subst. inversion Hr'; subst.
    rewrite Hn. unfold endsComment in Hs. rewrite Hs.
    cbn [encodeAll]. rewrite string_append_nil_r. reflexivity.
  - cbn [app] in Hr. inversion Hr as [|? s1 ? ? ? Hn Hr']; subst.
    rewrite Hn. cbn [forallb] in Hb. apply andb_prop in Hb as [Hr0 Hb].
    unfold endsComment in Hr0. apply negb_true_iff in Hr0. rewrite Hr0.
    unfold withComment, withScanner. cbn [sc next comment useStringDescriptions].
    rewrite (IH s1 s' stop nx _ usd fuel Hr' Hb Hs ltac:(simpl in Hf; lia)).
    cbn [encodeAll]. rewrite string_append_assoc. reflexivity.
Qed.

Lemma whitespaceLoop_skips (s : Scanner) lines s' :
  skips s lines s' ->
  forall k s'',
    Scan s' = inr (k, s'') -> k <> chComma -> k <> chHash ->
    exists enough, forall fuel, (enough <= fuel)%nat ->
      forall nx buf usd,
        whitespaceLoop fuel
          {| sc := s; next := nx; comment := buf; useStringDescriptions := usd |}
        = Done tt
            {| sc := s''; next := k;
               comment :=
                 fold_left
                   (fun buf line =>
                      (if Nat.ltb 0 (String.length buf)
                       then buf +:+ String newline EmptyString else buf)
                      +:+ line)
                   (map encodeAll lines) buf;
               useStringDescriptions := usd |}.
Proof.
  induction 1 as [s | s s1 lines s' Hscan _ IH
                  | s s1 s2 s3 body stop lines s' Hscan Hspace Hreads Hbody
                      Hstop _ IH];
    intros k s'' Hk Hc Hh.
  - exists 1%nat. intros fuel Hf nx buf usd.
    destruct fuel as [|fuel]; [lia|]. cbn [whitespaceLoop sc]. rewrite Hk.
    apply Z.eqb_neq in Hc, Hh. rewrite Hc, Hh. reflexivity.
  - destruct (IH k s'' Hk Hc Hh) as (enough & Hen).
    exists (S enough). intros fuel Hf nx buf usd.
    destruct fuel as [|fuel]; [lia|]. cbn [whitespaceLoop sc]. rewrite Hscan.
    rewrite Z.eqb_refl. apply Hen. lia.
  - destruct (IH k s'' Hk Hc Hh) as (enough & Hen).
    exists (S (enough + S (length body))). intros fuel Hf nx buf usd.
    destruct fuel as [|fuel]; [lia|]. cbn [whitespaceLoop sc]. rewrite Hscan.
    change (chHash =? chComma) with false. rewrite Z.eqb_refl. cbv iota.
    unfold consumeComment, withNext, withScanner.
    cbn [sc next comment useStringDescriptions].
    rewrite Z.eqb_refl. cbn [negb].
    assert (Hfirst :
              (if PeekChar s1 =? 32
               then scNext
                      {| sc := s1; next := chHash; comment := buf;
                         useStringDescriptions := usd |}
                      (fun _ l' => Done tt l')
               else Done tt {| sc := s1; next := chHash; comment := buf;
                               useStringDescriptions := usd |})
              = Done tt {| sc := s2; next := chHash; comment := buf;
                           useStringDescriptions := usd |}).
    { destruct Hspace as [(Hp & r & Hn) | (Hp & ->)].
      - rewrite Hp, Z.eqb_refl. unfold scNext. cbn [sc]. rewrite Hn. reflexivity.
      - apply Z.eqb_neq in Hp. rewrite Hp. reflexivity. }
    rewrite Hfirst. cbn [andThen comment map fold_left].
    destruct (Nat.ltb 0 (String.length buf)); unfold withComment;
      cbn [sc next comment useStringDescriptions];
      rewrite (commentLoop_reads body s2 s3 stop chHash _ usd fuel Hreads Hbody
                 Hstop ltac:(lia));
      cbn [andThen map fold_left]; apply Hen; lia.
Qed.

Lemma Join_cons line rest :
  Join (line :: rest)
  = line +:+ fold_right (fun l acc => String newline (l +:+ acc)) EmptyString rest.
Proof.
  revert line. induction rest as [|x rest IH]; intros line.
  - cbn. rewrite string_append_nil_r. reflexivity.
  - change (Join (line :: x :: rest)) with (line +:+ String newline (Join (x :: rest))).
    rewrite IH. reflexivity.
Qed.

Lemma accumulate_nonempty lines :
  forall buf,
    Nat.ltb 0 (String.length buf) = true ->
    fold_left
      (fun buf line =>
         (if Nat.ltb 0 (String.length buf)
          then buf +:+ String newline EmptyString else buf) +:+ line)
      lines buf
    = buf +:+ fold_right (fun l acc => String newline (l +:+ acc)) EmptyString lines.
Proof.
  induction lines as [|line lines IH]; intros buf Hbuf; cbn [fold_left fold_right].
  - rewrite string_append_nil_r. reflexivity.
  - rewrite Hbuf. rewrite IH.
    + rewrite !string_append_assoc. reflexivity.
    + apply Nat.ltb_lt. rewrite !string_append_length. apply Nat.ltb_lt in Hbuf.
      lia.
Qed.

Lemma accumulate_commentText lines :
  fold_left
    (fun buf line =>
       (if Nat.ltb 0 (String.length buf)
        then buf +:+ String newline EmptyString else buf) +:+ line)
    lines EmptyString
  = commentText lines.
Proof.
  unfold commentText. induction lines as [|line lines IH]; [reflexivity|].
  cbn [fold_left dropWhile String.length Nat.ltb Nat.leb].
  change (EmptyString +:+ line) with line.
  destruct (Nat.eqb (String.length line) 0) eqn:He.
  - apply Nat.eqb_eq in He. destruct line; [exact IH | discriminate].
  - rewrite accumulate_nonempty, Join_cons; [reflexivity|].
    apply Nat.ltb_lt. apply Nat.eqb_neq in He. lia.
Qed.

(** [ConsumeWhitespace] passes over any run of commas and comments and
    stops on the next token that is neither.  It forgets the comment kept
    before and keeps the text of the comments it passed: their lines, one
    space after the marker dropped, joined by line feeds, with the empty
    lines before the first non-empty one left out. *)
Theorem ConsumeWhitespace_skips_commas_and_keeps_comments :
  forall (l : Lexer Scanner) lines s k s',
    skips (sc l) lines s ->
    Scan s = inr (k, s') ->
    k <> chComma ->
    k <> chHash ->
    exists enough, forall fuel, (enough <= fuel)%nat ->
      ConsumeWhitespace fuel l
      = Done tt {| sc := s'; next := k;
                   comment := commentText (map encodeAll lines);
                   useStringDescriptions := useStringDescriptions l |}.
Proof.
  intros l lines s k s' Hskips Hk Hc Hh.
  destruct (whitespaceLoop_skips _ _ _ Hskips k s' Hk Hc Hh) as (enough & Hen).
  exists enough. intros fuel Hf. unfold ConsumeWhitespace, withComment.
  rewrite (Hen fuel Hf), accumulate_commentText. reflexivity.
Qed.

End Comments.

Lemma ConsumeWhitespace_skips_commas_and_keeps_comments_witness :
  exists enough, forall fuel, (enough <= fuel)%nat ->
    ConsumeWhitespace fuel commentedLexer
    = Done tt {| sc := {| coming := []; runes := [];
                          current := token scanIdent "id" 1 |};
                 next := scanIdent;
                 comment := String "a" (String newline (String "b" EmptyString));
                 useStringDescriptions := false |}.
Proof.
  assert (Hskips :
            skips (sc commentedLexer) [[]; [97]; [98]]
              {| coming := [token scanIdent "id" 1]; runes := [];
                 current := token chHash "#" 1 |}).
  { eapply (skips_comment _ _ _ _ [] 10);
      [reflexivity | | | reflexivity | reflexivity |].
    - right. split; [discriminate | reflexivity].
    - eapply reads_cons; [reflexivity | apply reads_nil].
    - eapply skips_comma; [reflexivity|].
      eapply (skips_comment _ _ _ _ [97] 10);
        [reflexivity | | | reflexivity | reflexivity |].
      + left. split; [reflexivity | eexists; reflexivity].
      + eapply reads_cons; [reflexivity|].
        eapply reads_cons; [reflexivity | apply reads_nil].
      + eapply (skips_comment _ _ _ _ [98] 10);
          [reflexivity | | | reflexivity | reflexivity | apply skips_nil].
        * right. split; [discriminate | reflexivity].
        * eapply reads_cons; [reflexivity|].
          eapply reads_cons; [reflexivity | apply reads_nil]. }
  exact (ConsumeWhitespace_skips_commas_and_keeps_comments commentedLexer
           [[]; [97]; [98]] _ scanIdent
           {| coming := []; runes := []; current := token scanIdent "id" 1 |}
           Hskips eq_refl ltac:(discriminate) ltac:(discriminate)).
Defined.


Section BlockStrings.

Context {Scanner : Type} {scanner : TextScanner Scanner}.

Lemma reads_app_inv (s s' : Scanner) a b :
  reads s (a ++ b) s' -> exists s1, reads s a s1 /\ reads s1 b s'.
Proof.
  revert s. induction a as [|r a IH]; intros s H.
  - exists s. split; [apply reads_nil | exact H].
  - cbn [app] in H. inversion H as [|? s1 ? ? ? Hn Hr]; subst.
    destruct (IH _ Hr) as (s2 & Ha & Hb).
    exists s2. split; [eapply reads_cons; eauto | exact Hb].
Qed.

Lemma hasTripleQuote_app_r a b :
  hasTripleQuote (a ++ b) = false -> hasTripleQuote b = false.
Proof.
  induction a as [|x a IH]; [auto|].
  cbn [app hasTripleQuote]. intros H. apply orb_false_elim in H as [_ H]. auto.
Qed.

Lemma tripleQuoteLoop_body body :
  forall (s s1 : Scanner) n nx buf cm usd k,
    reads s body s1 ->
    (n < 3)%nat ->
    hasTripleQuote (repeat chQuote n ++ body) = false ->
    forallb (fun r => negb (r =? scanEOF)) body = true ->
    exists nx',
      tripleQuoteLoop (length body + k)
        {| sc := s; next := nx; comment := cm; useStringDescriptions := usd |}
        buf n
      = tripleQuoteLoop k
          {| sc := s1; next := nx'; comment := cm; useStringDescriptions := usd |}
          (buf +:+ encodeAll body)
          (fold_left (fun n r => if r =? chQuote then S n else O) body n).
Proof.
  induction body as [|r body IH]; intros s s1 n nx buf cm usd k Hr Hn Ht He.
  - inversion Hr; subst. exists nx. cbn [length Nat.add encodeAll fold_left].
    rewrite string_append_nil_r. reflexivity.
  - inversion Hr as [|? s0 ? ? ? Hnext Hr']; subst.
    cbn [forallb] in He. apply andb_prop in He as [Hr0 He].
    apply negb_true_iff in Hr0.
    cbn [length Nat.add tripleQuoteLoop]. unfold scNext. cbn [sc]. rewrite Hnext.
    cbv zeta. rewrite Hr0, orb_false_r.
    assert (Hstep : ((if Z.eqb r chQuote then S n else O) < 3)%nat
                    /\ hasTripleQuote
                         (repeat chQuote (if r =? chQuote then S n else O) ++ body)
                       = false).
    { destruct (Z.eqb_spec r chQuote) as [->|Hq].
      - assert (Hsame : repeat chQuote n ++ chQuote :: body
                        = chQuote :: repeat chQuote n ++ body).
        { change (chQuote :: body) with ([chQuote] ++ body).
          rewrite app_assoc, <- repeat_cons. reflexivity. }
        rewrite Hsame in Ht. split; [|exact Ht].
        destruct n as [|[|[|n]]]; [lia | lia | | lia].
        cbn in Ht. discriminate.
      - split; [lia|]. cbn [repeat app].
        apply hasTripleQuote_app_r in Ht.
        change (r :: body) with ([r] ++ body) in Ht.
        exact (hasTripleQuote_app_r _ _ Ht). }
    destruct Hstep as [Hlt Hnone].
    replace (Nat.eqb (if r =? chQuote then S n else O) 3) with false
      by (symmetry; apply Nat.eqb_neq; lia).
    unfold withNext, withScanner. cbn [sc next comment useStringDescriptions].
    destruct (IH s0 s1 _ r (buf +:+ EncodeRune r) cm usd k Hr' Hlt Hnone He)
      as (nx' & ->).
    exists nx'. cbn [encodeAll fold_left]. rewrite string_append_assoc.
    reflexivity.
Qed.

Lemma trailing_quotes body :
  forall n,
    List.last body 0 <> chQuote ->
    fold_left (fun n r => if r =? chQuote then S n else O) body n
    = match body with [] => n | _ => O end.
Proof.
  induction body as [|r body IH]; intros n Hl; [reflexivity|].
  cbn [fold_left]. destruct body as [|x body].
  - cbn [fold_left]. cbn [List.last] in Hl. apply Z.eqb_neq in Hl. rewrite Hl.
    reflexivity.
  - rewrite IH; [reflexivity|]. exact Hl.
Qed.

Lemma substring_prefix a b : String.substring 0 (String.length a) (a +:+ b) = a.
Proof.
  induction a as [|x a IH]; [destruct b; reflexivity|].
  change (String x (String.substring 0 (String.length a) (a +:+ b)) = String x a).
  rewrite IH. reflexivity.
Qed.

(** [consumeTripleQuoteComment] returns the block string value of what
    stands between the opening and the closing quotes: after the third
    opening quote, a body with no three quotes in a row, no quote at its
    end and no end of input, followed by three quotes, is handed to
    [blockString] as it is, and the scanner is left behind the closing
    quotes. *)
Theorem consumeTripleQuoteComment_returns_the_block_string :
  forall (l : Lexer Scanner) body s' fuel,
    reads (sc l) (chQuote :: body ++ [chQuote; chQuote; chQuote]) s' ->
    hasTripleQuote body = false ->
    forallb (fun r => negb (r =? scanEOF)) body = true ->
    List.last body 0 <> chQuote ->
    String.length (EncodeRune chQuote) = 1%nat ->
    (length body + 3 <= fuel)%nat ->
    consumeTripleQuoteComment fuel l
    = Done (blockString (encodeAll body))
        {| sc := s'; next := chQuote; comment := comment l;
           useStringDescriptions := useStringDescriptions l |}.
Proof.
  intros l body s' fuel Hr Ht He Hlast Hq Hfuel.
  inversion Hr as [|? s0 ? ? ? Hnext Hr']; subst.
  apply reads_app_inv in Hr' as (s1 & Hbody & Hclose).
  inversion Hclose as [|? s2 ? ? ? Hn1 Hc1]; subst.
  inversion Hc1 as [|? s3 ? ? ? Hn2 Hc2]; subst.
  inversion Hc2 as [|? s4 ? ? ? Hn3 Hc3]; subst.
  inversion Hc3; subst.
  unfold consumeTripleQuoteComment, scNext. rewrite Hnext.
  rewrite Z.eqb_refl. cbn [negb].
  unfold withNext, withScanner. cbn [sc next comment useStringDescriptions].
  replace fuel with (length body + (3 + (fuel - length body - 3)))%nat by lia.
  destruct (tripleQuoteLoop_body body s0 s1 0 chQuote EmptyString (comment l)
              (useStringDescriptions l) (3 + (fuel - length body - 3))
              Hbody ltac:(lia) Ht He) as (nx' & ->).
  rewrite (trailing_quotes body 0 Hlast).
  replace (match body with [] => O | _ => O end) with O by (destruct body; reflexivity).
  cbn [Nat.add tripleQuoteLoop]. unfold scNext.
  cbn [sc]. rewrite Hn1. cbv zeta. rewrite Z.eqb_refl.
  unfold withNext, withScanner. cbn [sc next comment useStringDescriptions].
  cbn [Nat.eqb orb]. change (chQuote =? scanEOF) with false. cbv iota.
  unfold scNext. cbn [sc]. rewrite Hn2. cbv zeta. rewrite Z.eqb_refl.
  cbn [Nat.eqb orb]. change (chQuote =? scanEOF) with false. cbv iota.
  cbn [sc next comment useStringDescriptions].
  unfold scNext. cbn [sc]. rewrite Hn3. cbv zeta. rewrite Z.eqb_refl.
  cbn [Nat.eqb orb andThen fst snd sc next comment useStringDescriptions].
  do 3 f_equal. unfold dropEnd.
  change (EmptyString +:+ encodeAll body) with (encodeAll body).
  rewrite !string_append_assoc, !string_append_length, Hq.
  replace (String.length (encodeAll body) + (1 + (1 + 1)) - 3)%nat
    with (String.length (encodeAll body)) by lia.
  apply substring_prefix.
Qed.

(** A block string that is not closed is no error to
    [consumeTripleQuoteComment]: at the end of input it returns the block
    string value of the body read so far followed by what [WriteRune]
    makes of the end-of-input rune. *)
Theorem consumeTripleQuoteComment_accepts_an_open_block_string :
  forall (l : Lexer Scanner) body s' fuel,
    reads (sc l) (chQuote :: body ++ [scanEOF]) s' ->
    hasTripleQuote body = false ->
    forallb (fun r => negb (r =? scanEOF)) body = true ->
    (length body < fuel)%nat ->
    consumeTripleQuoteComment fuel l
    = Done (blockString (encodeAll body +:+ EncodeRune scanEOF))
        {| sc := s'; next := scanEOF; comment := comment l;
           useStringDescriptions := useStringDescriptions l |}.
Proof.
  intros l body s' fuel Hr Ht He Hfuel.
  inversion Hr as [|? s0 ? ? ? Hnext Hr']; subst.
  apply reads_app_inv in Hr' as (s1 & Hbody & Hclose).
  inversion Hclose as [|? s2 ? ? ? Hn1 Hc1]; subst.
  inversion Hc1; subst.
  unfold consumeTripleQuoteComment, scNext. rewrite Hnext.
  rewrite Z.eqb_refl. cbn [negb].
  unfold withNext, withScanner. cbn [sc next comment useStringDescriptions].
  replace fuel with (length body + (1 + (fuel - length body - 1)))%nat by lia.
  destruct (tripleQuoteLoop_body body s0 s1 0 chQuote EmptyString (comment l)
              (useStringDescriptions l) (1 + (fuel - length body - 1))
              Hbody ltac:(lia) Ht He) as (nx' & ->).
  cbn [Nat.add tripleQuoteLoop]. unfold scNext. cbn [sc]. rewrite Hn1.
  cbv zeta. change (scanEOF =? chQuote) with false. cbv iota.
  rewrite Z.eqb_refl, orb_true_r.
  unfold withNext, withScanner.
  cbn [andThen fst snd sc next comment useStringDescriptions].
  do 3 f_equal. unfold dropEnd. rewrite Nat.sub_0_r.
  change (EmptyString +:+ encodeAll body) with (encodeAll body).
  rewrite <- (string_append_nil_r (encodeAll body +:+ EncodeRune scanEOF)) at 2.
  apply substring_prefix.
Qed.

(** An input value definition returned by [ParseInputValue] has a type
    with a name at its bottom and no non-null type directly inside a
    non-null type, and its default value, if it has one, holds no
    variable. *)
Theorem ParseInputValue_returns_a_constant_default :
  forall fuel (l : Lexer Scanner) p l',
    ParseInputValue fuel l = Done p l' ->
    parsedShape (IvType p) = true
    /\ forall v, IvDefault p = Some v -> hasVariable v = false.
Proof.
  intros fuel l p l' H. unfold ParseInputValue in H. cbv zeta in H.
  apply andThen_Done_inv in H as (desc & l1 & _ & H).
  apply andThen_Done_inv in H as (name & l2 & _ & H).
  apply andThen_Done_inv in H as (u & l3 & _ & H).
  apply andThen_Done_inv in H as (type & l4 & Htype & H).
  apply andThen_Done_inv in H as (default & l7 & Hdefault & H).
  apply andThen_Done_inv in H as (directives & l8 & _ & H).
  inversion H; subst. cbn [IvType IvDefault].
  split; [exact (ParseType_shape _ _ _ _ Htype)|].
  intros v ->.
  destruct (Peek l4 =? 61); [|discriminate].
  apply andThen_Done_inv in Hdefault as (u' & l5 & _ & Hdefault).
  apply andThen_Done_inv in Hdefault as (v' & l6 & Hv & Hdefault).
  inversion Hdefault; subst. exact (ParseLiteral_constant _ _ _ _ Hv).
Qed.

End BlockStrings.

Lemma consumeTripleQuoteComment_returns_the_block_string_witness :
  consumeTripleQuoteComment 5 (blockLexer [34; 104; 105; 34; 34; 34])
  = Done "hi"
      {| sc := {| coming := [token scanIdent "type" 3]; runes := [];
                  current := token scanString EmptyString 1 |};
         next := chQuote;
         comment := EmptyString;
         useStringDescriptions := true |}.
Proof.
  assert (Hreads :
            reads (sc (blockLexer [34; 104; 105; 34; 34; 34]))
              (chQuote :: [104; 105] ++ [chQuote; chQuote; chQuote])
              {| coming := [token scanIdent "type" 3]; runes := [];
                 current := token scanString EmptyString 1 |}).
  { repeat (eapply reads_cons; [reflexivity|]). apply reads_nil. }
  exact (consumeTripleQuoteComment_returns_the_block_string
           (blockLexer [34; 104; 105; 34; 34; 34]) [104; 105] _ 5
           Hreads eq_refl eq_refl ltac:(discriminate) eq_refl ltac:(simpl; lia)).
Defined.

Lemma consumeTripleQuoteComment_accepts_an_open_block_string_witness :
  consumeTripleQuoteComment 5 (blockLexer [34; 104; 105])
  = Done "hi?"
      {| sc := {| coming := [token scanIdent "type" 3]; runes := [];
                  current := token scanString EmptyString 1 |};
         next := scanEOF;
         comment := EmptyString;
         useStringDescriptions := true |}.
Proof.
  assert (Hreads :
            reads (sc (blockLexer [34; 104; 105]))
              (chQuote :: [104; 105] ++ [scanEOF])
              {| coming := [token scanIdent "type" 3]; runes := [];
                 current := token scanString EmptyString 1 |}).
  { repeat (eapply reads_cons; [reflexivity|]). apply reads_nil. }
  exact (consumeTripleQuoteComment_accepts_an_open_block_string
           (blockLexer [34; 104; 105]) [104; 105] _ 5
           Hreads eq_refl eq_refl ltac:(simpl; lia)).
Defined.

Lemma ParseInputValue_returns_a_constant_default_witness :
  exists p l',
    ParseInputValue 10 inputValueLexer = Done p l'
    /\ IvDefault p = Some (types.PrimitiveValue scanInt "10" (at_ 14))
    /\ parsedShape (IvType p) = true
    /\ forall v, IvDefault p = Some v -> hasVariable v = false.
Proof.
  eexists. eexists.
  assert (H : forall p l', ParseInputValue 10 inputValueLexer = Done p l' ->
                ParseInputValue 10 inputValueLexer = Done p l'
                /\ parsedShape (IvType p) = true
                /\ forall v, IvDefault p = Some v -> hasVariable v = false).
  { intros p l' H. split; [exact H|].
    exact (ParseInputValue_returns_a_constant_default 10 _ p l' H). }
  destruct (H _ _ eq_refl) as (H1 & H2 & H3).
  split; [exact H1|]. split; [reflexivity|]. split; [exact H2 | exact H3].
Defined.


Section Rejecting.

Context {Scanner : Type} {scanner : TextScanner Scanner}.

Lemma spells_without_variable v toks :
  spells false v toks -> variableLoc v = None -> spells true v toks.
Proof.
  revert v toks.
  apply (spells_mutual false
           (fun v toks => variableLoc v = None -> spells true v toks)
           (fun vs toks =>
              fold_right
                (fun v rest =>
                   match variableLoc v with Some loc => Some loc | None => rest end)
                None vs = None ->
              spellsAll true vs toks)
           (fun fs toks =>
              fold_right
                (fun f rest =>
                   match variableLoc (snd f) with
                   | Some loc => Some loc
                   | None => rest
                   end)
                None fs = None ->
              spellsFields true fs toks)).
  - discriminate.
  - intros lit Hc Hn _. apply spells_primitive; assumption.
  - intros lit Hk Ht _. apply spells_null; assumption.
  - intros minus lit Hm _. apply spells_negative; assumption.
  - intros open close values toks Ho Hc _ IH H.
    apply spells_list; auto.
  - intros open close fields toks Ho Hc _ IH H.
    apply spells_object; auto.
  - intros _. apply spellsAll_nil.
  - intros v vs toks toks' _ IHv _ IHvs H. cbn [fold_right] in H.
    destruct (variableLoc v); [discriminate|].
    apply spellsAll_cons; auto.
  - intros _. apply spellsFields_nil.
  - intros name colon v fields toks toks' Hn Hc _ IHv _ IHfs H.
    cbn [fold_right snd] in H.
    destruct (variableLoc v); [discriminate|].
    apply spellsFields_cons; auto.
Qed.

Lemma listLoop_rejects bound rec vs toks :
  spellsAll false vs toks ->
  readsBack true bound rec ->
  (forall v toks (l : Lexer Scanner) more loc,
      spells false v toks -> variableLoc v = Some loc ->
      (length toks < bound)%nat -> lexerOn l (toks ++ more) -> more <> [] ->
      exists l', rec l = SyntaxError "variable not allowed" l'
                 /\ Location_ l' = loc) ->
  (length toks < bound)%nat ->
  forall loc n (l : Lexer Scanner) acc more,
    fold_right
      (fun v rest =>
         match variableLoc v with Some loc => Some loc | None => rest end)
      None vs = Some loc ->
    (length vs < n)%nat ->
    more <> [] ->
    lexerOn l (toks ++ more) ->
    exists l', listLoop rec n l acc = SyntaxError "variable not allowed" l'
               /\ Location_ l' = loc.
Proof.
  intros Hsp Hread Hrej.
  induction Hsp as [|v vs toks toks' Hv Hvs IH];
    intros Hlen loc n l acc more Hloc Hn Hmore Hl; [discriminate|].
  destruct n as [|n]; [simpl in Hn; lia|]. cbn [listLoop].
  rewrite length_app in Hlen. rewrite <- app_assoc in Hl.
  destruct (spells_starts _ _ _ Hv) as (h & tl & -> & Hstart).
  destruct (lexerOn_inv _ _ _ Hl) as (Hnext & _).
  unfold Peek. rewrite Hnext.
  rewrite (proj1 (startsValue_not_close _ Hstart)). cbn [negb].
  cbn [fold_right] in Hloc.
  destruct (variableLoc v) as [loc'|] eqn:Hvar.
  - inversion Hloc; subst loc'.
    destruct (Hrej v (h :: tl) l (toks' ++ more) loc Hv Hvar ltac:(lia) Hl
                (still_nonempty _ _ Hmore)) as (l1 & -> & Hl1).
    cbn [andThen]. eauto.
  - destruct (Hread v (h :: tl) l (toks' ++ more)
                (spells_without_variable _ _ Hv Hvar) ltac:(lia) Hl
                (still_nonempty _ _ Hmore)) as (l1 & -> & Hl1).
    cbn [andThen].
    exact (IH ltac:(lia) loc n l1 (acc ++ [v]) more Hloc
             ltac:(simpl in Hn; lia) Hmore Hl1).
Qed.

Lemma fieldLoop_rejects bound rec fields toks :
  spellsFields false fields toks ->
  readsBack true bound rec ->
  (forall v toks (l : Lexer Scanner) more loc,
      spells false v toks -> variableLoc v = Some loc ->
      (length toks < bound)%nat -> lexerOn l (toks ++ more) -> more <> [] ->
      exists l', rec l = SyntaxError "variable not allowed" l'
                 /\ Location_ l' = loc) ->
  (length toks < bound)%nat ->
  forall loc fuel n (l : Lexer Scanner) acc more,
    fold_right
      (fun f rest =>
         match variableLoc (snd f) with Some loc => Some loc | None => rest end)
      None fields = Some loc ->
    (length fields < n)%nat ->
    more <> [] ->
    lexerOn l (toks ++ more) ->
    exists l', fieldLoop rec (S fuel) n l acc
               = SyntaxError "variable not allowed" l'
               /\ Location_ l' = loc.
Proof.
  intros Hsp Hread Hrej.
  induction Hsp as [|name colon v fields toks toks' Hname Hcolon Hv Hfs IH];
    intros Hlen loc fuel n l acc more Hloc Hn Hmore Hl; [discriminate|].
  destruct n as [|n]; [simpl in Hn; lia|]. cbn [fieldLoop].
  cbn [length] in Hlen. rewrite length_app in Hlen.
  change ((name :: colon :: toks ++ toks') ++ more)
    with (name :: colon :: (toks ++ toks') ++ more) in Hl.
  rewrite <- app_assoc in Hl.
  destruct (lexerOn_inv _ _ _ Hl) as (Hnext & _).
  unfold Peek. rewrite Hnext, Hname. change (scanIdent =? chRBrace) with false.
  cbn [negb].
  destruct (ConsumeIdentWithLoc_on l name _ fuel Hl ltac:(discriminate) Hname)
    as (l1 & -> & Hl1).
  cbn [andThen].
  destruct (ConsumeToken_on l1 colon _ fuel chColon Hl1
              (still_nonempty _ _ (still_nonempty _ _ Hmore)) Hcolon)
    as (l2 & -> & Hl2).
  cbn [andThen].
  cbn [fold_right snd] in Hloc.
  destruct (variableLoc v) as [loc'|] eqn:Hvar.
  - inversion Hloc; subst loc'.
    destruct (Hrej v toks l2 (toks' ++ more) loc Hv Hvar ltac:(lia) Hl2
                (still_nonempty _ _ Hmore)) as (l3 & -> & Hl3).
    cbn [andThen]. eauto.
  - destruct (Hread v toks l2 (toks' ++ more)
                (spells_without_variable _ _ Hv Hvar) ltac:(lia) Hl2
                (still_nonempty _ _ Hmore)) as (l3 & -> & Hl3).
    cbn [andThen].
    exact (IH ltac:(lia) loc fuel n l3
             (acc ++ [({| types.Name := text name; types.Loc := pos name |}, v)])
             more Hloc ltac:(simpl in Hn; lia) Hmore Hl3).
Qed.

Lemma ParseLiteral_rejects fuel :
  forall v toks (l : Lexer Scanner) more loc,
    spells false v toks -> variableLoc v = Some loc ->
    (length toks < fuel)%nat -> lexerOn l (toks ++ more) -> more <> [] ->
    exists l', ParseLiteral fuel l true = SyntaxError "variable not allowed" l'
               /\ Location_ l' = loc.
Proof.
  induction fuel as [|fuel IH]; intros v toks l more loc Hsp Hloc Hlen Hl Hmore;
    [lia|].
  destruct Hsp as [dollar name Hc Hd Hn | lit Hc Hnull | lit Hk Ht | minus lit Hm
                   | open close values toks Ho Hcl Hvs
                   | open close fields toks Ho Hcl Hfs];
    try discriminate.
  - destruct (lexerOn_inv _ _ _ Hl) as (Hnext & _ & Hpos & _).
    rewrite ParseLiteral_dollar by (unfold Peek; congruence).
    exists l. split; [reflexivity|]. cbn [variableLoc] in Hloc.
    unfold Location_. congruence.
  - destruct (lexerOn_inv _ _ _ Hl) as (Hnext & _).
    rewrite ParseLiteral_list by (unfold Peek; congruence).
    cbn [length] in Hlen. rewrite length_app in Hlen. cbn [length] in Hlen.
    destruct fuel as [|fuel]; [lia|].
    change ((open :: toks ++ [close]) ++ more)
      with (open :: (toks ++ [close]) ++ more) in Hl.
    rewrite <- app_assoc in Hl. cbn [app] in Hl.
    destruct (ConsumeToken_on l open _ fuel chLBracket Hl
                (more_nonempty _ _ _) Ho) as (l1 & -> & Hl1).
    cbn [andThen]. cbn [variableLoc] in Hloc.
    pose proof (spellsAll_length _ _ _ Hvs) as Hcount.
    destruct (listLoop_rejects (S fuel) _ values toks Hvs
                (ParseLiteral_readsBack true (S fuel)) IH ltac:(lia)
                loc (S fuel) l1 [] (close :: more) Hloc ltac:(lia)
                ltac:(discriminate) Hl1) as (l2 & -> & Hl2).
    cbn [andThen]. eauto.
  - destruct (lexerOn_inv _ _ _ Hl) as (Hnext & _).
    rewrite ParseLiteral_object by (unfold Peek; congruence).
    cbn [length] in Hlen. rewrite length_app in Hlen. cbn [length] in Hlen.
    destruct fuel as [|fuel]; [lia|].
    change ((open :: toks ++ [close]) ++ more)
      with (open :: (toks ++ [close]) ++ more) in Hl.
    rewrite <- app_assoc in Hl. cbn [app] in Hl.
    destruct (ConsumeToken_on l open _ fuel chLBrace Hl
                (more_nonempty _ _ _) Ho) as (l1 & -> & Hl1).
    cbn [andThen]. cbn [variableLoc] in Hloc.
    pose proof (spellsFields_length _ _ _ Hfs) as Hcount.
    destruct (fieldLoop_rejects (S fuel) _ fields toks Hfs
                (ParseLiteral_readsBack true (S fuel)) IH ltac:(lia)
                loc fuel (S fuel) l1 [] (close :: more) Hloc ltac:(lia)
                ltac:(discriminate) Hl1) as (l2 & -> & Hl2).
    cbn [andThen]. eauto.
Qed.

(** Where only constants are allowed, a value that holds a variable is
    refused at its first variable: [ParseLiteral] with [constOnly] set,
    run under [CatchSyntaxError] on the tokens of such a value, gives the
    syntax error [variable not allowed] with the location of the dollar
    sign of the first variable, however deep it is nested. *)
Theorem ParseLiteral_refuses_the_first_variable :
  forall v toks (l : Lexer Scanner) more loc fuel,
    spells false v toks ->
    variableLoc v = Some loc ->
    (length toks < fuel)%nat ->
    lexerOn l (toks ++ more) ->
    more <> [] ->
    exists l',
      CatchSyntaxError (ParseLiteral fuel l true)
      = Done (Some (QueryError "syntax error: variable not allowed" [loc])) l'.
Proof.
  intros v toks l more loc fuel Hsp Hloc Hlen Hl Hmore.
  destruct (ParseLiteral_rejects fuel v toks l more loc Hsp Hloc Hlen Hl Hmore)
    as (l' & -> & <-).
  exists l'. reflexivity.
Qed.

End Rejecting.

Lemma sampleValue_spelled : spells false sampleValue sampleValueTokens.
Proof.
  apply (spells_list false (token chLBracket "[" 1) (token chRBracket "]" 11)
           _ [token scanInt "1" 2; token chLBrace "{" 4;
              token scanIdent "a" 5; token chColon ":" 6; token chDollar "$" 8;
              token scanIdent "x" 9; token chRBrace "}" 10]);
    [reflexivity | reflexivity |].
  apply (spellsAll_cons false _ _ [token scanInt "1" 2]
           [token chLBrace "{" 4; token scanIdent "a" 5; token chColon ":" 6;
            token chDollar "$" 8; token scanIdent "x" 9;
            token chRBrace "}" 10]).
  - apply (spells_primitive false (token scanInt "1" 2)).
    + left. reflexivity.
    + intros [H _]. discriminate H.
  - apply (spellsAll_cons false _ _
             [token chLBrace "{" 4; token scanIdent "a" 5; token chColon ":" 6;
              token chDollar "$" 8; token scanIdent "x" 9;
              token chRBrace "}" 10] []); [|apply spellsAll_nil].
    apply (spells_object false (token chLBrace "{" 4) (token chRBrace "}" 10)
             _ [token scanIdent "a" 5; token chColon ":" 6;
                token chDollar "$" 8; token scanIdent "x" 9]);
      [reflexivity | reflexivity |].
    apply (spellsFields_cons false (token scanIdent "a" 5)
             (token chColon ":" 6) _ []
             [token chDollar "$" 8; token scanIdent "x" 9] []);
      [reflexivity | reflexivity | | apply spellsFields_nil].
    apply (spells_variable false (token chDollar "$" 8)
             (token scanIdent "x" 9)); reflexivity.
Qed.

Lemma ParseLiteral_refuses_the_first_variable_witness :
  exists l',
    CatchSyntaxError
      (ParseLiteral 10 (lexerAt (token chLBracket "[" 1)
                          (tl sampleValueTokens ++ [endOfInput 12]) []) true)
    = Done (Some (QueryError "syntax error: variable not allowed" [at_ 8])) l'.
Proof.
  apply (ParseLiteral_refuses_the_first_variable sampleValue sampleValueTokens
           (lexerAt (token chLBracket "[" 1)
              (tl sampleValueTokens ++ [endOfInput 12]) [])
           [endOfInput 12] (at_ 8) 10).
  - exact sampleValue_spelled.
  - reflexivity.
  - simpl. lia.
  - repeat split;
      repeat (eapply produces_cons;
              [reflexivity | split; discriminate | reflexivity | reflexivity |]);
      apply produces_nil.
  - discriminate.
Defined.


Section Describing.

Context {Scanner : Type} {scanner : TextScanner Scanner}.

(** On a description written as an ordinary string, [DescComment] returns
    the unquoted string in the new mode and the comment kept before in the
    old mode; in both modes the string is consumed, with the commas and
    comments after it, and the comment kept afterwards is the text of
    those comments. *)
Theorem DescComment_consumes_the_description :
  forall (l : Lexer Scanner) val lines s k s',
    next l = scanString ->
    PeekChar (sc l) <> chQuote ->
    Unquote (TokenText (sc l)) = inr val ->
    skips (sc l) lines s ->
    Scan s = inr (k, s') ->
    k <> chComma ->
    k <> chHash ->
    exists enough, forall fuel, (enough <= fuel)%nat ->
      DescComment fuel l
      = Done (if useStringDescriptions l then val else comment l)
          {| sc := s'; next := k;
             comment := commentText (map encodeAll lines);
             useStringDescriptions := useStringDescriptions l |}.
Proof.
  intros l val lines s k s' Hnext Hpeek Hval Hskips Hk Hc Hh.
  destruct (whitespaceLoop_skips _ _ _ Hskips k s' Hk Hc Hh) as (enough & Hen).
  exists enough. intros fuel Hf.
  unfold DescComment, consumeDescription, consumeStringComment.
  rewrite Hnext, Z.eqb_refl. cbn [negb].
  apply Z.eqb_neq in Hpeek. rewrite Hpeek, Hval. cbn [andThen].
  unfold ConsumeWhitespace, withComment.
  rewrite (Hen fuel Hf), accumulate_commentText.
  cbn [andThen useStringDescriptions].
  destruct (useStringDescriptions l); reflexivity.
Qed.

End Describing.

Lemma DescComment_consumes_the_description_witness :
  exists enough, forall fuel, (enough <= fuel)%nat ->
    DescComment fuel describedLexer
    = Done "kept"
        {| sc := {| coming := []; runes := [];
                    current := token scanIdent "type" 10 |};
           next := scanIdent;
           comment := EmptyString;
           useStringDescriptions := false |}.
Proof.
  assert (Hskips :
            skips (sc describedLexer) []
              {| coming := [token scanIdent "type" 10]; runes := [];
                 current := token chComma "," 8 |}).
  { eapply skips_comma; [reflexivity | apply skips_nil]. }
  assert (Hpeek : PeekChar (sc describedLexer) <> chQuote) by discriminate.
  exact (DescComment_consumes_the_description describedLexer "hello" [] _
           scanIdent
           {| coming := []; runes := []; current := token scanIdent "type" 10 |}
           eq_refl Hpeek eq_refl Hskips eq_refl
           ltac:(discriminate) ltac:(discriminate)).
Defined.
